(** * WplacePixelConverter: palette quantization and dithering

    A shallow embedding of [js/utils.js] (nearest-palette-colour search,
    [clamp]) and [js/dithering.js] (the twelve quantization passes), and the
    properties of the specification checked against it; then of the rest of
    the application (see "The rest of the application"), with properties of
    its own.

    Modelling conventions.
    - A JavaScript number is a rational ([Q]); [NaN] and the infinities of
      IEEE doubles are outside the model.  [Infinity] as the initial value
      of a running minimum is [None] of an [option Q].
    - The colour search compares computed distances, and which of two close
      distances is the smaller depends on the rounding of every operation:
      the arithmetic of the colour-space helpers and of the distances is
      that of IEEE binary64, each operation rounding its exact result to
      the nearest double, ties to even ([roundDouble]).  The integer
      arithmetic of the [compuphase] branch and the arithmetic of the
      passes, whose results are only clamped and stored, are exact.
    - [Math.pow], [Math.cbrt] and [Math.random] are primitives of the runtime:
      they are parameters of the development.
    - A pixel [[r,g,b]] is a triple; the passes never mutate a pixel array in
      place (they replace [out[y][x]] by a new array), so grids are lists of
      rows updated functionally.  Aliasing matters for one claim only (the
      result of [findClosestColorInPalette] is a copy): it is stated on a
      store of colour arrays, see [findClosestColorInPalette_heap].
    - The hidden state of the module is explicit: the [WeakMap] entry of the
      palette in use ([labCache]), the number of samples drawn from
      [Math.random], and the values handed to the progress callback.
    - A [TypeError] of the source (reading an element of [undefined],
      spreading [undefined]) is the result [Throw].  Grids are the
      rectangular [number[][][]] / [number[][]] arrays of the JSDoc; an access
      outside the shape is a [Throw] in the model, and every theorem assumes
      the shape. *)

From Stdlib Require Import ZArith QArith Qminmax Qround Qabs Lia Lqa Bool Ascii
  String Sorted.
From stdpp Require Import base list.

Local Open Scope Z_scope.

(** ** Numbers *)

(** [a < b] on numbers. *)
Definition Qltb (a b : Q) : bool := negb (Qle_bool b a).

(** [d < minDistance] where [minDistance] starts at [Infinity]. *)
Definition ltInf (d : Q) (m : option Q) : bool :=
  match m with
  | None => true
  | Some m' => Qltb d m'
  end.

(** [Math.min(Math.max(value, min), max)] *)
Definition clamp (value min max : Q) : Q := Qmin (Qmax value min) max.

(** ToInt32 on an integer: wrap to the signed 32-bit range. *)
Definition toInt32 (z : Z) : Z := (z + 2 ^ 31) mod 2 ^ 32 - 2 ^ 31.

(** Truncation towards zero of a number (the first step of ToInt32). *)
Definition truncQ (q : Q) : Z := Z.quot (Qnum q) (Zpos (Qden q)).

(** [q | 0] *)
Definition bitor0 (q : Q) : Z := toInt32 (truncQ q).

(** [a >> n] for an integer-valued number [a]. *)
Definition sar (a n : Z) : Z := Z.shiftr (toInt32 a) n.

(** ** IEEE doubles

    The nearest integer, ties to the even one. *)
Definition roundHalfEven (q : Q) : Z :=
  let f := Qfloor q in
  match (q - inject_Z f ?= 1 # 2)%Q with
  | Lt => f
  | Gt => f + 1
  | Eq => if Z.even f then f else f + 1
  end.

(** The exponent [e] with [2 ^ e <= |q| < 2 ^ (e + 1)], for [q] other than
    0. *)
Definition binade (q : Q) : Z :=
  let e := Z.log2 (Z.abs (Qnum q)) - Z.log2 (Zpos (Qden q)) in
  if Qle_bool (Qpower 2 e) (Qabs q) then e else e - 1.

(** The double nearest to a number, ties to the even significand: 53 bits
    of significand, and the spacing of the subnormal numbers below
    [2 ^ -1022].  (No number is too large: overflow to [Infinity] is outside
    the model.) *)
Definition roundDouble (q : Q) : Q :=
  if Qeq_bool q 0 then 0%Q
  else
    let ulp := Qpower 2 (Z.max (binade q) (-1022) - 52) in
    Qred (inject_Z (roundHalfEven (q / ulp)) * ulp).

(** [a + b], [a - b], [a * b] and [a / b] on doubles, and a decimal literal
    of the source. *)
Definition fadd (a b : Q) : Q := roundDouble (a + b).
Definition fsub (a b : Q) : Q := roundDouble (a - b).
Definition fmul (a b : Q) : Q := roundDouble (a * b).
Definition fdiv (a b : Q) : Q := roundDouble (a / b).
Definition lit (q : Q) : Q := roundDouble q.

(** No proof computes a rounding by unfolding; the concrete examples
    evaluate with [vm_compute]. *)
Opaque roundDouble.

(** ** Data *)

Definition Pixel : Type := Q * Q * Q.
Definition Lab : Type := Q * Q * Q.
Definition Grid : Type := list (list Pixel).
Definition Mask : Type := list (list Q).

Definition chR (p : Pixel) : Q := fst (fst p).
Definition chG (p : Pixel) : Q := snd (fst p).
Definition chB (p : Pixel) : Q := snd p.

Inductive Mode := ModeRgb | ModeCompuphase | ModeLab.

(** ** Hidden state and exceptions *)

Inductive Error := TypeError.

Inductive Result (A : Type) :=
| Ok (a : A)
| Throw (e : Error).
Arguments Ok {A} a.
Arguments Throw {A} e.

Record World := mkWorld {
  labCache : option (list Lab);   (* _paletteLabCache.get(palette) *)
  randomDraws : nat;              (* calls of Math.random so far *)
  progressCalls : list Q          (* arguments of progressCallback, in order *)
}.

Definition M (A : Type) : Type := World -> Result (A * World).

Definition ret {A} (a : A) : M A := fun w => Ok (a, w).

Definition bind {A B} (c : M A) (k : A -> M B) : M B :=
  fun w => match c w with
           | Ok (a, w') => k a w'
           | Throw e => Throw e
           end.

Definition throw {A} (e : Error) : M A := fun _ => Throw e.

Notation "x <- c ;; k" := (bind c (fun x => k))
  (at level 100, c at next level, right associativity).
Notation "c ;;; k" := (bind c (fun _ => k))
  (at level 100, right associativity).

(** An [undefined] that is dereferenced. *)
Definition defined {A} (o : option A) : M A :=
  match o with
  | Some a => ret a
  | None => throw TypeError
  end.

(** [for (const x of xs) s = body(x, s)] *)
Fixpoint forEach {X S} (xs : list X) (body : X -> S -> M S) (s : S) : M S :=
  match xs with
  | [] => ret s
  | x :: xs' => s' <- body x s ;; forEach xs' body s'
  end.

(** [progressCallback(v)] *)
Definition progressCallback (v : Q) : M unit :=
  fun w => Ok (tt, mkWorld (labCache w) (randomDraws w) (progressCalls w ++ [v])).

(** [if (progressCallback && cond) progressCallback(v)]; [cb] tells whether
    a callback was passed. *)
Definition report (cb cond : bool) (v : Q) : M unit :=
  if cb && cond then progressCallback v else ret tt.

(** * The rest of the application

    The modules below embed the other source files: the tiling of
    [js/preview.js] (which [js/processor.js] is shipped with), [js/zip.js],
    [js/imageProcessing.js], [js/processor.js], the string helpers of
    [js/utils.js], [js/colors.js] and the curve builder of the curves
    editor.  Each module keeps the names of its source file.

    Further conventions.
    - A typed array is a list of integers; a read outside it is [undefined]
      ([None]) and a store outside it is ignored, as in the source language.
    - An exception that is not a [TypeError] of the dithering code (a
      [RangeError] of a typed-array constructor, a [DOMException] of
      [new ImageData]) is [None] of an [option].
    - Strings are ASCII strings. *)

(** ** Numbers and typed arrays *)

(** [Math.floor] and [Math.round] (a half is rounded up). *)
Definition Math_floor (q : Q) : Z := Qfloor q.
Definition Math_round (q : Q) : Z := Qfloor (q + (1 # 2)).

(** ToUint32 and ToUint16 on an integer. *)
Definition toUint32 (z : Z) : Z := z mod 2 ^ 32.
Definition toUint16 (z : Z) : Z := z mod 2 ^ 16.

(** [a ^ b], [a & b], [a | b], [a << n] and [a >>> n] on integer-valued
    numbers: the operands wrap to 32 bits, the shift count to 5 bits. *)
Definition bitxor (a b : Z) : Z := Z.lxor (toInt32 a) (toInt32 b).
Definition bitand (a b : Z) : Z := Z.land (toInt32 a) (toInt32 b).
Definition bitor (a b : Z) : Z := Z.lor (toInt32 a) (toInt32 b).
Definition shl (a n : Z) : Z := toInt32 (Z.shiftl (toInt32 a) (n mod 32)).
Definition ushr (a n : Z) : Z := Z.shiftr (toUint32 a) (n mod 32).

(** The conversion of a store into a [Uint8ClampedArray]: clamp to
    [0, 255], then round to the nearest integer, a half going to the even
    neighbour. *)
Definition toUint8Clamp (q : Q) : Z :=
  if Qle_bool q 0 then 0
  else if Qle_bool 255 q then 255
  else
    let f := Qfloor q in
    match (q - inject_Z f ?= 1 # 2)%Q with
    | Lt => f
    | Gt => f + 1
    | Eq => if Z.even f then f else f + 1
    end.

(** The same store of a value that may be [NaN] ([None]): [NaN] is stored
    as 0. *)
Definition storeByte (v : option Q) : Z :=
  match v with
  | Some q => toUint8Clamp q
  | None => 0
  end.

(** [a[i]] on an array, and [a[i] = v] on a typed array. *)
Definition getZ {A} (a : list A) (i : Z) : option A :=
  if i <? 0 then None else a !! Z.to_nat i.

Definition setZ (i : Z) (v : Z) (a : list Z) : list Z :=
  if i <? 0 then a else <[Z.to_nat i := v]> a.

(** [clamp(v, 0, 255)] stored into a [Uint8ClampedArray]; [v] may be [NaN]
    ([None]). *)
Definition storeClamped (v : option Q) : Z :=
  storeByte (option_map (fun q => clamp q 0 255) v).

(** An [ImageData]: [data] holds the pixels row by row, four bytes (red,
    green, blue, alpha) each. *)
Record ImageData := mkImageData {
  width : Z;
  height : Z;
  data : list Z
}.

(** [new ImageData(data, sw, sh)]; [None] when the constructor throws: the
    length of [data] must be a non-zero multiple of four, and the number of
    pixels must be [sw] times [sh], with [sw] and [sh] converted to unsigned
    32-bit integers. *)
Definition newImageData (d : list Z) (sw sh : Z) : option ImageData :=
  let len := Z.of_nat (length d) in
  let sw' := toUint32 sw in
  let sh' := toUint32 sh in
  if (len =? 0) || negb (len mod 4 =? 0) then None
  else if sw' =? 0 then None
  else if negb ((len / 4) mod sw' =? 0) then None
  else if negb ((len / 4) / sw' =? sh') then None
  else Some (mkImageData sw' sh' d).

(** [new Uint8ClampedArray(n)]: [n] zero bytes; [None] (a [RangeError])
    when [n] is negative. *)
Definition newUint8ClampedArray (n : Z) : option (list Z) :=
  if n <? 0 then None else Some (repeat 0 (Z.to_nat n)).

(** The four stores [a[i] = r; a[i + 1] = g; a[i + 2] = b; a[i + 3] = al]. *)
Definition storePixel (i : Z) (r g b al : Z) (a : list Z) : list Z :=
  setZ (i + 3) al (setZ (i + 2) b (setZ (i + 1) g (setZ i r a))).

(** All the elements of a list of optional values, when none is missing. *)
Fixpoint allDefined {A} (l : list (option A)) : option (list A) :=
  match l with
  | [] => Some []
  | Some a :: l' => option_map (cons a) (allDefined l')
  | None :: _ => None
  end.

(** ** [js/preview.js] *)

Module Preview.

(** The outcome of a function with loops that may not end. *)
Inductive Outcome (A : Type) :=
| Returns (a : A)
| Throws
| OutOfFuel.
Arguments Returns {A} a.
Arguments Throws {A}.
Arguments OutOfFuel {A}.

Record Segment := mkSegment {
  imageData : ImageData;
  segX : Z;                 (* x *)
  segY : Z;                 (* y *)
  filename : Z * Z          (* the two numbers of segment_<row>_<col>.png *)
}.

(** The body of the loop over [x] of [createImageSegments]: one segment,
    or [None] when a constructor throws. *)
Definition makeSegment (img : ImageData) (segmentSize y x : Z)
    : option Segment :=
  let segmentWidth := Z.min segmentSize (width img - x) in
  let segmentHeight := Z.min segmentSize (height img - y) in
  match newUint8ClampedArray (segmentWidth * segmentHeight * 4) with
  | None => None
  | Some zeros =>
      let segmentData :=
        fold_left
          (fun acc sy =>
             fold_left
               (fun acc sx =>
                  let sourceIndex := ((y + sy) * width img + (x + sx)) * 4 in
                  let targetIndex := (sy * segmentWidth + sx) * 4 in
                  let src k :=
                    storeByte
                      (option_map inject_Z (getZ (data img) (sourceIndex + k)))
                  in
                  storePixel targetIndex (src 0) (src 1) (src 2) (src 3) acc)
               (seqZ 0 segmentWidth) acc)
          (seqZ 0 segmentHeight) zeros in
      match newImageData segmentData segmentWidth segmentHeight with
      | None => None
      | Some segmentImageData =>
          Some (mkSegment segmentImageData x y
                  (Math_floor (inject_Z y / inject_Z segmentSize),
                   Math_floor (inject_Z x / inject_Z segmentSize)))
      end
  end.

(** The loop over [x] of [createImageSegments] from [x] on, in the row of
    segments at [y]. *)
Fixpoint segmentRow (fuel : nat) (img : ImageData) (segmentSize y x : Z)
    : Outcome (list Segment) :=
  if x <? width img then
    match fuel with
    | O => OutOfFuel
    | S fuel' =>
        match makeSegment img segmentSize y x with
        | None => Throws
        | Some s =>
            match segmentRow fuel' img segmentSize y (x + segmentSize) with
            | Returns ss => Returns (s :: ss)
            | Throws => Throws
            | OutOfFuel => OutOfFuel
            end
        end
    end
  else Returns [].

(** The loop over [y] from [y] on; each of its iterations runs the loop
    over [x] with [rowFuel]. *)
Fixpoint segmentRows (fuel rowFuel : nat) (img : ImageData)
    (segmentSize y : Z) : Outcome (list Segment) :=
  if y <? height img then
    match fuel with
    | O => OutOfFuel
    | S fuel' =>
        match segmentRow rowFuel img segmentSize y 0 with
        | Returns row =>
            match
              segmentRows fuel' rowFuel img segmentSize (y + segmentSize)
            with
            | Returns rest => Returns (row ++ rest)
            | Throws => Throws
            | OutOfFuel => OutOfFuel
            end
        | Throws => Throws
        | OutOfFuel => OutOfFuel
        end
    end
  else Returns [].

(** [createImageSegments]; [fuel] bounds the number of iterations of each
    loop. *)
Definition createImageSegments (fuel : nat) (img : ImageData)
    (segmentSize : Z) : Outcome (list Segment) :=
  segmentRows fuel fuel img segmentSize 0.

End Preview.

(** ** [js/zip.js] *)

Module Zip.

(** The body of the inner loop of [makeCRC32Table]:
    [c = c & 1 ? 0xedb88320 ^ (c >>> 1) : c >>> 1]. *)
Definition tableStep (c : Z) : Z :=
  if negb (bitand c 1 =? 0) then bitxor 0xedb88320 (ushr c 1) else ushr c 1.

Definition makeCRC32Table : list Z :=
  map (fun n => toUint32 (ushr (Nat.iter 8 tableStep n) 0)) (seqZ 0 256).

Definition CRC_TABLE : list Z := makeCRC32Table.

(** [CRC_TABLE[i]] as an operand of [^]: [undefined] counts as 0. *)
Definition tableAt (i : Z) : Z := default 0 (getZ CRC_TABLE i).

Definition crc32 (u8 : list Z) : Z :=
  let c :=
    fold_left
      (fun c byte => bitxor (tableAt (bitand (bitxor c byte) 0xff)) (ushr c 8))
      u8 0xffffffff in
  ushr (bitxor c 0xffffffff) 0.

(** What [dateToDos] reads of a [Date]. *)
Record Date := mkDate {
  getFullYear : Z;
  getMonth : Z;
  getDate : Z;
  getHours : Z;
  getMinutes : Z;
  getSeconds : Z
}.

(** [dateToDos]: the pair [(dosTime, dosDate)]. *)
Definition dateToDos (dt : Date) : Z * Z :=
  let year := getFullYear dt in
  let mon := getMonth dt + 1 in
  let day := getDate dt in
  let hrs := getHours dt in
  let min := getMinutes dt in
  let sec := Math_floor (inject_Z (getSeconds dt) / 2) in
  let dosTime := bitor (bitor (shl hrs 11) (shl min 5)) sec in
  let dosDate := bitor (bitor (shl (year - 1980) 9) (shl mon 5)) day in
  (dosTime, dosDate).

(** [dv.setUint16(pos, v, true)] and [dv.setUint32(pos, v, true)]: the
    value wraps to the width of the field and is stored low byte first. *)
Definition setUint16 (pos v : Z) (dv : list Z) : list Z :=
  let v := toUint16 v in
  setZ (pos + 1) (v / 256 mod 256) (setZ pos (v mod 256) dv).

Definition setUint32 (pos v : Z) (dv : list Z) : list Z :=
  let v := toUint32 v in
  setZ (pos + 3) (v / 16777216 mod 256)
    (setZ (pos + 2) (v / 65536 mod 256)
       (setZ (pos + 1) (v / 256 mod 256) (setZ pos (v mod 256) dv))).

(** [new ArrayBuffer(n)] *)
Definition newArrayBuffer (n : nat) : list Z := repeat 0 n.

(** A file to store: [name] is the encoded name
    ([encoder.encode(f.name.replace(...))]), [date] is absent when the
    caller gives none. *)
Record File := mkFile {
  name : list Z;
  data : list Z;
  date : option Date
}.

(** An element of [records]. *)
Record Entry := mkEntry {
  nameBytes : list Z;
  crc : Z;
  size : Z;
  dosTime : Z;
  dosDate : Z;
  offset : Z
}.

(** The local file header [lh] of the first loop. *)
Definition localHeader (nameLength crc size dosTime dosDate : Z) : list Z :=
  let dv := newArrayBuffer 30 in
  let dv := setUint32 0 0x04034b50 dv in
  let dv := setUint16 4 20 dv in
  let dv := setUint16 6 0 dv in
  let dv := setUint16 8 0 dv in
  let dv := setUint16 10 dosTime dv in
  let dv := setUint16 12 dosDate dv in
  let dv := setUint32 14 crc dv in
  let dv := setUint32 18 size dv in
  let dv := setUint32 22 size dv in
  let dv := setUint16 26 nameLength dv in
  let dv := setUint16 28 0 dv in
  dv.

(** The central directory header [ch] of the second loop. *)
Definition centralHeader (r : Entry) : list Z :=
  let dv := newArrayBuffer 46 in
  let dv := setUint32 0 0x02014b50 dv in
  let dv := setUint16 4 20 dv in
  let dv := setUint16 6 20 dv in
  let dv := setUint16 8 0 dv in
  let dv := setUint16 10 0 dv in
  let dv := setUint16 12 (dosTime r) dv in
  let dv := setUint16 14 (dosDate r) dv in
  let dv := setUint32 16 (crc r) dv in
  let dv := setUint32 20 (size r) dv in
  let dv := setUint32 24 (size r) dv in
  let dv := setUint16 28 (Z.of_nat (length (nameBytes r))) dv in
  let dv := setUint16 30 0 dv in
  let dv := setUint16 32 0 dv in
  let dv := setUint16 34 0 dv in
  let dv := setUint16 36 0 dv in
  let dv := setUint32 38 0 dv in
  let dv := setUint32 42 (offset r) dv in
  dv.

(** The end of central directory record. *)
Definition endOfCentralDirectory (count centralSize centralStart : Z)
    : list Z :=
  let dv := newArrayBuffer 22 in
  let dv := setUint32 0 0x06054b50 dv in
  let dv := setUint16 4 0 dv in
  let dv := setUint16 6 0 dv in
  let dv := setUint16 8 count dv in
  let dv := setUint16 10 count dv in
  let dv := setUint32 12 centralSize dv in
  let dv := setUint32 16 centralStart dv in
  let dv := setUint16 20 0 dv in
  dv.

(** The body of the first loop, on [(localParts, records, offset)]. *)
Definition storeFile (now : Date) (st : list Z * list Entry * Z) (f : File)
    : list Z * list Entry * Z :=
  let '(localParts, records, offset) := st in
  let nameBytes := name f in
  let dataU8 := data f in
  let crc := crc32 dataU8 in
  let size := ushr (Z.of_nat (length dataU8)) 0 in
  let when := default now (date f) in
  let '(dosTime, dosDate) := dateToDos when in
  let lh :=
    localHeader (Z.of_nat (length nameBytes)) crc size dosTime dosDate in
  let localSize := 30 + Z.of_nat (length nameBytes) + size in
  (localParts ++ lh ++ nameBytes ++ dataU8,
   records ++ [mkEntry nameBytes crc size dosTime dosDate offset],
   offset + localSize).

(** The body of the second loop, on [(centralParts, offset)]. *)
Definition listFile (st : list Z * Z) (r : Entry) : list Z * Z :=
  let '(centralParts, offset) := st in
  (centralParts ++ centralHeader r ++ nameBytes r,
   offset + (46 + Z.of_nat (length (nameBytes r)))).

(** [zipFiles]: the bytes of the blob; [now] is the time of the call. *)
Definition zipFiles (now : Date) (files : list File) : list Z :=
  let '(localParts, records, offset) :=
    fold_left (storeFile now) files ([], [], 0) in
  let centralStart := offset in
  let '(centralParts, offset) :=
    fold_left listFile records ([], offset) in
  let centralSize := offset - centralStart in
  let eocd :=
    endOfCentralDirectory (Z.of_nat (length records)) centralSize
      centralStart in
  localParts ++ centralParts ++ eocd.

(** [dv.getUint16(pos, true)] and [dv.getUint32(pos, true)], for reading
    an archive back. *)
Definition getUint16 (a : list Z) (pos : Z) : option Z :=
  match getZ a pos, getZ a (pos + 1) with
  | Some b0, Some b1 => Some (b0 + 256 * b1)
  | _, _ => None
  end.

Definition getUint32 (a : list Z) (pos : Z) : option Z :=
  match getZ a pos, getZ a (pos + 1), getZ a (pos + 2), getZ a (pos + 3) with
  | Some b0, Some b1, Some b2, Some b3 =>
      Some (b0 + 256 * b1 + 65536 * b2 + 16777216 * b3)
  | _, _, _, _ => None
  end.

End Zip.

(** ** [js/imageProcessing.js]

    The three adjustments change [imageData.data] in place and return
    [imageData]; here they return the image after the change.  Their
    arithmetic is exact: what is proved about them (the bytes that they
    keep, the factor 1) does not depend on the rounding of a product; the
    sums of [applySharpen] are sums of integers, which doubles hold
    exactly. *)

Module ImageProcessing.

(** The loop of [adjustBrightness] over [data], four bytes at a time.  When
    the length of [data] is not a multiple of four, the stores past the end
    in the last iteration are ignored. *)
Fixpoint brightnessLoop (brightness : Q) (data : list Z) : list Z :=
  match data with
  | r :: g :: b :: a :: rest =>
      storeClamped (Some (inject_Z r * brightness)%Q)
      :: storeClamped (Some (inject_Z g * brightness)%Q)
      :: storeClamped (Some (inject_Z b * brightness)%Q)
      :: a :: brightnessLoop brightness rest
  | _ => map (fun c => storeClamped (Some (inject_Z c * brightness)%Q)) data
  end.

Definition adjustBrightness (imageData : ImageData) (brightness : Q)
    : ImageData :=
  mkImageData (width imageData) (height imageData)
    (brightnessLoop brightness (data imageData)).

Fixpoint contrastLoop (factor : Q) (data : list Z) : list Z :=
  match data with
  | r :: g :: b :: a :: rest =>
      storeClamped (Some ((inject_Z r - 128) * factor + 128)%Q)
      :: storeClamped (Some ((inject_Z g - 128) * factor + 128)%Q)
      :: storeClamped (Some ((inject_Z b - 128) * factor + 128)%Q)
      :: a :: contrastLoop factor rest
  | _ =>
      map (fun c => storeClamped (Some ((inject_Z c - 128) * factor + 128)%Q))
        data
  end.

Definition adjustContrast (imageData : ImageData) (contrast : Q)
    : ImageData :=
  let factor := contrast in
  mkImageData (width imageData) (height imageData)
    (contrastLoop factor (data imageData)).

(** [gray] of the loop of [adjustSaturation]. *)
Definition gray (r g b : Z) : Q :=
  ((299 # 1000) * inject_Z r + (587 # 1000) * inject_Z g
   + (114 # 1000) * inject_Z b)%Q.

(** The loop of [adjustSaturation].  In a last iteration that lacks the
    green or the blue byte, [gray] is [NaN], which is stored as 0. *)
Fixpoint saturationLoop (saturation : Q) (data : list Z) : list Z :=
  match data with
  | r :: g :: b :: rest =>
      let gray := gray r g b in
      let r' := storeClamped (Some (gray + saturation * (inject_Z r - gray))%Q) in
      let g' := storeClamped (Some (gray + saturation * (inject_Z g - gray))%Q) in
      let b' := storeClamped (Some (gray + saturation * (inject_Z b - gray))%Q) in
      match rest with
      | a :: rest' => r' :: g' :: b' :: a :: saturationLoop saturation rest'
      | [] => [r'; g'; b']
      end
  | _ => map (fun _ => storeClamped None) data
  end.

Definition adjustSaturation (imageData : ImageData) (saturation : Q)
    : ImageData :=
  mkImageData (width imageData) (height imageData)
    (saturationLoop saturation (data imageData)).

Definition kernel : list (list Q) :=
  [[0; -1; 0]; [-1; 5; -1]; [0; -1; 0]]%Q.

(** One iteration of the loops over [ky] and [kx] of [applySharpen], on the
    three sums; a sum is [NaN] ([None]) once an operand is [undefined]. *)
Definition accumulate (data : list Z) (width y x ky kx : Z)
    (sums : option Q * option Q * option Q) : option Q * option Q * option Q :=
  let '(r, g, b) := sums in
  let pixelIdx := ((y + ky) * width + (x + kx)) * 4 in
  let weight :=
    match getZ kernel (ky + 1) with
    | Some row => getZ row (kx + 1)
    | None => None
    end in
  let add (s : option Q) (d : option Z) : option Q :=
    match s, d, weight with
    | Some s, Some d, Some weight => Some (s + inject_Z d * weight)%Q
    | _, _, _ => None
    end in
  (add r (getZ data pixelIdx), add g (getZ data (pixelIdx + 1)),
   add b (getZ data (pixelIdx + 2))).

(** The body of the loop over [x] of [applySharpen]. *)
Definition sharpenPixel (data : list Z) (width y x : Z) (output : list Z)
    : list Z :=
  let idx := (y * width + x) * 4 in
  let '(r, g, b) :=
    fold_left
      (fun sums ky =>
         fold_left (fun sums kx => accumulate data width y x ky kx sums)
           (seqZ (-1) 3) sums)
      (seqZ (-1) 3) (Some 0%Q, Some 0%Q, Some 0%Q) in
  storePixel idx (storeClamped r) (storeClamped g) (storeClamped b)
    (storeByte (option_map inject_Z (getZ data (idx + 3)))) output.

(** [applySharpen]; [None] when [new ImageData] throws. *)
Definition applySharpen (imageData : ImageData) (width height : Z)
    : option ImageData :=
  let data := data imageData in
  let output := data in
  let output :=
    fold_left
      (fun output y =>
         fold_left (fun output x => sharpenPixel data width y x output)
           (seqZ 1 (width - 2)) output)
      (seqZ 1 (height - 2)) output in
  newImageData output width height.

Record Config := mkConfig {
  brightness : Q;
  contrast : Q;
  saturation : Q;
  useSharpening : bool
}.

Definition processImage (imageData : ImageData) (width height : Z)
    (config : Config) : option ImageData :=
  let processedData := imageData in
  let processedData :=
    if negb (Qeq_bool (brightness config) 1)
    then adjustBrightness processedData (brightness config)
    else processedData in
  let processedData :=
    if negb (Qeq_bool (contrast config) 1)
    then adjustContrast processedData (contrast config)
    else processedData in
  let processedData :=
    if negb (Qeq_bool (saturation config) 1)
    then adjustSaturation processedData (saturation config)
    else processedData in
  if useSharpening config
  then applySharpen processedData width height
  else Some processedData.

End ImageProcessing.

(** ** The string helpers of [js/utils.js] *)

Module Utils.

(** [s.replace(c, "")] for a one-character pattern: the first occurrence
    is removed. *)
Fixpoint removeFirst (c : ascii) (s : string) : string :=
  match s with
  | EmptyString => EmptyString
  | String a s' => if Ascii.eqb a c then s' else String a (removeFirst c s')
  end.

(** The value of a hexadecimal digit. *)
Definition hexValue (c : ascii) : option Z :=
  let n := Z.of_nat (nat_of_ascii c) in
  if (48 <=? n) && (n <=? 57) then Some (n - 48)
  else if (97 <=? n) && (n <=? 102) then Some (n - 87)
  else if (65 <=? n) && (n <=? 70) then Some (n - 55)
  else None.

(** The number written by the longest prefix of hexadecimal digits of
    [s], after the digits read so far ([acc]); [None] when there is no
    digit. *)
Fixpoint parseDigits (s : string) (acc : option Z) : option Z :=
  match s with
  | EmptyString => acc
  | String c s' =>
      match hexValue c with
      | Some d => parseDigits s' (Some (16 * default 0 acc + d))
      | None => acc
      end
  end.

Definition isWhiteSpace (c : ascii) : bool :=
  let n := nat_of_ascii c in
  ((9 <=? n) && (n <=? 13))%nat || (n =? 32)%nat.

Fixpoint trimStart (s : string) : string :=
  match s with
  | String c s' => if isWhiteSpace c then trimStart s' else s
  | EmptyString => s
  end.

(** [parseInt(s, 16)]; [None] is [NaN]. *)
Definition parseInt16 (s : string) : option Z :=
  let s := trimStart s in
  let '(sign, s) :=
    match s with
    | String "-" s' => (-1, s')
    | String "+" s' => (1, s')
    | _ => (1, s)
    end in
  let s :=
    match s with
    | String "0" (String "x" s') => s'
    | String "0" (String "X" s') => s'
    | _ => s
    end in
  option_map (Z.mul sign) (parseDigits s None).

Definition hexToRgb (hex : string) : list (option Z) :=
  let cleanHex := removeFirst "#" hex in
  [parseInt16 (substring 0 2 cleanHex);
   parseInt16 (substring 2 2 cleanHex);
   parseInt16 (substring 4 2 cleanHex)].

(** The digit of value [d] written by [toString(16)]. *)
Definition hexDigit (d : Z) : ascii :=
  nth (Z.to_nat d)
    ["0"; "1"; "2"; "3"; "4"; "5"; "6"; "7"; "8"; "9";
     "a"; "b"; "c"; "d"; "e"; "f"]%char "0"%char.

(** The hexadecimal digits of a positive integer [n] put before [acc]. *)
Fixpoint digits16 (fuel : nat) (n : Z) (acc : string) : string :=
  match fuel with
  | O => acc
  | S fuel' =>
      let acc' := String (hexDigit (n mod 16)) acc in
      if n / 16 =? 0 then acc' else digits16 fuel' (n / 16) acc'
  end.

(** [n.toString(16)] for an integer [n]. *)
Definition toString16 (n : Z) : string :=
  let digits m := digits16 (S (Z.to_nat (Z.log2 m))) m EmptyString in
  if n <? 0 then String "-" (digits (- n)) else digits n.

(** [s.padStart(2, "0")] *)
Definition padStart2 (s : string) : string :=
  match String.length s with
  | O => "00"
  | S O => String "0" s
  | _ => s
  end.

Definition rgbToHex (rgb : list Q) : string :=
  String "#"
    (String.concat ""
       (map (fun c => padStart2 (toString16 (Math_round c))) rgb)).

End Utils.

(** ** [js/colors.js] *)

Module Colors.

Definition FREE_PALETTE_COLORS : list string :=
  ["#000000"; "#3c3c3c"; "#787878"; "#d2d2d2"; "#ffffff"; "#600018";
   "#ed1c24"; "#ff7f27"; "#f6aa09"; "#f9dd3b"; "#fffabc"; "#0eb968";
   "#13e67b"; "#87ff5e"; "#0c816e"; "#10aea6"; "#13e1be"; "#28509e";
   "#4093e4"; "#60f7f2"; "#6b50f6"; "#99b1fb"; "#780c99"; "#aa38b9";
   "#e09ff9"; "#cb007a"; "#ec1f80"; "#f38da9"; "#684634"; "#95682a";
   "#f8b277"]%string.

Definition EXTRA_PALETTE_COLORS : list string :=
  ["#aaaaaa"; "#a50e1e"; "#fa8072"; "#e45c1a"; "#9c8431"; "#c5ad31";
   "#e8d45f"; "#4a6b3a"; "#5a944a"; "#84c573"; "#0f799f"; "#bbfaf2";
   "#7dc7ff"; "#4d31b8"; "#4a4284"; "#7a71c4"; "#b5aef1"; "#9b5249";
   "#d18078"; "#fab6a4"; "#dba463"; "#7b6352"; "#9c846b"; "#d6b594";
   "#d18051"; "#ffc5a5"; "#6d643f"; "#948c6b"; "#cdc59e"; "#333941";
   "#6d758d"; "#b3b9d1"]%string.

Definition FULL_PALETTE_COLORS : list string :=
  FREE_PALETTE_COLORS ++ EXTRA_PALETTE_COLORS.

Definition getPaletteAsRgb (hexColors : list string)
    : list (list (option Z)) :=
  map Utils.hexToRgb hexColors.

End Colors.

(** ** [js/processor.js] *)

Module Processor.

(** The body of the loop over [x] of [imageDataToArrays]: the pixel and its
    alpha; [None] when a byte read is [undefined]. *)
Definition pixelAt (imageData : ImageData) (y x : Z) : option Pixel :=
  let index := (y * width imageData + x) * 4 in
  match getZ (data imageData) index, getZ (data imageData) (index + 1),
        getZ (data imageData) (index + 2) with
  | Some r, Some g, Some b => Some (inject_Z r, inject_Z g, inject_Z b)
  | _, _, _ => None
  end.

Definition alphaAt (imageData : ImageData) (y x : Z) : option Q :=
  let index := (y * width imageData + x) * 4 in
  option_map inject_Z (getZ (data imageData) (index + 3)).

(** The array filled by the two loops of [imageDataToArrays]: the element
    at [[y][x]] is [f y x]. *)
Definition filled {A} (f : Z -> Z -> option A) (width height : Z)
    : option (list (list A)) :=
  allDefined
    (map (fun y => allDefined (map (f y) (seqZ 0 width))) (seqZ 0 height)).

(** [imageDataToArrays]: the pair [(rgbChannels, alphaChannel)]; [None]
    when a byte read is [undefined] (the arrays of the source then hold
    [undefined], which a grid of numbers cannot). *)
Definition imageDataToArrays (imageData : ImageData) : option (Grid * Mask) :=
  match filled (pixelAt imageData) (width imageData) (height imageData),
        filled (alphaAt imageData) (width imageData) (height imageData) with
  | Some rgbChannels, Some alphaChannel => Some (rgbChannels, alphaChannel)
  | _, _ => None
  end.

(** The body of the loop over [x] of [arraysToImageData]; [None] when
    [rgbChannels[y][x]] or [alphaChannel[y]] is [undefined] (a
    [TypeError]). *)
Definition writePixel (rgbChannels : Grid) (alphaChannel : Mask)
    (width y x : Z) (data : list Z) : option (list Z) :=
  let index := (y * width + x) * 4 in
  match getZ rgbChannels y, getZ alphaChannel y with
  | Some row, Some alphaRow =>
      match getZ row x with
      | Some p =>
          Some (storePixel index
                  (storeClamped (Some (chR p))) (storeClamped (Some (chG p)))
                  (storeClamped (Some (chB p)))
                  (storeClamped (getZ alphaRow x)) data)
      | None => None
      end
  | _, _ => None
  end.

(** [for (const v of vs) s = body(v, s)], stopping at the first
    exception. *)
Fixpoint forEachOpt {X S} (vs : list X) (body : X -> S -> option S) (s : S)
    : option S :=
  match vs with
  | [] => Some s
  | v :: vs' =>
      match body v s with
      | Some s' => forEachOpt vs' body s'
      | None => None
      end
  end.

(** [arraysToImageData]; [None] when it throws. *)
Definition arraysToImageData (rgbChannels : Grid) (alphaChannel : Mask)
    (width height : Z) : option ImageData :=
  match newUint8ClampedArray (width * height * 4) with
  | None => None
  | Some data =>
      match
        forEachOpt (seqZ 0 height)
          (fun y data =>
             forEachOpt (seqZ 0 width)
               (fun x data => writePixel rgbChannels alphaChannel width y x data)
               data)
          data
      with
      | Some data => newImageData data width height
      | None => None
      end
  end.

(** The [Map] of [countImageColors]: the keys in the order of their first
    insertion.  A key [`${r},${g},${b}`] is the triple of its numbers. *)
Definition ColorMap : Type := list ((Z * Z * Z) * Z).

Definition keyEq (k k' : Z * Z * Z) : bool :=
  let '(r, g, b) := k in
  let '(r', g', b') := k' in
  (r =? r') && (g =? g') && (b =? b').

(** [colorCounts.get(key)] *)
Fixpoint mapGet (colorCounts : ColorMap) (key : Z * Z * Z) : option Z :=
  match colorCounts with
  | [] => None
  | (k, v) :: rest => if keyEq k key then Some v else mapGet rest key
  end.

(** [colorCounts.set(key, value)] *)
Fixpoint mapSet (key : Z * Z * Z) (value : Z) (colorCounts : ColorMap)
    : ColorMap :=
  match colorCounts with
  | [] => [(key, value)]
  | (k, v) :: rest =>
      if keyEq k key then (k, value) :: rest
      else (k, v) :: mapSet key value rest
  end.

(** The loop of [countImageColors]: a last iteration without an alpha byte
    counts nothing ([undefined >= alphaThreshold] is false). *)
Fixpoint countLoop (alphaThreshold : Q) (data : list Z)
    (colorCounts : ColorMap) : ColorMap :=
  match data with
  | r :: g :: b :: alpha :: rest =>
      countLoop alphaThreshold rest
        (if Qle_bool alphaThreshold (inject_Z alpha) then
           let colorKey := (r, g, b) in
           mapSet colorKey (default 0 (mapGet colorCounts colorKey) + 1)
             colorCounts
         else colorCounts)
  | _ => colorCounts
  end.

Definition countImageColors (imageData : ImageData) (alphaThreshold : Q)
    : ColorMap :=
  countLoop alphaThreshold (data imageData) [].

(** An element of the result of [getColorStatistics]. *)
Record Stat := mkStat {
  name : string;
  hex : string;
  count : Z
}.

(** The body of the loop of [getColorStatistics]; [colorNameMap] is the
    lookup [colorNameMap?.[hex]]. *)
Definition statOf (colorNameMap : string -> option string)
    (entry : (Z * Z * Z) * Z) : Stat :=
  let '((r, g, b), count) := entry in
  let hex :=
    String "#"
      (Utils.padStart2 (Utils.toString16 r)
       ++ Utils.padStart2 (Utils.toString16 g)
       ++ Utils.padStart2 (Utils.toString16 b))%string in
  let name :=
    match colorNameMap hex with
    | Some n => if String.eqb n "" then "Unknown"%string else n
    | None => "Unknown"%string
    end in
  mkStat name hex count.

(** [stats.sort((a, b) => b.count - a.count)]: the sort of an array is
    stable, so it is the insertion of each element before the first one
    that it does not have to follow. *)
Fixpoint insertStat (a : Stat) (sorted : list Stat) : list Stat :=
  match sorted with
  | [] => [a]
  | b :: rest =>
      if count b - count a <=? 0 then a :: b :: rest
      else b :: insertStat a rest
  end.

Definition sortStats (stats : list Stat) : list Stat :=
  fold_right insertStat [] stats.

Definition getColorStatistics (imageData : ImageData)
    (colorNameMap : string -> option string) (alphaThreshold : Q)
    : list Stat :=
  let colorCounts := countImageColors imageData alphaThreshold in
  let stats := map (statOf colorNameMap) colorCounts in
  sortStats stats.

End Processor.

(** ** The curve builder of the curves editor

    The arithmetic is exact; at the control points, which lie on the grid
    of integers, so is that of the code. *)

Module Curves.

Definition clamp01 (v : Q) : Q := Qmin 1 (Qmax 0 v).

Definition cubicInterp (p0 p1 p2 p3 t : Q) : Q :=
  let v0 := ((p2 - p0) * 0.5)%Q in
  let v1 := ((p3 - p1) * 0.5)%Q in
  let t2 := (t * t)%Q in
  let t3 := (t2 * t)%Q in
  ((2 * p1 - 2 * p2 + v0 + v1) * t3
   + (-3 * p1 + 3 * p2 - 2 * v0 - v1) * t2 + v0 * t + p1)%Q.

Record Point := mkPoint {
  x : Q;
  y : Q
}.

(** [points.slice().sort((a, b) => a.x - b.x)]: the sort is stable. *)
Fixpoint insertPoint (a : Point) (sorted : list Point) : list Point :=
  match sorted with
  | [] => [a]
  | b :: rest =>
      if Qle_bool (x a - x b) 0 then a :: b :: rest
      else b :: insertPoint a rest
  end.

Definition sortPoints (points : list Point) : list Point :=
  fold_right insertPoint [] points.

(** [lut[x] = Math.max(0, Math.min(255, Math.round(y)))] *)
Definition lutValue (y : Q) : Z := Z.max 0 (Z.min 255 (Math_round y)).

(** [let i = 0; while (i < n - 1 && x > pts[i + 1].x) i++;] from [i] on:
    the final [i].  The loop stops after at most [n] iterations, which the
    fuel counts. *)
Fixpoint findSegment (fuel : nat) (pts : list Point) (x : Q) (i : Z) : Z :=
  match fuel with
  | O => i
  | S fuel' =>
      match getZ pts (i + 1) with
      | Some next =>
          if (i <? Z.of_nat (length pts) - 1) && Qltb (Curves.x next) x
          then findSegment fuel' pts x (i + 1)
          else i
      | None => i
      end
  end.

(** [a || b] on two array elements. *)
Definition orElse {A} (a b : option A) : option A :=
  match a with
  | Some v => Some v
  | None => b
  end.

(** The body of the loop of [buildCurve] for more or fewer than two
    points; [None] when it reads a property of [undefined]. *)
Definition curveAt (pts : list Point) (linear : bool) (x : Z) : option Z :=
  let n := Z.of_nat (length pts) in
  let i := findSegment (length pts) pts (inject_Z x) 0 in
  let p1 := orElse (getZ pts (Z.max 0 (i - 1))) (getZ pts 0) in
  let p2 := getZ pts i in
  let p3 := orElse (getZ pts (Z.min (n - 1) (i + 1))) (getZ pts (n - 1)) in
  let p4 := orElse (getZ pts (Z.min (n - 1) (i + 2))) (getZ pts (n - 1)) in
  match p1, p2, p3, p4 with
  | Some p1, Some p2, Some p3, Some p4 =>
      let x0 := Curves.x p2 in
      let x1 := Curves.x p3 in
      let y :=
        if Qeq_bool x1 x0 then Curves.y p2
        else
          let t := clamp01 ((inject_Z x - x0) / (x1 - x0)) in
          if linear then (Curves.y p2 + (Curves.y p3 - Curves.y p2) * t)%Q
          else cubicInterp (Curves.y p1) (Curves.y p2) (Curves.y p3)
                 (Curves.y p4) t in
      Some (lutValue y)
  | _, _, _, _ => None
  end.

(** The body of the loop of [buildCurve] for two points. *)
Definition lineAt (p0 p1 : Point) (x : Z) : Z :=
  let x0 := Curves.x p0 in
  let y0 := Curves.y p0 in
  let x1 := Curves.x p1 in
  let y1 := Curves.y p1 in
  let y :=
    if Qeq_bool x1 x0 then y0
    else
      let t := clamp01 ((inject_Z x - x0) / (x1 - x0)) in
      (y0 + (y1 - y0) * t)%Q in
  lutValue y.

(** [buildCurve]; [linear] tells whether [mode] is ["linear"]; [None] when
    it throws. *)
Definition buildCurve (points : list Point) (linear : bool)
    : option (list Z) :=
  let pts :=
    map (fun p => mkPoint (inject_Z (Math_round (x p)))
                    (inject_Z (Math_round (y p))))
      (sortPoints points) in
  match pts with
  | [p0; p1] => Some (map (lineAt p0 p1) (seqZ 0 256))
  | _ => allDefined (map (curveAt pts linear) (seqZ 0 256))
  end.

End Curves.

(** ** The palette of the main module *)

Module App.

(** [getActivePaletteHex]; [type] is the value of the palette selector and
    [customPalette] the module variable. *)
Definition getActivePaletteHex (type : string) (customPalette : list string)
    : list string :=
  if String.eqb type "free" then Colors.FREE_PALETTE_COLORS
  else if String.eqb type "full" then Colors.FULL_PALETTE_COLORS
  else if String.eqb type "custom" then
    if (0 <? length customPalette)%nat then customPalette
    else ["#000000"; "#ffffff"]%string
  else Colors.FREE_PALETTE_COLORS.

End App.
Section Runtime.

Variable Math_pow : Q -> Q -> Q.
Variable Math_cbrt : Q -> Q.
(** The [n]-th sample of the process-wide random source. *)
Variable randomSource : nat -> Q.

Definition Math_random : M Q :=
  fun w => Ok (randomSource (randomDraws w),
               mkWorld (labCache w) (S (randomDraws w)) (progressCalls w)).

(** ** utils.js: colour spaces *)

Definition srgbToLinear (c : Q) : Q :=
  let cs := fdiv c 255 in
  if Qle_bool cs (lit 0.04045) then fdiv cs (lit 12.92)
  else Math_pow (fdiv (fadd cs (lit 0.055)) (lit 1.055)) (lit 2.4).

Definition rgbToXyz (r g b : Q) : Q * Q * Q :=
  let R := srgbToLinear r in
  let G := srgbToLinear g in
  let B := srgbToLinear b in
  let x := fadd (fadd (fmul R (lit 0.4124564)) (fmul G (lit 0.3575761)))
             (fmul B (lit 0.1804375)) in
  let y := fadd (fadd (fmul R (lit 0.2126729)) (fmul G (lit 0.7151522)))
             (fmul B (lit 0.072175)) in
  let z := fadd (fadd (fmul R (lit 0.0193339)) (fmul G (lit 0.119192)))
             (fmul B (lit 0.9503041)) in
  (x, y, z).

Definition xyzToLab (x y z : Q) : Lab :=
  let Xn := lit 0.95047 in
  let Yn := lit 1.0 in
  let Zn := lit 1.08883 in
  let xr := fdiv x Xn in
  let yr := fdiv y Yn in
  let zr := fdiv z Zn in
  let eps := fdiv 216 24389 in
  let k := fdiv 24389 27 in
  let fx :=
    if Qltb eps xr then Math_cbrt xr else fdiv (fadd (fmul k xr) 16) 116 in
  let fy :=
    if Qltb eps yr then Math_cbrt yr else fdiv (fadd (fmul k yr) 16) 116 in
  let fz :=
    if Qltb eps zr then Math_cbrt zr else fdiv (fadd (fmul k zr) 16) 116 in
  let L := fsub (fmul 116 fy) 16 in
  let a := fmul 500 (fsub fx fy) in
  let b := fmul 200 (fsub fy fz) in
  (L, a, b).

Definition rgbToLab (rgb : Pixel) : Lab :=
  let '(r, g, b) := rgb in
  let '(x, y, z) := rgbToXyz r g b in
  xyzToLab x y z.

Definition deltaE76 (lab1 lab2 : Lab) : Q :=
  let dL := fsub (chR lab1) (chR lab2) in
  let da := fsub (chG lab1) (chG lab2) in
  let db := fsub (chB lab1) (chB lab2) in
  fadd (fadd (fmul dL dL) (fmul da da)) (fmul db db).

(** ** utils.js: findClosestColorInPalette

    The search is written once over a type [C] of colour arrays read through
    [read]: [C] is [Pixel] when arrays are values, and a location of the
    store when identity matters. *)

Section Closest.

Context {C : Type} (read : C -> Pixel).

(** The distance [d] of the ["rgb"] loop body. *)
Definition rgbDistance (pixel : Pixel) (color : C) : Q :=
  let pr := chR pixel in
  let pg := chG pixel in
  let pb := chB pixel in
  let dr := fsub (chR (read color)) pr in
  let dg := fsub (chG (read color)) pg in
  let db := fsub (chB (read color)) pb in
  fadd (fadd (fmul dr dr) (fmul dg dg)) (fmul db db).

(** The distance [d] of the ["compuphase"] loop body, an integer. *)
Definition compuphaseDistance (pixel : Pixel) (color : C) : Z :=
  let pr := bitor0 (chR pixel) in
  let pg := bitor0 (chG pixel) in
  let pb := bitor0 (chB pixel) in
  let r := bitor0 (chR (read color)) in
  let g := bitor0 (chG (read color)) in
  let b := bitor0 (chB (read color)) in
  let rmean := sar (r + pr) 1 in
  let rdiff := r - pr in
  let gdiff := g - pg in
  let bdiff := b - pb in
  let x := sar ((512 + rmean) * rdiff * rdiff) 8 in
  let y := 4 * gdiff * gdiff in
  let z := sar ((767 - rmean) * bdiff * bdiff) 8 in
  x + y + z.

(** [for (const color of palette) { d = ...; if (d < minDistance) {...} }]
    with the loop variables [minDistance] and [closestColor]. *)
Fixpoint scanPalette (d : C -> Q) (palette : list C)
    (minDistance : option Q) (closestColor : C) : C :=
  match palette with
  | [] => closestColor
  | color :: rest =>
      if ltInf (d color) minDistance
      then scanPalette d rest (Some (d color)) color
      else scanPalette d rest minDistance closestColor
  end.

(** [for (let i = 0; i < labs.length; i++) {...}] with the loop variables
    [minD] and [bestIdx]; [labs] is the part of the table from [i] on. *)
Fixpoint scanLabs (plab : Lab) (labs : list Lab) (i : nat)
    (minD : option Q) (bestIdx : nat) : nat :=
  match labs with
  | [] => bestIdx
  | l :: rest =>
      if ltInf (deltaE76 plab l) minD
      then scanLabs plab rest (S i) (Some (deltaE76 plab l)) i
      else scanLabs plab rest (S i) minD bestIdx
  end.

(** [_paletteLabCache.get(palette)], filled on a miss. *)
Definition paletteLabs (palette : list C) : M (list Lab) :=
  fun w =>
    match labCache w with
    | Some labs => Ok (labs, w)
    | None =>
        let labs := map (fun c => rgbToLab (read c)) palette in
        Ok (labs, mkWorld (Some labs) (randomDraws w) (progressCalls w))
    end.

(** The palette element that [findClosestColorInPalette] spreads into its
    result, for a palette [palette = palette0 :: _]. *)
Definition closestEntry (pixel : Pixel) (palette0 : C) (palette : list C)
    (mode : Mode) : M C :=
  match mode with
  | ModeRgb =>
      ret (scanPalette (rgbDistance pixel) palette None palette0)
  | ModeCompuphase =>
      ret (scanPalette (fun c => inject_Z (compuphaseDistance pixel c))
             palette None palette0)
  | ModeLab =>
      labs <- paletteLabs palette ;;
      let plab := rgbToLab pixel in
      let bestIdx := scanLabs plab labs 0 None 0 in
      defined (palette !! bestIdx)
  end.

End Closest.

(** [findClosestColorInPalette(pixel, palette, mode)] on values: the result
    is the triple of numbers of the chosen entry.  [palette = None] is a
    missing ([null], [undefined]) palette. *)
Definition findClosestColorInPalette (pixel : Pixel)
    (palette : option (list Pixel)) (mode : Mode) : M Pixel :=
  match palette with
  | None | Some [] => ret (0, 0, 0)%Q
  | Some ((palette0 :: _) as pal) =>
      closestColor <- closestEntry id pixel palette0 pal mode ;;
      ret closestColor
  end.





(** ** dithering.js: arrays of rows *)

(** [a[i]], [undefined] outside the array. *)
Definition idx {A} (a : list A) (i : Z) : option A :=
  if i <? 0 then None else a !! Z.to_nat i.

(** [g[y][x]] inside a rectangular array of rows. *)
Definition at2 {A} (g : list (list A)) (y x : Z) : M A :=
  row <- defined (idx g y) ;;
  defined (idx row x).

(** [g[y][x] = v] inside a rectangular array of rows. *)
Definition set2 {A} (g : list (list A)) (y x : Z) (v : A) : M (list (list A)) :=
  row <- defined (idx g y) ;;
  _ <- defined (idx row x) ;;
  ret (<[Z.to_nat y := <[Z.to_nat x := v]> row]> g).

(** [rgbChannels.map((row) => row.map((p) => [...p]))] *)
Definition copyGrid (rgbChannels : Grid) : Grid :=
  map (fun row => map (fun p : Pixel => p) row) rgbChannels.

(** The values of [i] in [for (let i = 0; i < n; i++)]. *)
Definition upto (n : Z) : list Z := map Z.of_nat (seq 0 (Z.to_nat n)).

(** The values of [x] in [for (let x = xStart; x !== xEnd; x += xStep)],
    at most [fuel] of them. *)
Fixpoint countFrom (fuel : nat) (x xEnd xStep : Z) : list Z :=
  match fuel with
  | O => []
  | S fuel' =>
      if x =? xEnd then [] else x :: countFrom fuel' (x + xStep) xEnd xStep
  end.

(** [serpentine ? y % 2 === 0 : true] *)
Definition leftToRight (serpentine : bool) (y : Z) : bool :=
  if serpentine then Z.rem y 2 =? 0 else true.

Definition xStart (ltr : bool) (w : Z) : Z := if ltr then 0 else w - 1.
Definition xEnd (ltr : bool) (w : Z) : Z := if ltr then w else -1.
Definition xStep (ltr : bool) : Z := if ltr then 1 else -1.

(** The columns of a row in scan order. *)
Definition scanColumns (ltr : bool) (w : Z) : list Z :=
  countFrom (Z.to_nat w) (xStart ltr w) (xEnd ltr w) (xStep ltr).

(** [Math.max(1, Math.floor(h / 50))] *)
Definition reportEvery (h : Z) : Z := Z.max 1 (h / 50).

(** [(y + 1) / h] *)
Definition rowFraction (y h : Z) : Q := (inject_Z (y + 1) / inject_Z h)%Q.

(** A kernel entry [{ dx, dy, w }]. *)
Record Tap := mkTap { dx : Z; dy : Z; weight : Q }.

(** The loop [for (const n of neigh) {...}], the same text in
    [applyFloydSteinbergDithering] and in [errorDiffuse]. *)
Definition diffuse (alphaChannel : Mask) (alphaThreshold : Q) (w h x y : Z)
    (err : Q * Q * Q) (neigh : list Tap) (out : Grid) : M Grid :=
  forEach neigh (fun n out =>
    let nx := x + dx n in
    let ny := y + dy n in
    if (nx <? 0) || (nx >=? w) || (ny <? 0) || (ny >=? h) then ret out
    else
      a <- at2 alphaChannel ny nx ;;
      if Qltb a alphaThreshold then ret out
      else
        p <- at2 out ny nx ;;
        set2 out ny nx
          (clamp (chR p + chR err * weight n) 0 255,
           clamp (chG p + chG err * weight n) 0 255,
           clamp (chB p + chB err * weight n) 0 255)) out.

(** *** Floyd-Steinberg *)

Definition fsRight : list Tap :=
  [ mkTap 1 0 (7 / 16); mkTap (-1) 1 (3 / 16);
    mkTap 0 1 (5 / 16); mkTap 1 1 (1 / 16) ].

Definition fsLeft : list Tap :=
  [ mkTap (-1) 0 (7 / 16); mkTap 1 1 (3 / 16);
    mkTap 0 1 (5 / 16); mkTap (-1) 1 (1 / 16) ].

(** The error triple of [applyFloydSteinbergDithering]. *)
Definition fsError (strength : Q) (oldP newP : Pixel) : Q * Q * Q :=
  ((chR oldP - chR newP) * strength,
   (chG oldP - chG newP) * strength,
   (chB oldP - chB newP) * strength)%Q.

(** The body of the column loop of [applyFloydSteinbergDithering]. *)
Definition fsPixel (alphaChannel : Mask) (palette : option (list Pixel))
    (strength alphaThreshold : Q) (w h : Z) (ltr : bool) (y x : Z)
    (out : Grid) : M Grid :=
  a <- at2 alphaChannel y x ;;
  if Qltb a alphaThreshold then ret out
  else
    oldP <- at2 out y x ;;
    newP <- findClosestColorInPalette oldP palette ModeLab ;;
    let err := fsError strength oldP newP in
    out <- set2 out y x newP ;;
    let neigh := if ltr then fsRight else fsLeft in
    diffuse alphaChannel alphaThreshold w h x y err neigh out.

Definition applyFloydSteinbergDithering (rgbChannels : Grid)
    (alphaChannel : Mask) (palette : option (list Pixel))
    (strength alphaThreshold : Q) (progress serpentine : bool) : M Grid :=
  let h := Z.of_nat (length rgbChannels) in
  row0 <- defined (idx rgbChannels 0) ;;
  let w := Z.of_nat (length row0) in
  let out := copyGrid rgbChannels in
  out <- forEach (upto h) (fun y out =>
    let ltr := leftToRight serpentine y in
    out <- forEach (scanColumns ltr w)
             (fsPixel alphaChannel palette strength alphaThreshold w h ltr y)
             out ;;
    report progress (Z.rem y (reportEvery h) =? 0) (rowFraction y h) ;;;
    ret out) out ;;
  report progress true 1 ;;;
  ret out.

(** *** The generic error-diffusion pass *)

(** The error triple of [errorDiffuse]. *)
Definition edError (strength denom : Q) (oldP newP : Pixel) : Q * Q * Q :=
  ((chR oldP - chR newP) * strength / denom,
   (chG oldP - chG newP) * strength / denom,
   (chB oldP - chB newP) * strength / denom)%Q.

(** The body of the column loop of [errorDiffuse]. *)
Definition edPixel (alphaChannel : Mask) (palette : option (list Pixel))
    (neigh : list Tap) (denom strength alphaThreshold : Q) (w h y x : Z)
    (out : Grid) : M Grid :=
  a <- at2 alphaChannel y x ;;
  if Qltb a alphaThreshold then ret out
  else
    oldP <- at2 out y x ;;
    newP <- findClosestColorInPalette oldP palette ModeLab ;;
    let err := edError strength denom oldP newP in
    out <- set2 out y x newP ;;
    diffuse alphaChannel alphaThreshold w h x y err neigh out.

Definition errorDiffuse (rgbChannels : Grid) (alphaChannel : Mask)
    (palette : option (list Pixel)) (weightsRight weightsLeft : list Tap)
    (denom strength alphaThreshold : Q) (progress serpentine : bool)
    : M Grid :=
  let h := Z.of_nat (length rgbChannels) in
  row0 <- defined (idx rgbChannels 0) ;;
  let w := Z.of_nat (length row0) in
  let out := copyGrid rgbChannels in
  out <- forEach (upto h) (fun y out =>
    let ltr := leftToRight serpentine y in
    let neigh := if ltr then weightsRight else weightsLeft in
    out <- forEach (scanColumns ltr w)
             (edPixel alphaChannel palette neigh denom strength
                alphaThreshold w h y)
             out ;;
    report progress (Z.rem y (reportEvery h) =? 0) (rowFraction y h) ;;;
    ret out) out ;;
  report progress true 1 ;;;
  ret out.

(** [right.map((n) => ({ dx: -n.dx, dy: n.dy, w: n.w }))] *)
Definition mirror (right : list Tap) : list Tap :=
  map (fun n => mkTap (- dx n) (dy n) (weight n)) right.

Definition jarvisRight : list Tap :=
  [ mkTap 1 0 7; mkTap 2 0 5;
    mkTap (-2) 1 3; mkTap (-1) 1 5; mkTap 0 1 7; mkTap 1 1 5; mkTap 2 1 3;
    mkTap (-2) 2 1; mkTap (-1) 2 3; mkTap 0 2 5; mkTap 1 2 3; mkTap 2 2 1 ].

Definition stuckiRight : list Tap :=
  [ mkTap 1 0 8; mkTap 2 0 4;
    mkTap (-2) 1 2; mkTap (-1) 1 4; mkTap 0 1 8; mkTap 1 1 4; mkTap 2 1 2;
    mkTap (-2) 2 1; mkTap (-1) 2 2; mkTap 0 2 4; mkTap 1 2 2; mkTap 2 2 1 ].

Definition burkesRight : list Tap :=
  [ mkTap 1 0 8; mkTap 2 0 4;
    mkTap (-2) 1 2; mkTap (-1) 1 4; mkTap 0 1 8; mkTap 1 1 4; mkTap 2 1 2 ].

Definition atkinsonRight : list Tap :=
  [ mkTap 1 0 1; mkTap 2 0 1;
    mkTap (-1) 1 1; mkTap 0 1 1; mkTap 1 1 1;
    mkTap 0 2 1 ].

Definition sierraLiteRight : list Tap :=
  [ mkTap 1 0 2; mkTap (-1) 1 1; mkTap 0 1 1 ].

Definition sierra2Right : list Tap :=
  [ mkTap 1 0 4; mkTap 2 0 3;
    mkTap (-2) 1 1; mkTap (-1) 1 2; mkTap 0 1 3; mkTap 1 1 2; mkTap 2 1 1 ].

Definition sierra3Right : list Tap :=
  [ mkTap 1 0 5; mkTap 2 0 3;
    mkTap (-2) 1 2; mkTap (-1) 1 4; mkTap 0 1 5; mkTap 1 1 4; mkTap 2 1 2;
    mkTap (-1) 2 2; mkTap 0 2 3; mkTap 1 2 2 ].

Definition applyJarvisDithering rgbChannels alphaChannel palette
    strength alphaThreshold progress serpentine : M Grid :=
  let right := jarvisRight in
  let left := mirror right in
  errorDiffuse rgbChannels alphaChannel palette right left 48
    strength alphaThreshold progress serpentine.

Definition applyStuckiDithering rgbChannels alphaChannel palette
    strength alphaThreshold progress serpentine : M Grid :=
  let right := stuckiRight in
  let left := mirror right in
  errorDiffuse rgbChannels alphaChannel palette right left 42
    strength alphaThreshold progress serpentine.

Definition applyBurkesDithering rgbChannels alphaChannel palette
    strength alphaThreshold progress serpentine : M Grid :=
  let right := burkesRight in
  let left := mirror right in
  errorDiffuse rgbChannels alphaChannel palette right left 32
    strength alphaThreshold progress serpentine.

Definition applyAtkinsonDithering rgbChannels alphaChannel palette
    strength alphaThreshold progress serpentine : M Grid :=
  let right := atkinsonRight in
  let left := mirror right in
  errorDiffuse rgbChannels alphaChannel palette right left 8
    strength alphaThreshold progress serpentine.

Definition applySierraLiteDithering rgbChannels alphaChannel palette
    strength alphaThreshold progress serpentine : M Grid :=
  let right := sierraLiteRight in
  let left := mirror right in
  errorDiffuse rgbChannels alphaChannel palette right left 4
    strength alphaThreshold progress serpentine.

Definition applySierra2Dithering rgbChannels alphaChannel palette
    strength alphaThreshold progress serpentine : M Grid :=
  let right := sierra2Right in
  let left := mirror right in
  errorDiffuse rgbChannels alphaChannel palette right left 16
    strength alphaThreshold progress serpentine.

Definition applySierra3Dithering rgbChannels alphaChannel palette
    strength alphaThreshold progress serpentine : M Grid :=
  let right := sierra3Right in
  let left := mirror right in
  errorDiffuse rgbChannels alphaChannel palette right left 32
    strength alphaThreshold progress serpentine.

(** *** Ordered dithering *)

Definition bayerMat : list (list Z) :=
  [ [0; 8; 2; 10];
    [12; 4; 14; 6];
    [3; 11; 1; 9];
    [15; 7; 13; 5] ].

(** [mat.map((r) => r.map((v) => v / 16 - 0.5))] *)
Definition bayerNorm : list (list Q) :=
  map (fun r => map (fun v => (inject_Z v / 16 - 0.5)%Q) r) bayerMat.

(** The body of the column loop of [applyBayerDithering]. *)
Definition bayerPixel (alphaChannel : Mask) (palette : option (list Pixel))
    (intensity alphaThreshold : Q) (y x : Z) (out : Grid) : M Grid :=
  let scale := (intensity / 255)%Q in
  a <- at2 alphaChannel y x ;;
  if Qltb a alphaThreshold then ret out
  else
    n <- at2 bayerNorm (Z.rem y 4) (Z.rem x 4) ;;
    let t := (n * scale * 255)%Q in
    p <- at2 out y x ;;
    let adjusted := (chR p + t, chG p + t, chB p + t)%Q in
    q <- findClosestColorInPalette adjusted palette ModeLab ;;
    set2 out y x q.

Definition applyBayerDithering (rgbChannels : Grid) (alphaChannel : Mask)
    (palette : option (list Pixel)) (intensity alphaThreshold : Q)
    (progress : bool) : M Grid :=
  let h := Z.of_nat (length rgbChannels) in
  row0 <- defined (idx rgbChannels 0) ;;
  let w := Z.of_nat (length row0) in
  let out := copyGrid rgbChannels in
  out <- forEach (upto h) (fun y out =>
    out <- forEach (upto w)
             (bayerPixel alphaChannel palette intensity alphaThreshold y)
             out ;;
    report progress (Z.rem y 25 =? 0) (rowFraction y h) ;;;
    ret out) out ;;
  report progress true 1 ;;;
  ret out.

Definition halftoneMat : list (list Z) :=
  [ [24; 3; 19; 8; 25; 4; 20; 9];
    [12; 43; 52; 35; 11; 44; 53; 36];
    [18; 51; 60; 42; 17; 50; 59; 41];
    [7; 34; 40; 58; 6; 33; 39; 57];
    [26; 5; 21; 10; 27; 2; 22; 1];
    [13; 45; 54; 37; 14; 46; 55; 38];
    [16; 49; 58; 40; 15; 48; 57; 39];
    [1; 32; 38; 56; 0; 31; 37; 55] ].

(** [mat.map((r) => r.map((v) => v / 64 - 0.5))] *)
Definition halftoneNorm : list (list Q) :=
  map (fun r => map (fun v => (inject_Z v / 64 - 0.5)%Q) r) halftoneMat.

(** The body of the column loop of [applyHalftoneDithering]. *)
Definition halftonePixel (alphaChannel : Mask)
    (palette : option (list Pixel)) (intensity alphaThreshold : Q)
    (y x : Z) (out : Grid) : M Grid :=
  let scale := (intensity / 255)%Q in
  a <- at2 alphaChannel y x ;;
  if Qltb a alphaThreshold then ret out
  else
    n <- at2 halftoneNorm (Z.rem y 8) (Z.rem x 8) ;;
    let t := (n * scale * 255)%Q in
    p <- at2 out y x ;;
    let adjusted := (chR p + t, chG p + t, chB p + t)%Q in
    q <- findClosestColorInPalette adjusted palette ModeLab ;;
    set2 out y x q.

Definition applyHalftoneDithering (rgbChannels : Grid) (alphaChannel : Mask)
    (palette : option (list Pixel)) (intensity alphaThreshold : Q)
    (progress : bool) : M Grid :=
  let h := Z.of_nat (length rgbChannels) in
  row0 <- defined (idx rgbChannels 0) ;;
  let w := Z.of_nat (length row0) in
  let out := copyGrid rgbChannels in
  out <- forEach (upto h) (fun y out =>
    out <- forEach (upto w)
             (halftonePixel alphaChannel palette intensity alphaThreshold y)
             out ;;
    report progress (Z.rem y 25 =? 0) (rowFraction y h) ;;;
    ret out) out ;;
  report progress true 1 ;;;
  ret out.

(** *** Random noise dithering *)

(** [noise()], that is [(Math.random() * 2 - 1) * range]. *)
Definition noise (range : Q) : M Q :=
  r <- Math_random ;;
  ret ((r * 2 - 1) * range)%Q.

(** The body of the column loop of [applyRandomDithering]. *)
Definition randomPixel (alphaChannel : Mask) (palette : option (list Pixel))
    (intensity alphaThreshold : Q) (y x : Z) (out : Grid) : M Grid :=
  let range := intensity in
  a <- at2 alphaChannel y x ;;
  if Qltb a alphaThreshold then ret out
  else
    p <- at2 out y x ;;
    n0 <- noise range ;;
    n1 <- noise range ;;
    n2 <- noise range ;;
    let perturbed := (chR p + n0, chG p + n1, chB p + n2)%Q in
    q <- findClosestColorInPalette perturbed palette ModeLab ;;
    set2 out y x q.

Definition applyRandomDithering (rgbChannels : Grid) (alphaChannel : Mask)
    (palette : option (list Pixel)) (intensity alphaThreshold : Q)
    (progress : bool) : M Grid :=
  let h := Z.of_nat (length rgbChannels) in
  row0 <- defined (idx rgbChannels 0) ;;
  let w := Z.of_nat (length row0) in
  let out := copyGrid rgbChannels in
  out <- forEach (upto h) (fun y out =>
    forEach (upto w)
      (randomPixel alphaChannel palette intensity alphaThreshold y) out)
    out ;;
  report progress true 1 ;;;
  ret out.

(** *** Quantization without dithering *)

(** The body of the column loop of [applyNoDithering]. *)
Definition noDitherPixel (alphaChannel : Mask)
    (palette : option (list Pixel)) (alphaThreshold : Q) (y x : Z)
    (out : Grid) : M Grid :=
  a <- at2 alphaChannel y x ;;
  if Qltb a alphaThreshold then ret out
  else
    p <- at2 out y x ;;
    q <- findClosestColorInPalette p palette ModeLab ;;
    set2 out y x q.

Definition applyNoDithering (rgbChannels : Grid) (alphaChannel : Mask)
    (palette : option (list Pixel)) (alphaThreshold : Q) (progress : bool)
    : M Grid :=
  let h := Z.of_nat (length rgbChannels) in
  row0 <- defined (idx rgbChannels 0) ;;
  let w := Z.of_nat (length row0) in
  let out := copyGrid rgbChannels in
  out <- forEach (upto h) (fun y out =>
    out <- forEach (upto w)
             (noDitherPixel alphaChannel palette alphaThreshold y) out ;;
    report progress (Z.rem y (reportEvery h) =? 0) (rowFraction y h) ;;;
    ret out) out ;;
  report progress true 1 ;;;
  ret out.

(** ** The twelve methods

    The [switch] of [process()] over the exported passes; the numeric
    arguments come from a configuration record. *)

Inductive Method :=
| FloydSteinberg | Jarvis | Stucki | Burkes | Atkinson
| SierraLite | Sierra2 | Sierra3
| Bayer | Halftone | Random | NoDither.

Record DitherConfig := mkConfig {
  method : Method;
  strength : Q;
  alphaThreshold : Q;
  serpentine : bool;
  intensity : Q;
  progress : bool   (* whether a progress callback is passed *)
}.

Definition dither (cfg : DitherConfig) (rgbChannels : Grid)
    (alphaChannel : Mask) (palette : option (list Pixel)) : M Grid :=
  match method cfg with
  | FloydSteinberg =>
      applyFloydSteinbergDithering rgbChannels alphaChannel palette
        (strength cfg) (alphaThreshold cfg) (progress cfg) (serpentine cfg)
  | Jarvis =>
      applyJarvisDithering rgbChannels alphaChannel palette
        (strength cfg) (alphaThreshold cfg) (progress cfg) (serpentine cfg)
  | Stucki =>
      applyStuckiDithering rgbChannels alphaChannel palette
        (strength cfg) (alphaThreshold cfg) (progress cfg) (serpentine cfg)
  | Burkes =>
      applyBurkesDithering rgbChannels alphaChannel palette
        (strength cfg) (alphaThreshold cfg) (progress cfg) (serpentine cfg)
  | Atkinson =>
      applyAtkinsonDithering rgbChannels alphaChannel palette
        (strength cfg) (alphaThreshold cfg) (progress cfg) (serpentine cfg)
  | SierraLite =>
      applySierraLiteDithering rgbChannels alphaChannel palette
        (strength cfg) (alphaThreshold cfg) (progress cfg) (serpentine cfg)
  | Sierra2 =>
      applySierra2Dithering rgbChannels alphaChannel palette
        (strength cfg) (alphaThreshold cfg) (progress cfg) (serpentine cfg)
  | Sierra3 =>
      applySierra3Dithering rgbChannels alphaChannel palette
        (strength cfg) (alphaThreshold cfg) (progress cfg) (serpentine cfg)
  | Bayer =>
      applyBayerDithering rgbChannels alphaChannel palette
        (intensity cfg) (alphaThreshold cfg) (progress cfg)
  | Halftone =>
      applyHalftoneDithering rgbChannels alphaChannel palette
        (intensity cfg) (alphaThreshold cfg) (progress cfg)
  | Random =>
      applyRandomDithering rgbChannels alphaChannel palette
        (intensity cfg) (alphaThreshold cfg) (progress cfg)
  | NoDither =>
      applyNoDithering rgbChannels alphaChannel palette
        (alphaThreshold cfg) (progress cfg)
  end.


(** * Specification vocabulary *)

(** A channel value of an 8-bit image. *)
Definition channelOk (c : Q) : Prop := (0 <= c)%Q /\ (c <= 255)%Q.

Definition pixelOk (p : Pixel) : Prop :=
  channelOk (chR p) /\ channelOk (chG p) /\ channelOk (chB p).

(** [g[y][x]] as a value, [None] for [undefined]. *)
Definition px {A} (g : list (list A)) (y x : Z) : option A :=
  match idx g y with
  | Some row => idx row x
  | None => None
  end.

(** [g] has [h] rows of [w] elements. *)
Definition shape {A} (g : list (list A)) (h w : Z) : Prop :=
  Z.of_nat (length g) = h /\
  Forall (fun row => Z.of_nat (length row) = w) g.

(** A total-correctness triple with an exceptional postcondition: from a
    world satisfying [P] the computation [c] either returns a value and a
    world satisfying [Q], or throws and [E] holds. *)
Definition triple {A} (E : Prop) (P : World -> Prop) (c : M A)
    (Q : A -> World -> Prop) : Prop :=
  forall w, P w ->
    match c w with
    | Ok (a, w') => Q a w'
    | Throw _ => E
    end.

(** The Lab table that a search over [pal] uses when the cache entry of the
    palette is [cache]. *)
Definition labsInEffect (pal : list Pixel) (cache : option (list Lab))
    : list Lab :=
  match cache with
  | Some labs => labs
  | None => map rgbToLab pal
  end.

Definition paletteList (palette : option (list Pixel)) : list Pixel :=
  match palette with
  | Some pal => pal
  | None => []
  end.


(** The table in effect is not longer than the palette (an empty palette
    is never searched). *)
Definition cacheFits (pal : list Pixel) (cache : option (list Lab)) : Prop :=
  pal = [] \/ (length (labsInEffect pal cache) <= length pal)%nat.

(** The value that the Lab search returns for [pixel] with the table [labs];
    [None] when it reads past the end of the palette. *)
Definition chosen (labs : list Lab) (palette : option (list Pixel))
    (pixel : Pixel) : option Pixel :=
  match palette with
  | None | Some [] => Some (0, 0, 0)%Q
  | Some pal => pal !! scanLabs (rgbToLab pixel) labs 0 None 0
  end.

(** The part of the world that a pass leaves alone or extends. *)
Definition worldIs (palette : option (list Pixel)) (labs : list Lab)
    (log : list Q) (w : World) : Prop :=
  labsInEffect (paletteList palette) (labCache w) = labs /\
  progressCalls w = log.

(** [x'] is visited before [x] in a row scanned in direction [ltr]. *)
Definition before (ltr : bool) (x' x : Z) : Prop :=
  if ltr then x' < x else x < x'.

(** The pixel at [(y, x)] passes the alpha test. *)
Definition passes (alphaChannel : Mask) (alphaThreshold : Q) (y x : Z)
    : bool :=
  match px alphaChannel y x with
  | Some a => negb (Qltb a alphaThreshold)
  | None => false
  end.

(** The value written on a diffusion target holding [p]. *)
Definition addError (err : Q * Q * Q) (wt : Q) (p : Pixel) : Pixel :=
  (clamp (chR p + chR err * wt) 0 255,
   clamp (chG p + chG err * wt) 0 255,
   clamp (chB p + chB err * wt) 0 255).

(** The kernel entry [n] applied at [(y, x)] lands on [(y', x')] and that
    pixel passes the alpha test. *)
Definition hits (alphaChannel : Mask) (alphaThreshold : Q) (y x : Z)
    (n : Tap) (y' x' : Z) : bool :=
  (y + dy n =? y') && (x + dx n =? x') &&
  passes alphaChannel alphaThreshold y' x'.

(** What the kernel applied at [(y, x)] makes of the pixel [p] at
    [(y', x')]. *)
Definition spread (alphaChannel : Mask) (alphaThreshold : Q) (y x : Z)
    (err : Q * Q * Q) (neigh : list Tap) (y' x' : Z) (p : Pixel) : Pixel :=
  fold_left
    (fun p n =>
       if hits alphaChannel alphaThreshold y x n y' x'
       then addError err (weight n) p else p)
    neigh p.

(** The common form of the bodies [fsPixel] and [edPixel]. *)
Definition diffusingPixel (mkErr : Pixel -> Pixel -> Q * Q * Q)
    (neigh : list Tap) (alphaChannel : Mask)
    (palette : option (list Pixel)) (alphaThreshold : Q) (w h y x : Z)
    (out : Grid) : M Grid :=
  a <- at2 alphaChannel y x ;;
  if Qltb a alphaThreshold then ret out
  else
    oldP <- at2 out y x ;;
    newP <- findClosestColorInPalette oldP palette ModeLab ;;
    let err := mkErr oldP newP in
    out <- set2 out y x newP ;;
    diffuse alphaChannel alphaThreshold w h x y err neigh out.

(** The common form of the bodies of the passes without diffusion: the
    pixel is replaced by the palette colour closest to [adjust p]. *)
Definition pointPixel (adjust : Pixel -> M Pixel) (alphaChannel : Mask)
    (palette : option (list Pixel)) (alphaThreshold : Q) (y x : Z)
    (out : Grid) : M Grid :=
  a <- at2 alphaChannel y x ;;
  if Qltb a alphaThreshold then ret out
  else
    p <- at2 out y x ;;
    adjusted <- adjust p ;;
    q <- findClosestColorInPalette adjusted palette ModeLab ;;
    set2 out y x q.

(** The common form of the twelve passes. *)
Definition scanPass (cols : Z -> Z -> list Z)
    (body : Z -> Z -> Z -> Z -> Grid -> M Grid)
    (rowEnd : Z -> Z -> M unit) (fin : M unit) (rgbChannels : Grid)
    : M Grid :=
  let h := Z.of_nat (length rgbChannels) in
  row0 <- defined (idx rgbChannels 0) ;;
  let w := Z.of_nat (length row0) in
  let out := copyGrid rgbChannels in
  out <- forEach (upto h) (fun y out =>
    out <- forEach (cols y w) (body w h y) out ;;
    rowEnd h y ;;;
    ret out) out ;;
  fin ;;;
  ret out.

(** [(y', x')] is visited after [(y, x)]; [ltr y] is the direction of row
    [y]. *)
Definition ahead (ltr : Z -> bool) (y x y' x' : Z) : Prop :=
  y < y' \/ (y' = y /\ before (ltr y) x x').

(** Every entry of the kernel points to a pixel that is visited later. *)
Definition causal (ltr : bool) (neigh : list Tap) : Prop :=
  Forall (fun n => 0 < dy n \/ (dy n = 0 /\ before ltr 0 (dx n))) neigh.

(** What the body of a column loop does at [(y, x)]: a pixel that passes
    the alpha test is replaced by [new] with [R y x old new], a pixel that
    fails it is kept; any other pixel is kept, unless it is visited later,
    passes the alpha test and receives a value satisfying [G]. *)
Definition bodySpec (E : Prop) (palette : option (list Pixel))
    (labs : list Lab) (alphaChannel : Mask) (alphaThreshold : Q) (h w : Z)
    (ltr : Z -> bool) (R : Z -> Z -> Pixel -> Pixel -> Prop)
    (G : Pixel -> Prop) (body : Z -> Z -> Grid -> M Grid) : Prop :=
  forall y x out log, 0 <= y < h -> 0 <= x < w -> shape out h w ->
    triple E (worldIs palette labs log) (body y x out)
      (fun out' wd =>
         worldIs palette labs log wd /\ shape out' h w /\
         (if passes alphaChannel alphaThreshold y x
          then exists old new,
                 px out y x = Some old /\ px out' y x = Some new /\
                 R y x old new
          else px out' y x = px out y x) /\
         forall y' x', (y', x') <> (y, x) ->
           px out' y' x' = px out y' x' \/
           (ahead ltr y x y' x' /\
            passes alphaChannel alphaThreshold y' x' = true /\
            exists p, px out' y' x' = Some p /\ G p)).

(** The state of the output grid when the pixels in [visited] have been
    processed. *)
Definition passInv (rgbChannels : Grid) (alphaChannel : Mask)
    (alphaThreshold : Q) (h w : Z) (R : Z -> Z -> Pixel -> Pixel -> Prop)
    (G : Pixel -> Prop) (visited : Z -> Z -> Prop) (out : Grid) : Prop :=
  shape out h w /\
  forall y x, 0 <= y < h -> 0 <= x < w ->
    (passes alphaChannel alphaThreshold y x = false ->
       px out y x = px rgbChannels y x) /\
    (passes alphaChannel alphaThreshold y x = true -> visited y x ->
       exists old new,
         px out y x = Some new /\ R y x old new /\
         (px rgbChannels y x = Some old \/ G old)) /\
    (passes alphaChannel alphaThreshold y x = true -> ~ visited y x ->
       px out y x = px rgbChannels y x \/
       exists p, px out y x = Some p /\ G p).

(** The only way a pass throws on a well-shaped grid: the palette is not
    empty and the Lab table in effect is longer than it (a cache entry that
    predates a change of the palette). *)
Definition tableTooLong (palette : option (list Pixel)) (labs : list Lab)
    : Prop :=
  paletteList palette <> [] /\
  ~ (length labs <= length (paletteList palette))%nat.

(** The offset [t] of the ordered passes at [(y, x)], for a threshold
    matrix [norm] of period [period]. *)
Definition orderedOffset (norm : list (list Q)) (period : Z) (intensity : Q)
    (y x : Z) : option Q :=
  option_map (fun n => (n * (intensity / 255) * 255)%Q)
    (px norm (Z.rem y period) (Z.rem x period)).

(** [adjusted] for [applyBayerDithering] and [applyHalftoneDithering]. *)
Definition orderedAdjust (norm : list (list Q)) (period : Z) (intensity : Q)
    (y x : Z) (p : Pixel) : M Pixel :=
  n <- at2 norm (Z.rem y period) (Z.rem x period) ;;
  let t := (n * (intensity / 255) * 255)%Q in
  ret (chR p + t, chG p + t, chB p + t)%Q.

(** [perturbed] for [applyRandomDithering]. *)
Definition randomAdjust (range : Q) (p : Pixel) : M Pixel :=
  n0 <- noise range ;;
  n1 <- noise range ;;
  n2 <- noise range ;;
  ret (chR p + n0, chG p + n1, chB p + n2)%Q.

(** The methods that diffuse the quantization error. *)
Definition diffuses (m : Method) : bool :=
  match m with
  | Bayer | Halftone | Random | NoDither => false
  | _ => true
  end.

(** The colour handed to the palette search for a pixel holding [old] when
    it is visited. *)
Definition searched (cfg : DitherConfig) (y x : Z) (old q : Pixel) : Prop :=
  match method cfg with
  | Bayer =>
      exists t, orderedOffset bayerNorm 4 (intensity cfg) y x = Some t /\
                q = (chR old + t, chG old + t, chB old + t)%Q
  | Halftone =>
      exists t, orderedOffset halftoneNorm 8 (intensity cfg) y x = Some t /\
                q = (chR old + t, chG old + t, chB old + t)%Q
  | Random =>
      exists d : nat,
        let n k := ((randomSource k * 2 - 1) * intensity cfg)%Q in
        q = (chR old + n d, chG old + n (S d), chB old + n (S (S d)))%Q
  | _ => q = old
  end.

(** The values handed to the progress callback after row [y]. *)
Definition rowReports (cfg : DitherConfig) (h y : Z) : list Q :=
  match method cfg with
  | Random => []
  | Bayer | Halftone =>
      if progress cfg && (Z.rem y 25 =? 0) then [rowFraction y h] else []
  | _ =>
      if progress cfg && (Z.rem y (reportEvery h) =? 0)
      then [rowFraction y h] else []
  end.

(** All the values handed to the progress callback by a pass over [h]
    rows. *)
Definition reports (cfg : DitherConfig) (h : Z) : list Q :=
  flat_map (rowReports cfg h) (upto h) ++ (if progress cfg then [1%Q] else []).

(** The outcome of a pass: the world, and the output grid pixel by pixel. *)
Definition passPost (cfg : DitherConfig) (palette : option (list Pixel))
    (labs : list Lab) (rgbChannels : Grid) (alphaChannel : Mask) (h w : Z)
    (log0 : list Q) (out : Grid) (wd : World) : Prop :=
  worldIs palette labs (log0 ++ reports cfg h) wd /\
  shape out h w /\
  forall y x, 0 <= y < h -> 0 <= x < w ->
    if passes alphaChannel (alphaThreshold cfg) y x
    then exists old q new,
           px out y x = Some new /\
           searched cfg y x old q /\
           chosen labs palette q = Some new /\
           (px rgbChannels y x = Some old \/
            (diffuses (method cfg) = true /\ pixelOk old))
    else px out y x = px rgbChannels y x.

(** The outcome of a pass that diffuses the error. *)
Definition diffusionPost (palette : option (list Pixel)) (labs : list Lab)
    (rgbChannels : Grid) (alphaChannel : Mask) (alphaThreshold : Q)
    (h w : Z) (log : list Q) (out : Grid) (wd : World) : Prop :=
  worldIs palette labs log wd /\
  shape out h w /\
  forall y x, 0 <= y < h -> 0 <= x < w ->
    if passes alphaChannel alphaThreshold y x
    then exists old new,
           px out y x = Some new /\
           chosen labs palette old = Some new /\
           (px rgbChannels y x = Some old \/ pixelOk old)
    else px out y x = px rgbChannels y x.

(** The outcome of a pass that treats each pixel on its own. *)
Definition pointPost (Adj : Z -> Z -> Pixel -> Pixel -> Prop)
    (palette : option (list Pixel)) (labs : list Lab)
    (rgbChannels : Grid) (alphaChannel : Mask) (alphaThreshold : Q)
    (h w : Z) (log : list Q) (out : Grid) (wd : World) : Prop :=
  worldIs palette labs log wd /\
  shape out h w /\
  forall y x, 0 <= y < h -> 0 <= x < w ->
    if passes alphaChannel alphaThreshold y x
    then exists old q new,
           px out y x = Some new /\
           Adj y x old q /\
           chosen labs palette q = Some new /\
           px rgbChannels y x = Some old
    else px out y x = px rgbChannels y x.









(** ** Sample data

    A stand-in runtime (the theorems hold for any [Math.pow], [Math.cbrt]
    and random source) and a small image, on which the model is run. *)

Definition samplePow (x y : Q) : Q := x.
Definition sampleCbrt (x : Q) : Q := x.
Definition sampleRandom (n : nat) : Q := if Nat.even n then 0.25%Q else 0.75%Q.

Definition sampleImage : Grid :=
  [ [ (10, 20, 30); (200, 100, 50) ];
    [ (128, 128, 128); (255, 255, 255) ] ]%Q.

Definition sampleAlpha : Mask := [ [255; 0]; [200; 128] ]%Q.

Definition blackWhite : list Pixel := [ (0, 0, 0); (255, 255, 255) ]%Q.


(** No palette cached, no random sample drawn, no progress reported. *)
Definition freshWorld : World := mkWorld None 0 [].

Definition sampleConfig (m : Method) : DitherConfig :=
  mkConfig m 1 128 true 32 true.


(** The result of a computation that is known to return. *)
Definition returned {A} (r : Result (A * World)) (a : A) : A * World :=
  match r with
  | Ok p => p
  | Throw _ => (a, freshWorld)
  end.

(** ** Definitions used to state the properties of the rest of the
    application *)

(** A byte. *)
Definition isByte (b : Z) : Prop := 0 <= b < 256.

(** The reflected CRC-32 of the ZIP format computed bit by bit: one step
    for each bit of a byte, with the polynomial [0xedb88320]. *)
Definition crcBit (c : Z) : Z :=
  if Z.odd c then Z.lxor (c / 2) 0xedb88320 else c / 2.

Definition crcByte (c byte : Z) : Z := Nat.iter 8 crcBit (Z.lxor c byte).

Definition crcBitwise (u8 : list Z) : Z :=
  Z.lxor (fold_left crcByte u8 0xffffffff) 0xffffffff.

(** The number of bytes that a file takes before the central directory,
    and in it. *)
Definition localSize (f : Zip.File) : Z :=
  30 + Z.of_nat (length (Zip.name f)) + Z.of_nat (length (Zip.data f)).

Definition centralSize (f : Zip.File) : Z :=
  46 + Z.of_nat (length (Zip.name f)).

Definition total (size : Zip.File -> Z) (files : list Zip.File) : Z :=
  fold_right (fun f n => size f + n) 0 files.

(** Decoding of the MS-DOS time and date words of a ZIP header. *)
Definition dosHours (t : Z) : Z := Z.shiftr t 11.
Definition dosMinutes (t : Z) : Z := Z.land (Z.shiftr t 5) 63.
Definition dosSeconds (t : Z) : Z := 2 * Z.land t 31.
Definition dosYear (d : Z) : Z := 1980 + Z.shiftr d 9.
Definition dosMonth (d : Z) : Z := Z.land (Z.shiftr d 5) 15.
Definition dosDay (d : Z) : Z := Z.land d 31.

(** The values that the methods of a [Date] return. *)
Definition dateInRange (dt : Zip.Date) : Prop :=
  0 <= Zip.getMonth dt <= 11 /\ 1 <= Zip.getDate dt <= 31 /\
  0 <= Zip.getHours dt <= 23 /\ 0 <= Zip.getMinutes dt <= 59 /\
  0 <= Zip.getSeconds dt <= 59.

(** What the two loops of [zipFiles] append for a file, and the element of
    [records] of a file stored at [offset]. *)
Definition entryOf (now : Zip.Date) (offset : Z) (f : Zip.File) : Zip.Entry :=
  Zip.mkEntry (Zip.name f) (Zip.crc32 (Zip.data f))
    (ushr (Z.of_nat (length (Zip.data f))) 0)
    (fst (Zip.dateToDos (default now (Zip.date f))))
    (snd (Zip.dateToDos (default now (Zip.date f))))
    offset.

Definition localPart (now : Zip.Date) (f : Zip.File) : list Z :=
  let e := entryOf now 0 f in
  Zip.localHeader (Z.of_nat (length (Zip.name f))) (Zip.crc e) (Zip.size e)
    (Zip.dosTime e) (Zip.dosDate e)
  ++ Zip.name f ++ Zip.data f.

Definition centralPart (r : Zip.Entry) : list Z :=
  Zip.centralHeader r ++ Zip.nameBytes r.

Fixpoint entriesFrom (now : Zip.Date) (offset : Z) (files : list Zip.File)
    : list Zip.Entry :=
  match files with
  | [] => []
  | f :: files' =>
      entryOf now offset f
      :: entriesFrom now
           (offset + (30 + Z.of_nat (length (Zip.name f))
                      + ushr (Z.of_nat (length (Zip.data f))) 0)) files'
  end.

(** The archive holds less than 4 GiB in each file. *)
Definition smallFiles (files : list Zip.File) : Prop :=
  Forall (fun f => Z.of_nat (length (Zip.data f)) < 2 ^ 32) files.

(** The bytes of a 16-bit and of a 32-bit field, low byte first. *)
Definition le16 (v : Z) : list Z :=
  [toUint16 v mod 256; toUint16 v / 256 mod 256].

Definition le32 (v : Z) : list Z :=
  [toUint32 v mod 256; toUint32 v / 256 mod 256;
   toUint32 v / 65536 mod 256; toUint32 v / 16777216 mod 256].

(** An image as the browser makes them: [data] holds four bytes for each
    of the [width * height] pixels, and the sides are positive and fit in
    32 bits. *)
Definition wellFormed (img : ImageData) : Prop :=
  0 < width img < 2 ^ 32 /\ 0 < height img < 2 ^ 32 /\
  Z.of_nat (length (data img)) = 4 * width img * height img /\
  Forall isByte (data img).

(** The byte of channel [c] (0 to 3) of the pixel at [(y, x)], 0 outside
    the image. *)
Definition channel (img : ImageData) (y x c : Z) : Z :=
  default 0 (getZ (data img) ((y * width img + x) * 4 + c)).

(** The pixels that [applySharpen] recomputes, and the value of the
    sharpening kernel at such a pixel, for channel [c]. *)
Definition interior (img : ImageData) (y x : Z) : bool :=
  (1 <=? y) && (y <? height img - 1) && (1 <=? x) && (x <? width img - 1).

Definition sharpened (img : ImageData) (y x c : Z) : Q :=
  (5 * inject_Z (channel img y x c)
   - inject_Z (channel img (y - 1) x c) - inject_Z (channel img (y + 1) x c)
   - inject_Z (channel img y (x - 1) c) - inject_Z (channel img y (x + 1) c))%Q.

(** The colours of the pixels that [countImageColors] counts: those of the
    whole pixels whose alpha is at least the threshold, in order. *)
Fixpoint countedPixels (alphaThreshold : Q) (data : list Z)
    : list (Z * Z * Z) :=
  match data with
  | r :: g :: b :: alpha :: rest =>
      (if Qle_bool alphaThreshold (inject_Z alpha) then [(r, g, b)] else [])
      ++ countedPixels alphaThreshold rest
  | _ => []
  end.

(** How many times a colour occurs in a list. *)
Definition occurrences (key : Z * Z * Z) (l : list (Z * Z * Z)) : Z :=
  Z.of_nat (length (filter (fun k => Processor.keyEq k key) l)).

(** The sum of the counts of a map. *)
Definition totalCount (m : Processor.ColorMap) : Z :=
  fold_right (fun e n => snd e + n) 0 m.

(** The corners [(y, x)] of the tiles of side [s] that cover an image, row
    by row. *)
Definition tileCorners (img : ImageData) (s : Z) : list (Z * Z) :=
  list_prod (map (Z.mul s) (seqZ 0 ((height img + s - 1) / s)))
    (map (Z.mul s) (seqZ 0 ((width img + s - 1) / s))).

(** [seg] is the tile of side [s] of [img] with corner [(y, x)]: a
    well-formed image, cut at the border of [img], that holds the bytes of
    [img] from the corner on. *)
Definition tileOf (img : ImageData) (s : Z) (seg : Preview.Segment)
    (corner : Z * Z) : Prop :=
  let '(y, x) := corner in
  let tile := Preview.imageData seg in
  Preview.segY seg = y /\ Preview.segX seg = x /\
  Preview.filename seg = (y / s, x / s) /\
  wellFormed tile /\
  width tile = Z.min s (width img - x) /\
  height tile = Z.min s (height img - y) /\
  forall sy sx c, 0 <= sy < height tile -> 0 <= sx < width tile ->
    0 <= c < 4 ->
    channel tile sy sx c = channel img (y + sy) (x + sx) c.

(** The two characters written for a byte by
    [toString(16).padStart(2, "0")]. *)
Definition hexByte (n : Z) : string :=
  String (Utils.hexDigit (n / 16)) (String (Utils.hexDigit (n mod 16)) "").

(** A colour as [hexToRgb] returns it: three bytes, none of them [NaN]. *)
Definition isColour (rgb : list (option Z)) : Prop :=
  exists r g b,
    rgb = [Some r; Some g; Some b] /\ isByte r /\ isByte g /\ isByte b.

Definition isColourb (rgb : list (option Z)) : bool :=
  match rgb with
  | [Some r; Some g; Some b] =>
      (0 <=? r) && (r <? 256) && (0 <=? g) && (g <? 256)
      && (0 <=? b) && (b <? 256)
  | _ => false
  end.

(** ** The earlier [js/utils.js]

    The version of [findClosestColorInPalette] without modes: it squares
    with [Math.pow], starts from [palette[0]] and spreads the closest
    colour, which is [undefined] for an empty palette (a [TypeError], as is
    indexing a missing palette). *)
Definition powDistance (pixel color : Pixel) : Q :=
  fadd
    (fadd (Math_pow (fsub (chR color) (chR pixel)) 2%Q)
       (Math_pow (fsub (chG color) (chG pixel)) 2%Q))
    (Math_pow (fsub (chB color) (chB pixel)) 2%Q).

Definition findClosestColorInPalette_v1 (pixel : Pixel)
    (palette : option (list Pixel)) : M Pixel :=
  match palette with
  | None | Some [] => throw TypeError
  | Some ((palette0 :: _) as pal) =>
      ret (scanPalette (powDistance pixel) pal None palette0)
  end.

(** A [Math.pow] whose squares are those of the multiplication. *)
Definition squaresExactly (pow : Q -> Q -> Q) : Prop :=
  forall x, pow x 2%Q = fmul x x.

Definition samplePowSquare (x y : Q) : Q := fmul x x.

(** Control points as the curves editor keeps them: on the grid of
    integers from 0 to 255, with increasing abscissas. *)
Definition onGrid (p : Curves.Point) : Prop :=
  exists xi yi,
    Curves.x p = inject_Z xi /\ Curves.y p = inject_Z yi /\
    isByte xi /\ isByte yi.

Definition increasing (points : list Curves.Point) : Prop :=
  StronglySorted (fun a b => (Curves.x a < Curves.x b)%Q) points.

(** ** Sample data for the rest of the application *)

(** The 29th of February 2024, 13:45:31 (months count from 0). *)
Definition sampleDate : Zip.Date := Zip.mkDate 2024 1 29 13 45 31.

(** The bytes of ["123456789"], the usual check input of a CRC. *)
Definition checkDigits : list Z := [49; 50; 51; 52; 53; 54; 55; 56; 57].

(** Two files: [a] of three bytes without a date, [bc] of one byte. *)
Definition fileA : Zip.File := Zip.mkFile [97] [1; 2; 3] None.
Definition fileBC : Zip.File := Zip.mkFile [98; 99] [255] (Some sampleDate).
Definition sampleFiles : list Zip.File := [fileA; fileBC].

(** An image of three rows of three pixels. *)
Definition samplePicture : ImageData :=
  mkImageData 3 3
    [ 10; 20; 30; 255;     40; 50; 60; 255;     70; 80; 90; 0;
      100; 110; 120; 255;  200; 100; 50; 255;   130; 140; 150; 128;
      10; 20; 30; 255;     160; 170; 180; 255;  190; 200; 210; 255 ].

(** Contrast 1.2 and sharpening; brightness and saturation at 1. *)
Definition sampleAdjust : ImageProcessing.Config :=
  ImageProcessing.mkConfig 1 (12 # 10) 1 true.

(** Three control points of a curve. *)
Definition samplePoints : list Curves.Point :=
  [ Curves.mkPoint 0 0; Curves.mkPoint 128 200; Curves.mkPoint 255 255 ].

(** * Proofs *)

(** ** Numbers *)

Lemma Qltb_lt (a b : Q) : Qltb a b = true <-> (a < b)%Q.
Proof.
  unfold Qltb. rewrite negb_true_iff. split.
  - intros H. apply Qnot_le_lt. intros Hle.
    apply Qle_bool_iff in Hle. congruence.
  - intros H. destruct (Qle_bool b a) eqn:Hb; [|reflexivity].
    apply Qle_bool_iff in Hb. exfalso. exact (Qlt_not_le _ _ H Hb).
Qed.

Lemma Qltb_ge (a b : Q) : Qltb a b = false <-> (b <= a)%Q.
Proof.
  unfold Qltb. rewrite negb_false_iff. apply Qle_bool_iff.
Qed.

Lemma clamp_bounds (v lo hi : Q) :
  (lo <= hi)%Q -> (lo <= clamp v lo hi)%Q /\ (clamp v lo hi <= hi)%Q.
Proof.
  intros Hlh. unfold clamp. split.
  - apply Q.min_glb; [apply Q.le_max_r | exact Hlh].
  - apply Q.le_min_r.
Qed.

Lemma clamp_channelOk (v : Q) : channelOk (clamp v 0 255).
Proof. apply clamp_bounds. discriminate. Qed.

Lemma black_pixelOk : pixelOk (0, 0, 0)%Q.
Proof. repeat split; discriminate. Qed.

(** ** Arrays of rows *)

Lemma idx_Some {A} (a : list A) (i : Z) (v : A) :
  idx a i = Some v -> 0 <= i < Z.of_nat (length a).
Proof.
  unfold idx. destruct (Z.ltb_spec i 0); [discriminate|].
  intros Hl. apply lookup_lt_Some in Hl. lia.
Qed.

Lemma idx_in_range {A} (a : list A) (i : Z) :
  0 <= i < Z.of_nat (length a) -> exists v, idx a i = Some v.
Proof.
  intros Hi. unfold idx. destruct (Z.ltb_spec i 0); [lia|].
  destruct (lookup_lt_is_Some_2 a (Z.to_nat i)) as [v Hv]; [lia|].
  eauto.
Qed.

Lemma shape_row {A} (g : list (list A)) h w y row :
  shape g h w -> idx g y = Some row -> Z.of_nat (length row) = w.
Proof.
  intros [_ Hall] Hrow. unfold idx in Hrow.
  destruct (Z.ltb_spec y 0); [discriminate|].
  rewrite Forall_forall in Hall. apply Hall.
  eapply list_elem_of_lookup_2. exact Hrow.
Qed.

Lemma px_Some {A} (g : list (list A)) h w y x v :
  shape g h w -> px g y x = Some v -> 0 <= y < h /\ 0 <= x < w.
Proof.
  intros Hs Hp. unfold px in Hp.
  destruct (idx g y) as [row|] eqn:Hrow; [|discriminate].
  pose proof (shape_row _ _ _ _ _ Hs Hrow) as Hw.
  apply idx_Some in Hrow. apply idx_Some in Hp.
  destruct Hs as [Hh _]. lia.
Qed.

Lemma px_in_range {A} (g : list (list A)) h w y x :
  shape g h w -> 0 <= y < h -> 0 <= x < w -> exists v, px g y x = Some v.
Proof.
  intros Hs Hy Hx. unfold px.
  destruct (idx_in_range g y) as [row Hrow]; [destruct Hs; lia|].
  rewrite Hrow.
  apply idx_in_range. rewrite (shape_row _ _ _ _ _ Hs Hrow). exact Hx.
Qed.

Lemma at2_px {A} (g : list (list A)) y x w :
  at2 g y x w = defined (px g y x) w.
Proof.
  unfold at2, px, bind, defined.
  destruct (idx g y) as [row|]; reflexivity.
Qed.

Lemma copyGrid_id (g : Grid) : copyGrid g = g.
Proof.
  unfold copyGrid. induction g as [|row g IH]; [reflexivity|].
  cbn [map]. rewrite IH. f_equal.
  induction row as [|p row IHr]; [reflexivity|]. cbn [map]. now rewrite IHr.
Qed.

(** The effect of the assignment [g[y][x] = v] inside the shape. *)
Lemma set2_spec {A} (g : list (list A)) h w y x (v : A) (wd : World) :
  shape g h w -> 0 <= y < h -> 0 <= x < w ->
  exists g',
    set2 g y x v wd = Ok (g', wd) /\
    shape g' h w /\
    px g' y x = Some v /\
    (forall y' x', (y', x') <> (y, x) -> px g' y' x' = px g y' x').
Proof.
  intros Hs Hy Hx.
  destruct (idx_in_range g y) as [row Hrow]; [destruct Hs; lia|].
  pose proof (shape_row _ _ _ _ _ Hs Hrow) as Hw.
  destruct (idx_in_range row x) as [old Hold]; [lia|].
  unfold set2, bind. rewrite Hrow. cbn [defined ret]. rewrite Hold.
  cbn [defined ret].
  eexists. split; [reflexivity|].
  assert (Hrow' : g !! Z.to_nat y = Some row).
  { unfold idx in Hrow. destruct (Z.ltb_spec y 0); [lia|]. exact Hrow. }
  assert (Hylt : (Z.to_nat y < length g)%nat) by (destruct Hs; lia).
  assert (Hxlt : (Z.to_nat x < length row)%nat) by lia.
  split; [|split].
  - destruct Hs as [Hh Hall]. split.
    + rewrite length_insert. exact Hh.
    + rewrite Forall_forall in *. intros r Hr.
      apply list_elem_of_lookup_1 in Hr. destruct Hr as [j Hj].
      destruct (decide (j = Z.to_nat y)) as [->|Hne].
      * rewrite list_lookup_insert_eq in Hj by exact Hylt.
        injection Hj as <-. rewrite length_insert. exact Hw.
      * rewrite list_lookup_insert_ne in Hj by congruence.
        apply Hall. eapply list_elem_of_lookup_2. exact Hj.
  - unfold px, idx. destruct (Z.ltb_spec y 0); [lia|].
    rewrite list_lookup_insert_eq by exact Hylt.
    destruct (Z.ltb_spec x 0); [lia|].
    now rewrite list_lookup_insert_eq by exact Hxlt.
  - intros y' x' Hne. unfold px, idx.
    destruct (Z.ltb_spec y' 0); [reflexivity|].
    destruct (decide (Z.to_nat y' = Z.to_nat y)) as [Heq|Hney].
    + rewrite Heq, list_lookup_insert_eq by exact Hylt.
      rewrite Hrow'.
      destruct (Z.ltb_spec x' 0); [reflexivity|].
      rewrite list_lookup_insert_ne; [reflexivity|].
      intros Hx'. apply Hne. f_equal; lia.
    + now rewrite list_lookup_insert_ne by congruence.
Qed.

(** ** Loops over index ranges *)

Lemma elem_of_upto (n i : Z) : i ∈ upto n <-> 0 <= i < n.
Proof.
  unfold upto. rewrite list_elem_of_fmap. split.
  - intros (k & -> & Hk). apply list_elem_of_In, in_seq in Hk. lia.
  - intros Hi. exists (Z.to_nat i). split; [lia|].
    apply list_elem_of_In, in_seq. lia.
Qed.

Lemma upto_split (n : Z) (done rest : list Z) (i : Z) :
  upto n = done ++ i :: rest -> done = upto i /\ 0 <= i < n.
Proof.
  unfold upto. intros H.
  assert (Hlen : length (done ++ i :: rest) = Z.to_nat n).
  { rewrite <- H, length_map, length_seq. reflexivity. }
  rewrite length_app in Hlen. cbn [length] in Hlen.
  assert (Hi : i = Z.of_nat (length done)).
  { assert (Hl : (map Z.of_nat (seq 0 (Z.to_nat n))) !! length done = Some i).
    { rewrite H. rewrite lookup_app_r by lia.
      now replace (length done - length done)%nat with 0%nat by lia. }
    rewrite list_lookup_fmap in Hl.
    rewrite lookup_seq_lt in Hl by lia. cbn in Hl. congruence. }
  split; [|lia].
  subst i. rewrite Nat2Z.id.
  assert (Htake : take (length done) (map Z.of_nat (seq 0 (Z.to_nat n)))
                  = done).
  { rewrite H. now rewrite take_app_length. }
  transitivity (take (length done) (map Z.of_nat (seq 0 (Z.to_nat n))));
    [symmetry; exact Htake|].
  rewrite <- fmap_take, take_seq. unfold fmap, list_fmap. f_equal. f_equal. lia.
Qed.

Lemma countFrom_up (fuel : nat) (x : Z) :
  countFrom fuel x (x + Z.of_nat fuel) 1 = map (fun k => x + Z.of_nat k) (seq 0 fuel).
Proof.
  revert x. induction fuel as [|fuel IH]; intros x; [reflexivity|].
  cbn [countFrom]. destruct (Z.eqb_spec x (x + Z.of_nat (S fuel))); [lia|].
  replace (x + Z.of_nat (S fuel)) with (x + 1 + Z.of_nat fuel) by lia.
  rewrite IH. cbn [seq map]. f_equal; [f_equal; lia|].
  rewrite <- seq_shift, map_map. apply map_ext. intros k. lia.
Qed.

Lemma countFrom_down (fuel : nat) (x : Z) :
  countFrom fuel x (x - Z.of_nat fuel) (-1) = map (fun k => x - Z.of_nat k) (seq 0 fuel).
Proof.
  revert x. induction fuel as [|fuel IH]; intros x; [reflexivity|].
  cbn [countFrom]. destruct (Z.eqb_spec x (x - Z.of_nat (S fuel))); [lia|].
  replace (x - Z.of_nat (S fuel)) with (x + -1 - Z.of_nat fuel) by lia.
  rewrite IH. cbn [seq map]. f_equal; [f_equal; lia|].
  rewrite <- seq_shift, map_map. apply map_ext. intros k. lia.
Qed.

(** Left to right the columns are [0, 1, ..., w-1]. *)
Lemma scanColumns_ltr (w : Z) : 0 <= w -> scanColumns true w = upto w.
Proof.
  intros Hw. unfold scanColumns, xStart, xEnd, xStep, upto.
  replace w with (0 + Z.of_nat (Z.to_nat w)) at 2 by lia.
  rewrite countFrom_up. apply map_ext. intros k. lia.
Qed.

Lemma rev_upto_nat (n : nat) :
  map (fun k => Z.of_nat n - 1 - Z.of_nat k) (seq 0 n)
  = rev (map Z.of_nat (seq 0 n)).
Proof.
  induction n as [|n IH]; [reflexivity|].
  rewrite seq_S at 2. rewrite map_app, rev_app_distr. cbn [map rev app seq].
  f_equal; [lia|].
  rewrite <- IH, <- seq_shift, map_map. apply map_ext. intros k. lia.
Qed.

(** Right to left the columns are [w-1, ..., 1, 0]. *)
Lemma scanColumns_rtl (w : Z) : 0 <= w -> scanColumns false w = rev (upto w).
Proof.
  intros Hw. unfold scanColumns, xStart, xEnd, xStep, upto.
  replace (-1) with (w - 1 - Z.of_nat (Z.to_nat w)) at 1 by lia.
  rewrite countFrom_down, <- rev_upto_nat.
  apply map_ext. intros k. lia.
Qed.

Lemma upto_lookup (n : Z) (k : nat) (j : Z) :
  upto n !! k = Some j -> j = Z.of_nat k /\ Z.of_nat k < n.
Proof.
  unfold upto. rewrite list_lookup_fmap. intros H.
  destruct (seq 0 (Z.to_nat n) !! k) as [m|] eqn:Hm; [|discriminate].
  apply lookup_seq in Hm. cbn in H. injection H as <-. lia.
Qed.

Lemma upto_split_after (n : Z) (pre post : list Z) (i j : Z) :
  upto n = pre ++ i :: post -> j ∈ post -> i < j < n.
Proof.
  intros H Hj. destruct (upto_split _ _ _ _ H) as [Hpre Hi].
  apply list_elem_of_lookup_1 in Hj. destruct Hj as [k Hk].
  assert (Hl : upto n !! (length pre + S k)%nat = Some j).
  { rewrite H, lookup_app_r by lia.
    replace (length pre + S k - length pre)%nat with (S k) by lia.
    exact Hk. }
  apply upto_lookup in Hl.
  assert (Hlen : Z.of_nat (length pre) = i).
  { rewrite Hpre. unfold upto. rewrite length_map, length_seq. lia. }
  lia.
Qed.

Lemma scanColumns_split (ltr : bool) (w : Z) (done rest : list Z) (x : Z) :
  0 <= w -> scanColumns ltr w = done ++ x :: rest ->
  0 <= x < w /\ forall x', x' ∈ done -> 0 <= x' < w /\ before ltr x' x.
Proof.
  intros Hw H. destruct ltr.
  - rewrite scanColumns_ltr in H by exact Hw.
    destruct (upto_split _ _ _ _ H) as [-> Hx]. split; [exact Hx|].
    intros x' Hx'. apply elem_of_upto in Hx'. cbn. lia.
  - rewrite scanColumns_rtl in H by exact Hw.
    apply (f_equal (@rev Z)) in H.
    rewrite rev_involutive, rev_app_distr in H. cbn [rev] in H.
    rewrite <- app_assoc in H. cbn [app] in H.
    destruct (upto_split _ _ _ _ H) as [_ Hx]. split; [exact Hx|].
    intros x' Hx'.
    assert (Hin : x' ∈ rev done).
    { apply list_elem_of_In, in_rev. rewrite rev_involutive.
      apply list_elem_of_In. exact Hx'. }
    pose proof (upto_split_after _ _ _ _ _ H Hin). cbn. lia.
Qed.

Lemma elem_of_scanColumns (ltr : bool) (w x : Z) :
  0 <= w -> x ∈ scanColumns ltr w <-> 0 <= x < w.
Proof.
  intros Hw. destruct ltr.
  - rewrite scanColumns_ltr by exact Hw. apply elem_of_upto.
  - rewrite scanColumns_rtl by exact Hw.
    rewrite <- elem_of_upto. rewrite !list_elem_of_In. symmetry. apply in_rev.
Qed.

(** ** Rules for triples *)

Lemma triple_ret {A} E (P : World -> Prop) (a : A) (Q : A -> World -> Prop) :
  (forall w, P w -> Q a w) -> triple E P (ret a) Q.
Proof. intros H w Hw. cbn. auto. Qed.

Lemma triple_bind {A B} E (P : World -> Prop) (c : M A) (k : A -> M B)
    (R : A -> World -> Prop) (Q : B -> World -> Prop) :
  triple E P c R ->
  (forall a, triple E (R a) (k a) Q) ->
  triple E P (bind c k) Q.
Proof.
  intros Hc Hk w Hw. unfold bind. specialize (Hc w Hw).
  destruct (c w) as [[a w']|e]; [|exact Hc].
  exact (Hk a w' Hc).
Qed.

Lemma triple_conseq {A} E (P P' : World -> Prop) (c : M A)
    (Q Q' : A -> World -> Prop) :
  triple E P' c Q' ->
  (forall w, P w -> P' w) ->
  (forall a w, Q' a w -> Q a w) ->
  triple E P c Q.
Proof.
  intros Hc HP HQ w Hw. specialize (Hc w (HP w Hw)).
  destruct (c w) as [[a w']|e]; auto.
Qed.

(** A fact that does not depend on the world can be moved out of the
    precondition. *)
Lemma triple_pure {A} E (F : Prop) (P : World -> Prop) (c : M A)
    (Q : A -> World -> Prop) :
  (F -> triple E P c Q) -> triple E (fun w => F /\ P w) c Q.
Proof. intros H w [HF HP]. exact (H HF w HP). Qed.

Lemma triple_defined {A} E (P : World -> Prop) (o : option A) (a : A) :
  o = Some a -> triple E P (defined o) (fun r w => r = a /\ P w).
Proof. intros -> w Hw. cbn. auto. Qed.

(** The loop rule: the invariant is indexed by the elements already
    processed. *)
Lemma triple_forEach {X S} E (I : list X -> S -> World -> Prop)
    (xs : list X) (body : X -> S -> M S) :
  (forall done x rest s, xs = done ++ x :: rest ->
     triple E (I done s) (body x s) (fun s' => I (done ++ [x]) s')) ->
  forall s, triple E (I [] s) (forEach xs body s) (fun s' => I xs s').
Proof.
  intros Hbody.
  enough (Hgen : forall rest done s, xs = done ++ rest ->
            triple E (I done s) (forEach rest body s) (fun s' => I xs s')).
  { intros s. apply (Hgen xs [] s). reflexivity. }
  induction rest as [|x rest IH]; intros done s Hxs.
  - rewrite app_nil_r in Hxs. subst done. cbn [forEach].
    apply triple_ret. auto.
  - cbn [forEach]. eapply triple_bind.
    + apply (Hbody done x rest s Hxs).
    + intros s'. apply IH. rewrite <- app_assoc. exact Hxs.
Qed.

Lemma triple_report E (P : list Q -> World -> Prop) (cb cond : bool) (v : Q)
    (log : list Q) :
  (forall l w, P l w ->
     P (l ++ [v]) (mkWorld (labCache w) (randomDraws w) (progressCalls w ++ [v]))) ->
  triple E (P log) (report cb cond v)
    (fun _ => P (log ++ if cb && cond then [v] else [])).
Proof.
  intros HP w Hw. unfold report. destruct (cb && cond); cbn.
  - apply HP. exact Hw.
  - rewrite app_nil_r. exact Hw.
Qed.

(** ** The Lab search *)

Lemma scanLabs_bound plab labs i minD bestIdx :
  scanLabs plab labs i minD bestIdx = bestIdx \/
  (i <= scanLabs plab labs i minD bestIdx < i + length labs)%nat.
Proof.
  revert i minD bestIdx. induction labs as [|l labs IH]; intros i minD bestIdx.
  - left. reflexivity.
  - cbn [scanLabs length].
    destruct (ltInf (deltaE76 plab l) minD).
    + right. destruct (IH (S i) (Some (deltaE76 plab l)) i) as [->|H]; lia.
    + destruct (IH (S i) minD bestIdx) as [->|H]; [left; reflexivity|].
      right. lia.
Qed.

Lemma chosen_None_stale labs palette pixel :
  chosen labs palette pixel = None -> tableTooLong palette labs.
Proof.
  unfold chosen, tableTooLong.
  destruct palette as [[|c0 pal]|]; try discriminate.
  intros H. apply lookup_ge_None in H. cbn [paletteList].
  split; [discriminate|].
  destruct (scanLabs_bound (rgbToLab pixel) labs 0 None 0) as [H0|H0].
  - rewrite H0 in H. cbn in H. lia.
  - lia.
Qed.

(** What a call in the default mode does: the result is [chosen] for the
    table in effect, the table is now cached, and nothing else changes. *)
Lemma findClosest_lab_run pixel palette w :
  findClosestColorInPalette pixel palette ModeLab w =
  match chosen (labsInEffect (paletteList palette) (labCache w)) palette pixel
  with
  | Some r =>
      Ok (r, match palette with
             | None | Some [] => w
             | Some pal =>
                 mkWorld (Some (labsInEffect pal (labCache w)))
                   (randomDraws w) (progressCalls w)
             end)
  | None => Throw TypeError
  end.
Proof.
  unfold findClosestColorInPalette, chosen.
  destruct palette as [[|c0 pal]|]; try reflexivity.
  cbn [paletteList closestEntry]. unfold bind, paletteLabs, labsInEffect.
  destruct w as [[labs|] d log]; cbn [labCache randomDraws progressCalls].
  - destruct (_ !! _); reflexivity.
  - cbn [id]. 
    replace (map (fun c : Pixel => rgbToLab c) (c0 :: pal))
      with (map rgbToLab (c0 :: pal)) by reflexivity.
    destruct (_ !! _); reflexivity.
Qed.

Lemma triple_findClosest palette labs log pixel :
  triple (tableTooLong palette labs) (worldIs palette labs log)
    (findClosestColorInPalette pixel palette ModeLab)
    (fun r w => chosen labs palette pixel = Some r /\ worldIs palette labs log w).
Proof.
  intros w [HL Hlog]. rewrite findClosest_lab_run, HL.
  destruct (chosen labs palette pixel) as [r|] eqn:Hc.
  - split; [reflexivity|]. unfold worldIs.
    destruct palette as [[|c0 pal]|]; cbn; auto.
  - eapply chosen_None_stale. exact Hc.
Qed.

(** ** Diffusion of the error *)

Lemma option_map_id_ext {A} (f : A -> A) (o : option A) :
  (forall a, f a = a) -> option_map f o = o.
Proof. intros H. destruct o; cbn; [f_equal; apply H | reflexivity]. Qed.

Lemma passes_in_grid alphaChannel alphaThreshold h w y x :
  shape alphaChannel h w -> passes alphaChannel alphaThreshold y x = true ->
  0 <= y < h /\ 0 <= x < w.
Proof.
  intros Hs. unfold passes.
  destruct (px alphaChannel y x) as [a|] eqn:Ha; [|discriminate].
  intros _. eapply px_Some; eauto.
Qed.

Lemma addError_ok err wt p : pixelOk (addError err wt p).
Proof. repeat split; apply clamp_channelOk. Qed.

(** The loop over the kernel, seen from each pixel of the grid. *)
Lemma diffuse_run alphaChannel alphaThreshold w h x y err neigh :
  shape alphaChannel h w ->
  forall out wd, shape out h w ->
  exists out',
    diffuse alphaChannel alphaThreshold w h x y err neigh out wd
      = Ok (out', wd) /\
    shape out' h w /\
    forall y' x',
      px out' y' x'
      = option_map (spread alphaChannel alphaThreshold y x err neigh y' x')
          (px out y' x').
Proof.
  intros Ha. unfold diffuse, spread.
  induction neigh as [|n neigh IH]; intros out wd Hout.
  - exists out. cbn. split; [reflexivity|]. split; [exact Hout|].
    intros y' x'. now destruct (px out y' x').
  - cbn [forEach fold_left].
    assert (Hstep : exists out1,
      (let nx := x + dx n in
       let ny := y + dy n in
       if (nx <? 0) || (nx >=? w) || (ny <? 0) || (ny >=? h) then ret out
       else
         a <- at2 alphaChannel ny nx ;;
         if Qltb a alphaThreshold then ret out
         else
           p <- at2 out ny nx ;;
           set2 out ny nx
             (clamp (chR p + chR err * weight n) 0 255,
              clamp (chG p + chG err * weight n) 0 255,
              clamp (chB p + chB err * weight n) 0 255)) wd = Ok (out1, wd) /\
      shape out1 h w /\
      forall y' x',
        px out1 y' x' =
        option_map
          (fun p => if hits alphaChannel alphaThreshold y x n y' x'
                    then addError err (weight n) p else p)
          (px out y' x')).
    { cbn zeta.
      destruct ((x + dx n <? 0) || (x + dx n >=? w) || (y + dy n <? 0)
                || (y + dy n >=? h)) eqn:Hb.
      - exists out. split; [reflexivity|]. split; [exact Hout|].
        intros y' x'. symmetry. apply option_map_id_ext. intros p.
        destruct (hits alphaChannel alphaThreshold y x n y' x') eqn:Hh;
          [|reflexivity].
        exfalso. unfold hits in Hh.
        apply andb_true_iff in Hh as [Hh Hp].
        apply andb_true_iff in Hh as [Hy Hx].
        apply (passes_in_grid _ _ _ _ _ _ Ha) in Hp. lia.
      - assert (Hin : 0 <= y + dy n < h /\ 0 <= x + dx n < w) by lia.
        destruct Hin as [Hy Hx].
        destruct (px_in_range alphaChannel h w _ _ Ha Hy Hx) as [a Hpa].
        unfold bind at 1. rewrite at2_px, Hpa. cbn [defined ret].
        destruct (Qltb a alphaThreshold) eqn:Hlt.
        + exists out. split; [reflexivity|]. split; [exact Hout|].
          intros y' x'. symmetry. apply option_map_id_ext. intros p.
          destruct (hits alphaChannel alphaThreshold y x n y' x') eqn:Hh;
            [|reflexivity].
          exfalso. unfold hits in Hh.
          apply andb_true_iff in Hh as [Hh Hp].
          apply andb_true_iff in Hh as [Hy' Hx'].
          apply Z.eqb_eq in Hy', Hx'. subst y' x'.
          unfold passes in Hp. rewrite Hpa, Hlt in Hp. discriminate.
        + destruct (px_in_range out h w _ _ Hout Hy Hx) as [p Hpo].
          unfold bind at 1. rewrite at2_px, Hpo. cbn [defined ret].
          destruct (set2_spec out h w _ _
                      (addError err (weight n) p) wd Hout Hy Hx)
            as (out1 & Hset & Hs1 & Hnew & Hother).
          exists out1. split; [exact Hset|]. split; [exact Hs1|].
          intros y' x'.
          destruct (decide ((y', x') = (y + dy n, x + dx n))) as [Heq|Hne].
          * injection Heq as -> ->. rewrite Hnew, Hpo. cbn [option_map].
            unfold hits, passes. rewrite !Z.eqb_refl, Hpa, Hlt. reflexivity.
          * rewrite (Hother _ _ Hne). symmetry.
            apply option_map_id_ext. intros p'.
            unfold hits.
            destruct (Z.eqb_spec (y + dy n) y');
              destruct (Z.eqb_spec (x + dx n) x'); try reflexivity.
            exfalso. apply Hne. congruence. }
    destruct Hstep as (out1 & Hrun & Hs1 & Hpx1).
    unfold bind at 1. cbn zeta in Hrun. rewrite Hrun.
    destruct (IH out1 wd Hs1) as (out' & Hrun' & Hs' & Hpx').
    exists out'. split; [exact Hrun'|]. split; [exact Hs'|].
    intros y' x'. rewrite Hpx', Hpx1.
    now destruct (px out y' x').
Qed.

(** A pixel is either left alone by the kernel, or it is a target that
    passes the alpha test and holds clamped channels afterwards. *)
Lemma spread_cases alphaChannel alphaThreshold y x err neigh y' x' p :
  spread alphaChannel alphaThreshold y x err neigh y' x' p = p \/
  ((exists n, n ∈ neigh /\ hits alphaChannel alphaThreshold y x n y' x' = true)
   /\ pixelOk (spread alphaChannel alphaThreshold y x err neigh y' x' p)).
Proof.
  unfold spread. revert p.
  induction neigh as [|n neigh IH]; intros p; [left; reflexivity|].
  cbn [fold_left].
  destruct (hits alphaChannel alphaThreshold y x n y' x') eqn:Hh.
  - right. destruct (IH (addError err (weight n) p)) as [->|[(m & Hm & Hhm) Hok]].
    + split; [|apply addError_ok]. exists n. split; [left|exact Hh].
    + split; [|exact Hok]. exists m. split; [right; exact Hm|exact Hhm].
  - destruct (IH p) as [->|[(m & Hm & Hhm) Hok]]; [left; reflexivity|].
    right. split; [|exact Hok]. exists m. split; [right; exact Hm|exact Hhm].
Qed.

(** ** The scan of the grid *)

Lemma shape_width {A} (g : list (list A)) h w y :
  shape g h w -> 0 <= y < h -> 0 <= w.
Proof.
  intros Hs Hy. destruct (idx_in_range g y) as [row Hrow]; [destruct Hs; lia|].
  rewrite <- (shape_row _ _ _ _ _ Hs Hrow). lia.
Qed.

Lemma before_irrefl ltr x : ~ before ltr x x.
Proof. destruct ltr; cbn; lia. Qed.

Lemma before_asym ltr x x' : before ltr x x' -> ~ before ltr x' x.
Proof. destruct ltr; cbn; lia. Qed.

Lemma triple_ext {A} E (P : World -> Prop) (c c' : M A)
    (Q : A -> World -> Prop) :
  (forall w, c w = c' w) -> triple E P c Q -> triple E P c' Q.
Proof. intros Heq H w Hw. rewrite <- Heq. exact (H w Hw). Qed.

Section Scan.

Variable E : Prop.
Variable palette : option (list Pixel).
Variable labs : list Lab.
Variable rgbChannels : Grid.
Variable alphaChannel : Mask.
Variable alphaThreshold : Q.
Variables h w : Z.
Variable ltr : Z -> bool.
Variable R : Z -> Z -> Pixel -> Pixel -> Prop.
Variable G : Pixel -> Prop.

Hypothesis rgb_shape : shape rgbChannels h w.
Hypothesis alpha_shape : shape alphaChannel h w.

Local Notation "'Inv'" :=
  (passInv rgbChannels alphaChannel alphaThreshold h w R G).

Lemma passInv_ext (V V' : Z -> Z -> Prop) out :
  (forall y x, 0 <= y < h -> 0 <= x < w -> (V y x <-> V' y x)) ->
  Inv V out -> Inv V' out.
Proof.
  intros HV [Hs H]. split; [exact Hs|].
  intros y x Hy Hx. destruct (H y x Hy Hx) as (H1 & H2 & H3).
  pose proof (HV y x Hy Hx) as Hiff.
  split; [exact H1|]. split.
  - intros Hp Hv. apply H2; tauto.
  - intros Hp Hv. apply H3; tauto.
Qed.

(** One step of a column loop keeps the invariant. *)
Lemma passInv_step (V : Z -> Z -> Prop) y x out out' :
  0 <= y < h -> 0 <= x < w ->
  Inv V out -> ~ V y x ->
  (forall y' x', V y' x' -> ~ ahead ltr y x y' x') ->
  shape out' h w ->
  (if passes alphaChannel alphaThreshold y x
   then exists old new,
          px out y x = Some old /\ px out' y x = Some new /\ R y x old new
   else px out' y x = px out y x) ->
  (forall y' x', (y', x') <> (y, x) ->
     px out' y' x' = px out y' x' \/
     (ahead ltr y x y' x' /\
      passes alphaChannel alphaThreshold y' x' = true /\
      exists p, px out' y' x' = Some p /\ G p)) ->
  Inv (fun y' x' => V y' x' \/ (y', x') = (y, x)) out'.
Proof.
  intros Hy Hx [Hs HI] HnV Hahead Hs' Hcur Hoth.
  split; [exact Hs'|].
  intros y' x' Hy' Hx'.
  destruct (HI y' x' Hy' Hx') as (H1 & H2 & H3).
  destruct (decide ((y', x') = (y, x))) as [Heq|Hne].
  - injection Heq as -> ->.
    destruct (passes alphaChannel alphaThreshold y x) eqn:Hp.
    + destruct Hcur as (old & new & Hold & Hnew & HR).
      split; [discriminate|]. split.
      * intros _ _. exists old, new. split; [exact Hnew|]. split; [exact HR|].
        destruct (H3 eq_refl HnV) as [Heq|(p & Hp' & HG)].
        -- left. congruence.
        -- right. congruence.
      * intros _ Hn. exfalso. apply Hn. right. reflexivity.
    + split; [intros _; rewrite Hcur; auto|]. split; discriminate.
  - destruct (Hoth y' x' Hne) as [Hsame|(Ha & Hp & p & Hp' & HG)].
    + rewrite Hsame. split; [exact H1|]. split.
      * intros Hp [Hv|Hv]; [auto|contradiction].
      * intros Hp Hn. apply H3; [exact Hp|]. intros Hv. apply Hn. left. exact Hv.
    + split; [congruence|]. split.
      * intros _ [Hv|Hv]; [|contradiction].
        exfalso. exact (Hahead _ _ Hv Ha).
      * intros _ _. right. exists p. auto.
Qed.

Variable cols : Z -> Z -> list Z.
Variable body : Z -> Z -> Z -> Z -> Grid -> M Grid.
Variable rowEnd : Z -> Z -> M unit.
Variable fin : M unit.
Variable rowLog : Z -> list Q.
Variable finLog : list Q.

Hypothesis cols_scan : forall y, cols y w = scanColumns (ltr y) w.
Hypothesis body_spec :
  bodySpec E palette labs alphaChannel alphaThreshold h w ltr R G (body w h).
Hypothesis rowEnd_spec : forall y log, 0 <= y < h ->
  triple E (worldIs palette labs log) (rowEnd h y)
    (fun _ => worldIs palette labs (log ++ rowLog y)).
Hypothesis fin_spec : forall log,
  triple E (worldIs palette labs log) fin
    (fun _ => worldIs palette labs (log ++ finLog)).

(** One row. *)
Lemma row_spec (doneRows rest : list Z) (y : Z) (out : Grid) (log : list Q) :
  upto h = doneRows ++ y :: rest ->
  triple E
    (fun wd => worldIs palette labs log wd /\
               Inv (fun y' _ => y' ∈ doneRows) out)
    (out' <- forEach (cols y w) (body w h y) out ;;
     rowEnd h y ;;;
     ret out')
    (fun out' wd => worldIs palette labs (log ++ rowLog y) wd /\
                    Inv (fun y' _ => y' ∈ doneRows ++ [y]) out').
Proof.
  intros Hsplit. destruct (upto_split _ _ _ _ Hsplit) as [Hdone Hy].
  assert (Hw : 0 <= w) by (eapply shape_width; eauto).
  eapply triple_bind.
  - eapply triple_conseq.
    + apply (triple_forEach E
        (fun done out' wd =>
           worldIs palette labs log wd /\
           Inv (fun y' x' => y' ∈ doneRows \/ (y' = y /\ x' ∈ done)) out')).
      intros done x rest' s Hcols. rewrite cols_scan in Hcols.
      destruct (scanColumns_split _ _ _ _ _ Hw Hcols) as [Hx Hbefore].
      intros wd [Hwd HI].
      pose proof (body_spec y x s log Hy Hx (proj1 HI) wd Hwd) as Hb.
      destruct (body w h y x s wd) as [[out' wd']|e]; [|exact Hb].
      destruct Hb as (Hwd' & Hs' & Hcur & Hoth).
      split; [exact Hwd'|].
      eapply passInv_ext;
        [|apply (passInv_step _ y x s out' Hy Hx HI); try eassumption].
      * intros y' x' _ _. cbn. rewrite elem_of_app, list_elem_of_singleton.
        split.
        -- intros [[Hv|[He Hv]]|Heq]; [tauto|tauto|].
           injection Heq as -> ->. tauto.
        -- intros [Hv|[He [Hv|Hv]]]; [tauto|tauto|].
           right. congruence.
      * cbn. intros [Hv|[_ Hv]].
        -- subst doneRows. apply elem_of_upto in Hv. lia.
        -- apply Hbefore in Hv. exact (before_irrefl _ _ (proj2 Hv)).
      * cbn. intros y' x' [Hv|[-> Hv]] [Ha|[Heq Ha]].
        -- subst doneRows. apply elem_of_upto in Hv. lia.
        -- subst doneRows. apply elem_of_upto in Hv. lia.
        -- lia.
        -- apply Hbefore in Hv. exact (before_asym _ _ _ (proj2 Hv) Ha).
    + intros wd [Hwd HI]. split; [exact Hwd|].
      eapply passInv_ext; [|exact HI].
      intros y' x' _ _. cbn. rewrite elem_of_nil. tauto.
    + intros out' wd H. exact H.
  - intros out'. cbn beta.
    eapply triple_bind.
    + intros wd [Hwd HI].
      pose proof (rowEnd_spec y log Hy wd Hwd) as Hr.
      destruct (rowEnd h y wd) as [[u wd']|e]; [|exact Hr].
      exact (conj HI Hr).
    + intros u. apply triple_ret. intros wd [HI Hwd].
      split; [exact Hwd|].
      eapply passInv_ext; [|exact HI].
      intros y' x' _ Hx'. cbn.
      rewrite elem_of_app, list_elem_of_singleton, cols_scan.
      rewrite (elem_of_scanColumns _ _ _ Hw). tauto.
Qed.

Lemma passInv_init : Inv (fun _ _ => False) rgbChannels.
Proof.
  split; [exact rgb_shape|]. intros y x _ _.
  split; [reflexivity|]. split; [intros _ []|]. intros _ _. left. reflexivity.
Qed.

(** The whole pass. *)
Theorem scanPass_spec (log0 : list Q) :
  0 < h ->
  triple E (worldIs palette labs log0)
    (scanPass cols body rowEnd fin rgbChannels)
    (fun out wd =>
       worldIs palette labs (log0 ++ flat_map rowLog (upto h) ++ finLog) wd /\
       shape out h w /\
       forall y x, 0 <= y < h -> 0 <= x < w ->
         if passes alphaChannel alphaThreshold y x
         then exists old new,
                px out y x = Some new /\ R y x old new /\
                (px rgbChannels y x = Some old \/ G old)
         else px out y x = px rgbChannels y x).
Proof.
  intros Hh. unfold scanPass. cbn zeta.
  destruct (idx_in_range rgbChannels 0) as [row0 Hrow0];
    [destruct rgb_shape; lia|].
  eapply triple_bind; [apply (triple_defined E _ _ row0 Hrow0)|].
  intros r. apply triple_pure. intros ->.
  rewrite (shape_row _ _ _ _ _ rgb_shape Hrow0), (proj1 rgb_shape),
    copyGrid_id.
  eapply triple_bind.
  - eapply triple_conseq.
    + apply (triple_forEach E
        (fun doneRows out wd =>
           worldIs palette labs (log0 ++ flat_map rowLog doneRows) wd /\
           Inv (fun y' _ => y' ∈ doneRows) out)).
      intros doneRows y rest out Hsplit.
      eapply triple_conseq.
      * apply (row_spec doneRows rest y out
                 (log0 ++ flat_map rowLog doneRows) Hsplit).
      * intros wd H. exact H.
      * intros out' wd [Hwd HI]. split; [|exact HI].
        rewrite flat_map_app, app_assoc. cbn [flat_map].
        rewrite app_nil_r. exact Hwd.
    + intros wd Hwd. cbn [flat_map]. rewrite app_nil_r. split; [exact Hwd|].
      eapply passInv_ext; [|exact passInv_init].
      intros y x _ _. rewrite elem_of_nil. tauto.
    + intros out wd H. exact H.
  - intros out. cbn beta.
    eapply triple_bind.
    + intros wd [Hwd HI].
      pose proof (fin_spec _ wd Hwd) as Hf.
      destruct (fin wd) as [[u wd']|e]; [|exact Hf].
      exact (conj HI Hf).
    + intros u. apply triple_ret. intros wd [[Hs HI] Hwd].
      split; [rewrite <- app_assoc in Hwd; exact Hwd|].
      split; [exact Hs|].
      intros y x Hy Hx. destruct (HI y x Hy Hx) as (H1 & H2 & _).
      destruct (passes alphaChannel alphaThreshold y x).
      * apply H2; [reflexivity|]. apply elem_of_upto. exact Hy.
      * apply H1. reflexivity.
Qed.

End Scan.

(** ** The bodies of the column loops *)

Lemma causal_not_self ltr neigh alphaChannel alphaThreshold y x n :
  causal ltr neigh -> n ∈ neigh ->
  hits alphaChannel alphaThreshold y x n y x = false.
Proof.
  intros Hc Hn. unfold causal in Hc. rewrite Forall_forall in Hc.
  specialize (Hc n Hn). unfold hits.
  destruct (Z.eqb_spec (y + dy n) y); [|reflexivity].
  destruct (Z.eqb_spec (x + dx n) x); [|reflexivity].
  exfalso. destruct Hc as [Hc|[_ Hc]]; [lia|].
  replace (dx n) with 0 in Hc by lia. exact (before_irrefl _ _ Hc).
Qed.

Lemma causal_ahead ltr neigh alphaChannel alphaThreshold y x n y' x' :
  causal (ltr y) neigh -> n ∈ neigh ->
  hits alphaChannel alphaThreshold y x n y' x' = true ->
  ahead ltr y x y' x' /\ passes alphaChannel alphaThreshold y' x' = true.
Proof.
  intros Hc Hn Hh. unfold causal in Hc. rewrite Forall_forall in Hc.
  specialize (Hc n Hn). unfold hits in Hh.
  apply andb_true_iff in Hh as [Hh Hp].
  apply andb_true_iff in Hh as [Hy Hx].
  apply Z.eqb_eq in Hy, Hx. split; [|exact Hp].
  unfold ahead. destruct Hc as [Hc|[Hd Hc]]; [left; lia|].
  right. split; [lia|]. subst x'. revert Hc.
  unfold before. destruct (ltr y); lia.
Qed.

Lemma diffusingPixel_bodySpec palette labs alphaChannel alphaThreshold h w
    ltr mkErr (kernel : Z -> list Tap) :
  shape alphaChannel h w ->
  (forall y, causal (ltr y) (kernel y)) ->
  bodySpec (tableTooLong palette labs) palette labs alphaChannel
    alphaThreshold h w ltr
    (fun _ _ old new => chosen labs palette old = Some new) pixelOk
    (fun y x out =>
       diffusingPixel mkErr (kernel y) alphaChannel palette alphaThreshold
         w h y x out).
Proof.
  intros Ha Hk y x out log Hy Hx Hs wd Hwd. unfold diffusingPixel.
  destruct (px_in_range alphaChannel h w y x Ha Hy Hx) as [a Hpa].
  unfold bind at 1. rewrite at2_px, Hpa. cbn [defined ret].
  unfold passes. rewrite Hpa.
  destruct (Qltb a alphaThreshold) eqn:Hlt; cbn [negb].
  { cbn. split; [exact Hwd|]. split; [exact Hs|]. split; [reflexivity|].
    intros y' x' _. left. reflexivity. }
  destruct (px_in_range out h w y x Hs Hy Hx) as [old Hold].
  unfold bind at 1. rewrite at2_px, Hold. cbn [defined ret].
  unfold bind at 1.
  pose proof (triple_findClosest palette labs log old wd Hwd) as Hf.
  destruct (findClosestColorInPalette old palette ModeLab wd)
    as [[new wd1]|e]; [|exact Hf].
  destruct Hf as [Hc Hwd1].
  destruct (set2_spec out h w y x new wd1 Hs Hy Hx)
    as (out1 & Hset & Hs1 & Hnew & Hother).
  unfold bind at 1. rewrite Hset.
  destruct (diffuse_run alphaChannel alphaThreshold w h x y
              (mkErr old new) (kernel y) Ha out1 wd1 Hs1)
    as (out' & Hrun & Hs' & Hpx').
  rewrite Hrun.
  split; [exact Hwd1|]. split; [exact Hs'|]. split.
  - exists old, new. split; [reflexivity|]. split; [|exact Hc].
    rewrite Hpx', Hnew. cbn [option_map]. f_equal.
    destruct (spread_cases alphaChannel alphaThreshold y x (mkErr old new)
                (kernel y) y x new) as [->|[(n & Hn & Hh) _]];
      [reflexivity|].
    rewrite (causal_not_self _ _ _ _ _ _ _ (Hk y) Hn) in Hh. discriminate.
  - intros y' x' Hne. rewrite Hpx', (Hother _ _ Hne).
    destruct (px out y' x') as [p|]; [|left; reflexivity].
    cbn [option_map].
    destruct (spread_cases alphaChannel alphaThreshold y x (mkErr old new)
                (kernel y) y' x' p) as [->|[(n & Hn & Hh) Hok]];
      [left; reflexivity|].
    right. destruct (causal_ahead ltr _ _ _ _ _ _ _ _ (Hk y) Hn Hh) as [H1 H2].
    split; [exact H1|]. split; [exact H2|]. eauto.
Qed.

Lemma pointPixel_bodySpec palette labs alphaChannel alphaThreshold h w ltr
    (adjust : Z -> Z -> Pixel -> M Pixel)
    (Adj : Z -> Z -> Pixel -> Pixel -> Prop) (G : Pixel -> Prop) :
  shape alphaChannel h w ->
  (forall y x p log, 0 <= y -> 0 <= x ->
     triple (tableTooLong palette labs) (worldIs palette labs log)
       (adjust y x p)
       (fun q wd => Adj y x p q /\ worldIs palette labs log wd)) ->
  bodySpec (tableTooLong palette labs) palette labs alphaChannel
    alphaThreshold h w ltr
    (fun y x old new =>
       exists q, Adj y x old q /\ chosen labs palette q = Some new) G
    (fun y x out =>
       pointPixel (adjust y x) alphaChannel palette alphaThreshold y x out).
Proof.
  intros Ha Hadj y x out log Hy Hx Hs wd Hwd. unfold pointPixel.
  destruct (px_in_range alphaChannel h w y x Ha Hy Hx) as [a Hpa].
  unfold bind at 1. rewrite at2_px, Hpa. cbn [defined ret].
  unfold passes. rewrite Hpa.
  destruct (Qltb a alphaThreshold) eqn:Hlt; cbn [negb].
  { cbn. split; [exact Hwd|]. split; [exact Hs|]. split; [reflexivity|].
    intros y' x' _. left. reflexivity. }
  destruct (px_in_range out h w y x Hs Hy Hx) as [old Hold].
  unfold bind at 1. rewrite at2_px, Hold. cbn [defined ret].
  unfold bind at 1.
  pose proof (Hadj y x old log (proj1 Hy) (proj1 Hx) wd Hwd) as Hq.
  destruct (adjust y x old wd) as [[q wd0]|e]; [|exact Hq].
  destruct Hq as [Hq Hwd0].
  unfold bind at 1.
  pose proof (triple_findClosest palette labs log q wd0 Hwd0) as Hf.
  destruct (findClosestColorInPalette q palette ModeLab wd0)
    as [[new wd1]|e]; [|exact Hf].
  destruct Hf as [Hc Hwd1].
  destruct (set2_spec out h w y x new wd1 Hs Hy Hx)
    as (out1 & Hset & Hs1 & Hnew & Hother).
  rewrite Hset.
  split; [exact Hwd1|]. split; [exact Hs1|]. split.
  - exists old, new. split; [reflexivity|]. split; [exact Hnew|]. eauto.
  - intros y' x' Hne. left. apply Hother. exact Hne.
Qed.

Lemma bodySpec_ext E palette labs alphaChannel alphaThreshold h w ltr R G
    (body body' : Z -> Z -> Grid -> M Grid) :
  (forall y x out wd, body y x out wd = body' y x out wd) ->
  bodySpec E palette labs alphaChannel alphaThreshold h w ltr R G body ->
  bodySpec E palette labs alphaChannel alphaThreshold h w ltr R G body'.
Proof.
  intros Heq H y x out log Hy Hx Hs.
  eapply triple_ext; [apply Heq|]. apply H; assumption.
Qed.

(** *** Kernels *)

Lemma causal_mirror (right : list Tap) :
  causal true right -> causal false (mirror right).
Proof.
  unfold causal, mirror. intros H. apply Forall_map.
  eapply Forall_impl; [exact H|].
  intros n [Hn|[Hd Hn]]; cbn in *; [left; exact Hn|right; lia].
Qed.

Ltac causal_kernel :=
  unfold causal;
  repeat (first [ apply List.Forall_nil | apply List.Forall_cons ]);
  cbn [dx dy before]; lia.

Lemma fsRight_causal : causal true fsRight.
Proof. causal_kernel. Qed.
Lemma fsLeft_causal : causal false fsLeft.
Proof. causal_kernel. Qed.
Lemma jarvisRight_causal : causal true jarvisRight.
Proof. causal_kernel. Qed.
Lemma stuckiRight_causal : causal true stuckiRight.
Proof. causal_kernel. Qed.
Lemma burkesRight_causal : causal true burkesRight.
Proof. causal_kernel. Qed.
Lemma atkinsonRight_causal : causal true atkinsonRight.
Proof. causal_kernel. Qed.
Lemma sierraLiteRight_causal : causal true sierraLiteRight.
Proof. causal_kernel. Qed.
Lemma sierra2Right_causal : causal true sierra2Right.
Proof. causal_kernel. Qed.
Lemma sierra3Right_causal : causal true sierra3Right.
Proof. causal_kernel. Qed.

(** *** Threshold matrices *)

Lemma bayerNorm_shape : shape bayerNorm 4 4.
Proof. split; [reflexivity|]. repeat constructor. Qed.

Lemma halftoneNorm_shape : shape halftoneNorm 8 8.
Proof. split; [reflexivity|]. repeat constructor. Qed.

Lemma orderedAdjust_spec E (P : World -> Prop) norm period intensity y x p :
  0 < period -> shape norm period period -> 0 <= y -> 0 <= x ->
  triple E P (orderedAdjust norm period intensity y x p)
    (fun q wd =>
       (exists t, orderedOffset norm period intensity y x = Some t /\
                  q = (chR p + t, chG p + t, chB p + t)%Q) /\ P wd).
Proof.
  intros Hp Hs Hy Hx wd Hwd. unfold orderedAdjust, orderedOffset.
  destruct (px_in_range norm period period (Z.rem y period) (Z.rem x period)
              Hs) as [n Hn].
  { apply Z.rem_bound_pos; lia. }
  { apply Z.rem_bound_pos; lia. }
  unfold bind. rewrite at2_px, Hn. cbn. split; [|exact Hwd].
  eexists. split; reflexivity.
Qed.

Lemma randomAdjust_spec E palette labs log range p :
  triple E (worldIs palette labs log) (randomAdjust range p)
    (fun q wd =>
       (exists d : nat,
          let n k := ((randomSource k * 2 - 1) * range)%Q in
          q = (chR p + n d, chG p + n (S d), chB p + n (S (S d)))%Q) /\
       worldIs palette labs log wd).
Proof.
  intros wd Hwd. cbn. split; [|exact Hwd].
  exists (randomDraws wd). reflexivity.
Qed.

(** ** The passes *)

Lemma worldIs_report palette labs (l : list Q) (wd : World) (v : Q) :
  worldIs palette labs l wd ->
  worldIs palette labs (l ++ [v])
    (mkWorld (labCache wd) (randomDraws wd) (progressCalls wd ++ [v])).
Proof. intros [H1 H2]. split; cbn; [exact H1|]. now rewrite H2. Qed.

Lemma report_spec E palette labs cb cond v log :
  triple E (worldIs palette labs log) (report cb cond v)
    (fun _ => worldIs palette labs (log ++ if cb && cond then [v] else [])).
Proof.
  apply (triple_report E (worldIs palette labs)).
  intros l wd. apply worldIs_report.
Qed.

Lemma forEach_ext {X S} (f g : X -> S -> M S) (l : list X) :
  (forall x s wd, f x s wd = g x s wd) ->
  forall s wd, forEach l f s wd = forEach l g s wd.
Proof.
  intros H. induction l as [|x l IH]; intros s wd; [reflexivity|].
  cbn [forEach]. unfold bind. rewrite H.
  destruct (g x s wd) as [[s' wd']|e]; [apply IH|reflexivity].
Qed.

Lemma bind_ext {A B} (c : M A) (k k' : A -> M B) (wd : World) :
  (forall a wd', k a wd' = k' a wd') -> bind c k wd = bind c k' wd.
Proof.
  intros H. unfold bind. destruct (c wd) as [[a wd']|e]; [apply H|reflexivity].
Qed.

Lemma applyRandomDithering_scan rgbChannels alphaChannel palette intensity
    alphaThreshold cb wd :
  scanPass (fun _ w => upto w)
    (fun _ _ y x out =>
       randomPixel alphaChannel palette intensity alphaThreshold y x out)
    (fun _ _ => ret tt) (report cb true 1) rgbChannels wd
  = applyRandomDithering rgbChannels alphaChannel palette intensity
      alphaThreshold cb wd.
Proof.
  unfold scanPass, applyRandomDithering. cbn zeta.
  apply bind_ext. intros row0 wd1.
  unfold bind at 1 3.
  rewrite (forEach_ext _
             (fun y out =>
                forEach (upto (Z.of_nat (length row0)))
                  (randomPixel alphaChannel palette intensity
                     alphaThreshold y) out)).
  - reflexivity.
  - intros y out wd'. unfold bind.
    destruct (forEach _ _ out wd') as [[out' wd'']|e]; reflexivity.
Qed.

Section Passes.

Variable palette : option (list Pixel).
Variable labs : list Lab.
Variable rgbChannels : Grid.
Variable alphaChannel : Mask.
Variables h w : Z.
Hypothesis rgb_shape : shape rgbChannels h w.
Hypothesis alpha_shape : shape alphaChannel h w.
Hypothesis rows : 0 < h.

Lemma width_nonneg : 0 <= w.
Proof. apply (shape_width rgbChannels h w 0 rgb_shape). lia. Qed.

Lemma errorDiffuse_spec weightsRight weightsLeft denom strength alphaThreshold
    cb serpentine log0 :
  causal true weightsRight -> causal false weightsLeft ->
  triple (tableTooLong palette labs) (worldIs palette labs log0)
    (errorDiffuse rgbChannels alphaChannel palette weightsRight weightsLeft
       denom strength alphaThreshold cb serpentine)
    (diffusionPost palette labs rgbChannels alphaChannel alphaThreshold h w
       (log0 ++
        flat_map (fun y => if cb && (Z.rem y (reportEvery h) =? 0)
                           then [rowFraction y h] else []) (upto h) ++
        (if cb then [1%Q] else []))).
Proof.
  intros Hr Hl.
  change (errorDiffuse rgbChannels alphaChannel palette weightsRight
            weightsLeft denom strength alphaThreshold cb serpentine)
    with (scanPass (fun y w => scanColumns (leftToRight serpentine y) w)
            (fun w h y x out =>
               diffusingPixel (edError strength denom)
                 (if leftToRight serpentine y then weightsRight
                  else weightsLeft)
                 alphaChannel palette alphaThreshold w h y x out)
            (fun h y => report cb (Z.rem y (reportEvery h) =? 0)
                          (rowFraction y h))
            (report cb true 1) rgbChannels).
  rewrite <- (andb_true_r cb) at 2.
  apply (scanPass_spec (tableTooLong palette labs) palette labs
             rgbChannels alphaChannel alphaThreshold h w
             (leftToRight serpentine)
             (fun _ _ old new => chosen labs palette old = Some new) pixelOk
             rgb_shape alpha_shape _ _ _ _
             (fun y => if cb && (Z.rem y (reportEvery h) =? 0)
                       then [rowFraction y h] else [])
             (if cb && true then [1%Q] else [])).
  - intros y. reflexivity.
  - apply diffusingPixel_bodySpec; [exact alpha_shape|].
    intros y. destruct (leftToRight serpentine y); assumption.
  - intros y log _. apply report_spec.
  - intros log. apply report_spec.
  - exact rows.
Qed.

Lemma applyFloydSteinbergDithering_spec strength alphaThreshold cb serpentine
    log0 :
  triple (tableTooLong palette labs) (worldIs palette labs log0)
    (applyFloydSteinbergDithering rgbChannels alphaChannel palette strength
       alphaThreshold cb serpentine)
    (diffusionPost palette labs rgbChannels alphaChannel alphaThreshold h w
       (log0 ++
        flat_map (fun y => if cb && (Z.rem y (reportEvery h) =? 0)
                           then [rowFraction y h] else []) (upto h) ++
        (if cb then [1%Q] else []))).
Proof.
  change (applyFloydSteinbergDithering rgbChannels alphaChannel palette
            strength alphaThreshold cb serpentine)
    with (scanPass (fun y w => scanColumns (leftToRight serpentine y) w)
            (fun w h y x out =>
               diffusingPixel (fsError strength)
                 (if leftToRight serpentine y then fsRight else fsLeft)
                 alphaChannel palette alphaThreshold w h y x out)
            (fun h y => report cb (Z.rem y (reportEvery h) =? 0)
                          (rowFraction y h))
            (report cb true 1) rgbChannels).
  rewrite <- (andb_true_r cb) at 2.
  apply (scanPass_spec (tableTooLong palette labs) palette labs
             rgbChannels alphaChannel alphaThreshold h w
             (leftToRight serpentine)
             (fun _ _ old new => chosen labs palette old = Some new) pixelOk
             rgb_shape alpha_shape _ _ _ _
             (fun y => if cb && (Z.rem y (reportEvery h) =? 0)
                       then [rowFraction y h] else [])
             (if cb && true then [1%Q] else [])).
  - intros y. reflexivity.
  - apply diffusingPixel_bodySpec; [exact alpha_shape|].
    intros y. destruct (leftToRight serpentine y);
      [exact fsRight_causal|exact fsLeft_causal].
  - intros y log _. apply report_spec.
  - intros log. apply report_spec.
  - exact rows.
Qed.

Lemma pointPass_spec (adjust : Z -> Z -> Pixel -> M Pixel)
    (Adj : Z -> Z -> Pixel -> Pixel -> Prop)
    (body : Z -> Z -> Z -> Z -> Grid -> M Grid)
    (rowEnd : Z -> Z -> M unit) (rowLog : Z -> list Q)
    (fin : M unit) (finLog : list Q) alphaThreshold log0 :
  (forall y x out wd,
     pointPixel (adjust y x) alphaChannel palette alphaThreshold y x out wd
     = body w h y x out wd) ->
  (forall y x p log, 0 <= y -> 0 <= x ->
     triple (tableTooLong palette labs) (worldIs palette labs log)
       (adjust y x p)
       (fun q wd => Adj y x p q /\ worldIs palette labs log wd)) ->
  (forall y log, 0 <= y < h ->
     triple (tableTooLong palette labs) (worldIs palette labs log)
       (rowEnd h y) (fun _ => worldIs palette labs (log ++ rowLog y))) ->
  (forall log,
     triple (tableTooLong palette labs) (worldIs palette labs log) fin
       (fun _ => worldIs palette labs (log ++ finLog))) ->
  triple (tableTooLong palette labs) (worldIs palette labs log0)
    (scanPass (fun _ w => upto w) body rowEnd fin rgbChannels)
    (pointPost Adj palette labs rgbChannels alphaChannel alphaThreshold h w
       (log0 ++ flat_map rowLog (upto h) ++ finLog)).
Proof.
  intros Hbody Hadj Hrow Hfin wd Hwd.
  pose proof (scanPass_spec (tableTooLong palette labs) palette labs
                rgbChannels alphaChannel alphaThreshold h w
                (fun _ => true)
                (fun y x old new =>
                   exists q, Adj y x old q /\
                             chosen labs palette q = Some new)
                (fun _ => False)
                rgb_shape alpha_shape (fun _ w => upto w) body rowEnd fin
                rowLog finLog) as H.
  specialize (H (fun y => eq_sym (scanColumns_ltr w width_nonneg))).
  specialize (H (bodySpec_ext _ _ _ _ _ _ _ _ _ _ _ _ Hbody
                   (pointPixel_bodySpec palette labs alphaChannel
                      alphaThreshold h w _ adjust Adj _ alpha_shape Hadj))).
  specialize (H Hrow Hfin log0 rows wd Hwd).
  destruct (scanPass _ body rowEnd fin rgbChannels wd) as [[out wd']|e];
    [|exact H].
  destruct H as (Hwd' & Hs & Hpx). split; [exact Hwd'|]. split; [exact Hs|].
  intros y x Hy Hx. specialize (Hpx y x Hy Hx).
  destruct (passes alphaChannel alphaThreshold y x); [|exact Hpx].
  destruct Hpx as (old & new & Hnew & (q & Hq & Hc) & [Hold|[]]).
  exists old, q, new. auto.
Qed.

Lemma applyNoDithering_spec alphaThreshold cb log0 :
  triple (tableTooLong palette labs) (worldIs palette labs log0)
    (applyNoDithering rgbChannels alphaChannel palette alphaThreshold cb)
    (pointPost (fun _ _ old q => q = old) palette labs rgbChannels
       alphaChannel alphaThreshold h w
       (log0 ++
        flat_map (fun y => if cb && (Z.rem y (reportEvery h) =? 0)
                           then [rowFraction y h] else []) (upto h) ++
        (if cb then [1%Q] else []))).
Proof.
  rewrite <- (andb_true_r cb) at 2.
  apply (pointPass_spec (fun _ _ p => ret p) (fun _ _ old q => q = old)
           (fun _ _ y x out =>
              noDitherPixel alphaChannel palette alphaThreshold y x out)
           (fun h y => report cb (Z.rem y (reportEvery h) =? 0)
                         (rowFraction y h))
           (fun y => if cb && (Z.rem y (reportEvery h) =? 0)
                     then [rowFraction y h] else [])
           (report cb true 1) (if cb && true then [1%Q] else [])).
  - reflexivity.
  - intros y x p log _ _ wd Hwd. cbn. auto.
  - intros y log _. apply report_spec.
  - intros log. apply report_spec.
Qed.

Lemma orderedPixel_point norm period intensity alphaThreshold y x out wd :
  pointPixel (orderedAdjust norm period intensity y x) alphaChannel palette
    alphaThreshold y x out wd
  = (a <- at2 alphaChannel y x ;;
     if Qltb a alphaThreshold then ret out
     else
       n <- at2 norm (Z.rem y period) (Z.rem x period) ;;
       let t := (n * (intensity / 255) * 255)%Q in
       p <- at2 out y x ;;
       let adjusted := (chR p + t, chG p + t, chB p + t)%Q in
       q <- findClosestColorInPalette adjusted palette ModeLab ;;
       set2 out y x q) wd.
Proof.
  unfold pointPixel, orderedAdjust, bind.
  rewrite !at2_px.
  destruct (px alphaChannel y x) as [a|]; [|reflexivity]. cbn [defined ret].
  destruct (Qltb a alphaThreshold); [reflexivity|].
  rewrite !at2_px.
  destruct (px out y x) as [p|] eqn:Hp,
           (px norm (Z.rem y period) (Z.rem x period)) as [n|] eqn:Hn;
    cbn [defined ret throw]; rewrite ?at2_px, ?Hp, ?Hn;
    cbn [defined ret throw]; reflexivity.
Qed.

Lemma orderedPass_spec norm period
    (body : Z -> Z -> Z -> Z -> Grid -> M Grid) intensity alphaThreshold cb
    log0 :
  0 < period -> shape norm period period ->
  (forall y x out wd,
     pointPixel (orderedAdjust norm period intensity y x) alphaChannel
       palette alphaThreshold y x out wd
     = body w h y x out wd) ->
  triple (tableTooLong palette labs) (worldIs palette labs log0)
    (scanPass (fun _ w => upto w) body
       (fun h y => report cb (Z.rem y 25 =? 0) (rowFraction y h))
       (report cb true 1) rgbChannels)
    (pointPost
       (fun y x old q =>
          exists t, orderedOffset norm period intensity y x = Some t /\
                    q = (chR old + t, chG old + t, chB old + t)%Q)
       palette labs rgbChannels alphaChannel alphaThreshold h w
       (log0 ++
        flat_map (fun y => if cb && (Z.rem y 25 =? 0)
                           then [rowFraction y h] else []) (upto h) ++
        (if cb then [1%Q] else []))).
Proof.
  intros Hperiod Hnorm Hbody.
  rewrite <- (andb_true_r cb) at 2.
  apply (pointPass_spec (orderedAdjust norm period intensity)
           (fun y x old q =>
              exists t, orderedOffset norm period intensity y x = Some t /\
                        q = (chR old + t, chG old + t, chB old + t)%Q)
           body
           (fun h y => report cb (Z.rem y 25 =? 0) (rowFraction y h))
           (fun y => if cb && (Z.rem y 25 =? 0)
                     then [rowFraction y h] else [])
           (report cb true 1) (if cb && true then [1%Q] else [])).
  - exact Hbody.
  - intros y x p log Hy Hx.
    apply (orderedAdjust_spec _ _ norm period intensity y x p Hperiod Hnorm
             Hy Hx).
  - intros y log _. apply report_spec.
  - intros log. apply report_spec.
Qed.

Lemma applyBayerDithering_spec intensity alphaThreshold cb log0 :
  triple (tableTooLong palette labs) (worldIs palette labs log0)
    (applyBayerDithering rgbChannels alphaChannel palette intensity
       alphaThreshold cb)
    (pointPost
       (fun y x old q =>
          exists t, orderedOffset bayerNorm 4 intensity y x = Some t /\
                    q = (chR old + t, chG old + t, chB old + t)%Q)
       palette labs rgbChannels alphaChannel alphaThreshold h w
       (log0 ++
        flat_map (fun y => if cb && (Z.rem y 25 =? 0)
                           then [rowFraction y h] else []) (upto h) ++
        (if cb then [1%Q] else []))).
Proof.
  refine (orderedPass_spec bayerNorm 4
            (fun _ _ y x out =>
               bayerPixel alphaChannel palette intensity alphaThreshold y x
                 out) intensity alphaThreshold cb log0 _ _ _).
  - lia.
  - exact bayerNorm_shape.
  - intros y x out wd. apply orderedPixel_point.
Qed.

Lemma applyHalftoneDithering_spec intensity alphaThreshold cb log0 :
  triple (tableTooLong palette labs) (worldIs palette labs log0)
    (applyHalftoneDithering rgbChannels alphaChannel palette intensity
       alphaThreshold cb)
    (pointPost
       (fun y x old q =>
          exists t, orderedOffset halftoneNorm 8 intensity y x = Some t /\
                    q = (chR old + t, chG old + t, chB old + t)%Q)
       palette labs rgbChannels alphaChannel alphaThreshold h w
       (log0 ++
        flat_map (fun y => if cb && (Z.rem y 25 =? 0)
                           then [rowFraction y h] else []) (upto h) ++
        (if cb then [1%Q] else []))).
Proof.
  refine (orderedPass_spec halftoneNorm 8
            (fun _ _ y x out =>
               halftonePixel alphaChannel palette intensity alphaThreshold y
                 x out) intensity alphaThreshold cb log0 _ _ _).
  - lia.
  - exact halftoneNorm_shape.
  - intros y x out wd. apply orderedPixel_point.
Qed.

Lemma applyRandomDithering_spec intensity alphaThreshold cb log0 :
  triple (tableTooLong palette labs) (worldIs palette labs log0)
    (applyRandomDithering rgbChannels alphaChannel palette intensity
       alphaThreshold cb)
    (pointPost
       (fun _ _ old q =>
          exists d : nat,
            let n k := ((randomSource k * 2 - 1) * intensity)%Q in
            q = (chR old + n d, chG old + n (S d), chB old + n (S (S d)))%Q)
       palette labs rgbChannels alphaChannel alphaThreshold h w
       (log0 ++ flat_map (fun _ : Z => @nil Q) (upto h) ++
        (if cb then [1%Q] else []))).
Proof.
  eapply triple_ext; [apply applyRandomDithering_scan|].
  rewrite <- (andb_true_r cb) at 2.
  apply (pointPass_spec (fun _ _ p => randomAdjust intensity p)
           (fun _ _ old q =>
              exists d : nat,
                let n k := ((randomSource k * 2 - 1) * intensity)%Q in
                q = (chR old + n d, chG old + n (S d),
                     chB old + n (S (S d)))%Q)
           (fun _ _ y x out =>
              randomPixel alphaChannel palette intensity alphaThreshold y x
                out)
           (fun _ _ => ret tt) (fun _ => [])
           (report cb true 1) (if cb && true then [1%Q] else [])).
  - reflexivity.
  - intros y x p log _ _. apply randomAdjust_spec.
  - intros y log _. apply triple_ret. intros wd' H.
    rewrite app_nil_r. exact H.
  - intros log. apply report_spec.
Qed.

End Passes.

(** ** Every method *)

Lemma diffusionPost_passPost cfg palette labs rgbChannels alphaChannel h w
    log0 out wd :
  diffuses (method cfg) = true ->
  diffusionPost palette labs rgbChannels alphaChannel (alphaThreshold cfg)
    h w
    (log0 ++
     flat_map (fun y => if progress cfg && (Z.rem y (reportEvery h) =? 0)
                        then [rowFraction y h] else []) (upto h) ++
     (if progress cfg then [1%Q] else [])) out wd ->
  passPost cfg palette labs rgbChannels alphaChannel h w log0 out wd.
Proof.
  intros Hd (Hwd & Hs & Hpx). unfold passPost, reports, rowReports, searched.
  split; [|split; [exact Hs|]].
  - destruct (method cfg); try discriminate; exact Hwd.
  - intros y x Hy Hx. specialize (Hpx y x Hy Hx).
    destruct (passes alphaChannel (alphaThreshold cfg) y x); [|exact Hpx].
    destruct Hpx as (old & new & Hnew & Hc & Hold).
    exists old, old, new. split; [exact Hnew|].
    split; [destruct (method cfg); try discriminate; reflexivity|].
    split; [exact Hc|]. destruct Hold as [Ho|Ho]; [left|right]; auto.
Qed.

Lemma pointPost_passPost cfg palette labs rgbChannels alphaChannel h w
    log0 out wd :
  diffuses (method cfg) = false ->
  pointPost (searched cfg) palette labs rgbChannels alphaChannel
    (alphaThreshold cfg) h w (log0 ++ reports cfg h) out wd ->
  passPost cfg palette labs rgbChannels alphaChannel h w log0 out wd.
Proof.
  intros Hd (Hwd & Hs & Hpx). unfold passPost.
  split; [exact Hwd|]. split; [exact Hs|].
  intros y x Hy Hx. specialize (Hpx y x Hy Hx).
  destruct (passes alphaChannel (alphaThreshold cfg) y x); [|exact Hpx].
  destruct Hpx as (old & q & new & Hnew & Hq & Hc & Hold).
  exists old, q, new. auto.
Qed.

Ltac diffusion_case H :=
  let Hr := fresh "Hr" in
  pose proof H as Hr;
  match type of Hr with
  | match ?c with _ => _ end =>
      destruct c as [[? ?]|?]; [|exact Hr];
      apply diffusionPost_passPost; [reflexivity|exact Hr]
  end.

Ltac point_case H :=
  let Hr := fresh "Hr" in
  pose proof H as Hr;
  match type of Hr with
  | match ?c with _ => _ end =>
      destruct c as [[? ?]|?]; [|exact Hr];
      apply pointPost_passPost; [reflexivity|exact Hr]
  end.

(** What each of the twelve methods does to a well-shaped image. *)
Theorem dither_spec (cfg : DitherConfig) (palette : option (list Pixel))
    (labs : list Lab) (rgbChannels : Grid) (alphaChannel : Mask) (h w : Z)
    (log0 : list Q) :
  shape rgbChannels h w -> shape alphaChannel h w -> 0 < h ->
  triple (tableTooLong palette labs) (worldIs palette labs log0)
    (dither cfg rgbChannels alphaChannel palette)
    (passPost cfg palette labs rgbChannels alphaChannel h w log0).
Proof.
  intros Hrgb Halpha Hh wd Hwd.
  destruct cfg as [m str thr serp int cb].
  unfold dither. cbn [method strength alphaThreshold serpentine intensity
                      progress].
  unfold applyJarvisDithering, applyStuckiDithering, applyBurkesDithering,
    applyAtkinsonDithering, applySierraLiteDithering, applySierra2Dithering,
    applySierra3Dithering. cbn zeta.
  destruct m.
  - diffusion_case (applyFloydSteinbergDithering_spec palette labs
      rgbChannels alphaChannel h w Hrgb Halpha Hh str thr cb serp
      log0 wd Hwd).
  - diffusion_case (errorDiffuse_spec palette labs rgbChannels alphaChannel
      h w Hrgb Halpha Hh jarvisRight (mirror jarvisRight) 48 str
      thr cb serp log0 jarvisRight_causal
      (causal_mirror _ jarvisRight_causal) wd Hwd).
  - diffusion_case (errorDiffuse_spec palette labs rgbChannels alphaChannel
      h w Hrgb Halpha Hh stuckiRight (mirror stuckiRight) 42 str
      thr cb serp log0 stuckiRight_causal
      (causal_mirror _ stuckiRight_causal) wd Hwd).
  - diffusion_case (errorDiffuse_spec palette labs rgbChannels alphaChannel
      h w Hrgb Halpha Hh burkesRight (mirror burkesRight) 32 str
      thr cb serp log0 burkesRight_causal
      (causal_mirror _ burkesRight_causal) wd Hwd).
  - diffusion_case (errorDiffuse_spec palette labs rgbChannels alphaChannel
      h w Hrgb Halpha Hh atkinsonRight (mirror atkinsonRight) 8 str
      thr cb serp log0 atkinsonRight_causal
      (causal_mirror _ atkinsonRight_causal) wd Hwd).
  - diffusion_case (errorDiffuse_spec palette labs rgbChannels alphaChannel
      h w Hrgb Halpha Hh sierraLiteRight (mirror sierraLiteRight) 4 str
      thr cb serp log0 sierraLiteRight_causal
      (causal_mirror _ sierraLiteRight_causal) wd Hwd).
  - diffusion_case (errorDiffuse_spec palette labs rgbChannels alphaChannel
      h w Hrgb Halpha Hh sierra2Right (mirror sierra2Right) 16 str
      thr cb serp log0 sierra2Right_causal
      (causal_mirror _ sierra2Right_causal) wd Hwd).
  - diffusion_case (errorDiffuse_spec palette labs rgbChannels alphaChannel
      h w Hrgb Halpha Hh sierra3Right (mirror sierra3Right) 32 str
      thr cb serp log0 sierra3Right_causal
      (causal_mirror _ sierra3Right_causal) wd Hwd).
  - point_case (applyBayerDithering_spec palette labs rgbChannels
      alphaChannel h w Hrgb Halpha Hh int thr cb log0 wd Hwd).
  - point_case (applyHalftoneDithering_spec palette labs rgbChannels
      alphaChannel h w Hrgb Halpha Hh int thr cb log0 wd Hwd).
  - point_case (applyRandomDithering_spec palette labs rgbChannels
      alphaChannel h w Hrgb Halpha Hh int thr cb log0 wd Hwd).
  - point_case (applyNoDithering_spec palette labs rgbChannels
      alphaChannel h w Hrgb Halpha Hh thr cb log0 wd Hwd).
Qed.

(** ** From triples to outcomes *)

Lemma tableTooLong_not_fits palette (cache : option (list Lab)) :
  tableTooLong palette (labsInEffect (paletteList palette) cache) ->
  ~ cacheFits (paletteList palette) cache.
Proof. intros [Hne Hlong] [Hnil|Hle]; [exact (Hne Hnil)|exact (Hlong Hle)]. Qed.

(** A pass on a well-shaped image returns, unless the cached Lab table is
    longer than the palette; what it returns is described by [passPost]. *)
Lemma dither_outcome cfg palette rgbChannels alphaChannel h w wd :
  shape rgbChannels h w -> shape alphaChannel h w -> 0 < h ->
  (cacheFits (paletteList palette) (labCache wd) ->
   exists out wd', dither cfg rgbChannels alphaChannel palette wd
                   = Ok (out, wd')) /\
  (forall out wd',
     dither cfg rgbChannels alphaChannel palette wd = Ok (out, wd') ->
     passPost cfg palette (labsInEffect (paletteList palette) (labCache wd))
       rgbChannels alphaChannel h w (progressCalls wd) out wd').
Proof.
  intros Hrgb Halpha Hh.
  pose proof (dither_spec cfg palette
                (labsInEffect (paletteList palette) (labCache wd))
                rgbChannels alphaChannel h w (progressCalls wd)
                Hrgb Halpha Hh wd (conj eq_refl eq_refl)) as H.
  destruct (dither cfg rgbChannels alphaChannel palette wd)
    as [[out wd']|e].
  - split; [eauto|]. intros out' wd'' Heq. injection Heq as <- <-. exact H.
  - split; [|discriminate]. intros Hfits. exfalso.
    exact (tableTooLong_not_fits _ _ H Hfits).
Qed.

Lemma grid_Forall {A} (P : A -> Prop) (g : list (list A)) h w :
  shape g h w ->
  (forall y x, 0 <= y < h -> 0 <= x < w ->
     exists p, px g y x = Some p /\ P p) ->
  Forall (Forall P) g.
Proof.
  intros Hs H. apply Forall_lookup. intros i row Hrow.
  apply Forall_lookup. intros j p Hp.
  assert (Hpx : px g (Z.of_nat i) (Z.of_nat j) = Some p).
  { unfold px, idx.
    destruct (Z.ltb_spec (Z.of_nat i) 0); [lia|]. rewrite Nat2Z.id, Hrow.
    destruct (Z.ltb_spec (Z.of_nat j) 0); [lia|]. now rewrite Nat2Z.id. }
  destruct (px_Some _ _ _ _ _ _ Hs Hpx) as [Hy Hx].
  destruct (H _ _ Hy Hx) as (p' & Hp' & HP). congruence.
Qed.

Lemma Forall_grid {A} (P : A -> Prop) (g : list (list A)) y x p :
  Forall (Forall P) g -> px g y x = Some p -> P p.
Proof.
  intros H Hp. unfold px, idx in Hp.
  destruct (Z.ltb_spec y 0); [discriminate|].
  destruct (g !! Z.to_nat y) as [row|] eqn:Hrow; [|discriminate].
  destruct (Z.ltb_spec x 0); [discriminate|].
  rewrite Forall_lookup in H. specialize (H _ _ Hrow).
  rewrite Forall_lookup in H. exact (H _ _ Hp).
Qed.

Lemma chosen_ok labs palette q r :
  Forall pixelOk (paletteList palette) ->
  chosen labs palette q = Some r -> pixelOk r.
Proof.
  intros Hpal. unfold chosen.
  destruct palette as [[|c0 pal]|].
  - intros [= <-]. exact black_pixelOk.
  - cbn [paletteList] in Hpal. intros Hr.
    rewrite Forall_lookup in Hpal. exact (Hpal _ _ Hr).
  - intros [= <-]. exact black_pixelOk.
Qed.

Lemma chosen_in_palette labs pal q r :
  pal <> [] -> chosen labs (Some pal) q = Some r -> r ∈ pal.
Proof.
  intros Hne. unfold chosen. destruct pal as [|c0 pal]; [contradiction|].
  intros Hr. eapply list_elem_of_lookup_2. exact Hr.
Qed.

Lemma chosen_empty labs palette q r :
  paletteList palette = [] -> chosen labs palette q = Some r ->
  r = (0, 0, 0)%Q.
Proof.
  unfold chosen. destruct palette as [[|c0 pal]|]; cbn [paletteList];
    intros H; try discriminate; congruence.
Qed.

Lemma passes_true alphaChannel alphaThreshold y x a :
  px alphaChannel y x = Some a -> (alphaThreshold <= a)%Q ->
  passes alphaChannel alphaThreshold y x = true.
Proof.
  intros Ha Hle. unfold passes. rewrite Ha.
  apply negb_true_iff, Qltb_ge. exact Hle.
Qed.

Lemma passes_false alphaChannel alphaThreshold y x a :
  px alphaChannel y x = Some a -> (a < alphaThreshold)%Q ->
  passes alphaChannel alphaThreshold y x = false.
Proof.
  intros Ha Hlt. unfold passes. rewrite Ha.
  apply negb_false_iff, Qltb_lt. exact Hlt.
Qed.

(** The kernel loop leaves alone every pixel that fails the alpha test. *)
Lemma diffuse_skips_masked alphaChannel alphaThreshold w h x0 y0 err neigh
    (g g' : Grid) (wd wd' : World) y x a :
  shape alphaChannel h w -> shape g h w ->
  diffuse alphaChannel alphaThreshold w h x0 y0 err neigh g wd
  = Ok (g', wd') ->
  px alphaChannel y x = Some a -> (a < alphaThreshold)%Q ->
  px g' y x = px g y x.
Proof.
  intros Halpha Hg Hrun Ha Hlt.
  destruct (diffuse_run alphaChannel alphaThreshold w h x0 y0 err neigh
              Halpha g wd Hg) as (g1 & Hrun1 & _ & Hpx).
  rewrite Hrun in Hrun1. injection Hrun1 as <- _.
  rewrite Hpx. apply option_map_id_ext. intros p.
  destruct (spread_cases alphaChannel alphaThreshold y0 x0 err neigh y x p)
    as [Heq|[(n & _ & Hh) _]]; [exact Heq|].
  unfold hits in Hh. apply andb_true_iff in Hh as [_ Hp].
  rewrite (passes_false _ _ _ _ _ Ha Hlt) in Hp. discriminate.
Qed.

(** * The claims *)

(** C1 (clamping). For each of the twelve methods and any strength and
    intensity: on an image whose channels lie in [0,255] and with a palette
    whose entries lie in [0,255], the pass returns (unless a stale Lab table
    longer than the palette makes the search throw), and every channel of
    every pixel of the grid it returns lies in [0,255]. *)
Theorem dither_channels_in_range (cfg : DitherConfig)
    (palette : option (list Pixel)) (rgbChannels : Grid)
    (alphaChannel : Mask) (h w : Z) (wd : World) :
  shape rgbChannels h w -> shape alphaChannel h w -> 0 < h ->
  Forall (Forall pixelOk) rgbChannels ->
  Forall pixelOk (paletteList palette) ->
  (cacheFits (paletteList palette) (labCache wd) ->
   exists out wd', dither cfg rgbChannels alphaChannel palette wd
                   = Ok (out, wd')) /\
  (forall out wd',
     dither cfg rgbChannels alphaChannel palette wd = Ok (out, wd') ->
     shape out h w /\ Forall (Forall pixelOk) out).
Proof.
  intros Hrgb Halpha Hh Hin Hpal.
  destruct (dither_outcome cfg palette rgbChannels alphaChannel h w wd
              Hrgb Halpha Hh) as [Hret Hpost].
  split; [exact Hret|].
  intros out wd' Hrun. destruct (Hpost out wd' Hrun) as (_ & Hs & Hpx).
  split; [exact Hs|].
  apply (grid_Forall pixelOk out h w Hs). intros y x Hy Hx.
  specialize (Hpx y x Hy Hx).
  destruct (passes alphaChannel (alphaThreshold cfg) y x).
  - destruct Hpx as (old & q & new & Hnew & _ & Hc & _).
    exists new. split; [exact Hnew|]. exact (chosen_ok _ _ _ _ Hpal Hc).
  - destruct (px_in_range out h w y x Hs Hy Hx) as [p Hp].
    exists p. split; [exact Hp|].
    rewrite Hpx in Hp. exact (Forall_grid _ _ _ _ _ Hin Hp).
Qed.

(** C2 (alpha pass-through). For each of the twelve methods: a pixel whose
    alpha is below the threshold holds in the output exactly the triple it
    holds in the input; and the loop that hands the error to the
    neighbours, whatever the kernel and the error, never changes such a
    pixel. *)
Theorem dither_alpha_pass_through (cfg : DitherConfig)
    (palette : option (list Pixel)) (rgbChannels : Grid)
    (alphaChannel : Mask) (h w : Z) (wd : World) :
  shape rgbChannels h w -> shape alphaChannel h w -> 0 < h ->
  (cacheFits (paletteList palette) (labCache wd) ->
   exists out wd', dither cfg rgbChannels alphaChannel palette wd
                   = Ok (out, wd')) /\
  (forall out wd',
     dither cfg rgbChannels alphaChannel palette wd = Ok (out, wd') ->
     forall y x a,
       px alphaChannel y x = Some a -> (a < alphaThreshold cfg)%Q ->
       px out y x = px rgbChannels y x) /\
  (forall x0 y0 err neigh g g' wd0 wd0' y x a,
     shape g h w ->
     diffuse alphaChannel (alphaThreshold cfg) w h x0 y0 err neigh g wd0
     = Ok (g', wd0') ->
     px alphaChannel y x = Some a -> (a < alphaThreshold cfg)%Q ->
     px g' y x = px g y x).
Proof.
  intros Hrgb Halpha Hh.
  destruct (dither_outcome cfg palette rgbChannels alphaChannel h w wd
              Hrgb Halpha Hh) as [Hret Hpost].
  split; [exact Hret|]. split.
  - intros out wd' Hrun y x a Ha Hlt.
    destruct (Hpost out wd' Hrun) as (_ & Hs & Hpx).
    destruct (px_Some _ _ _ _ _ _ Halpha Ha) as [Hy Hx].
    specialize (Hpx y x Hy Hx).
    rewrite (passes_false _ _ _ _ _ Ha Hlt) in Hpx. exact Hpx.
  - intros x0 y0 err neigh g g' wd0 wd0' y x a Hg Hrun Ha Hlt.
    exact (diffuse_skips_masked _ _ _ _ _ _ _ _ _ _ _ _ _ _ _
             Halpha Hg Hrun Ha Hlt).
Qed.

(** C3 (palette membership). For the no-dither, Bayer, halftone and random
    methods and a non-empty palette: a pixel whose alpha is at or above the
    threshold holds in the output exactly one of the palette entries. *)
Theorem point_methods_palette_membership (cfg : DitherConfig)
    (pal : list Pixel) (rgbChannels : Grid) (alphaChannel : Mask)
    (h w : Z) (wd : World) :
  diffuses (method cfg) = false -> pal <> [] ->
  shape rgbChannels h w -> shape alphaChannel h w -> 0 < h ->
  (cacheFits pal (labCache wd) ->
   exists out wd', dither cfg rgbChannels alphaChannel (Some pal) wd
                   = Ok (out, wd')) /\
  (forall out wd',
     dither cfg rgbChannels alphaChannel (Some pal) wd = Ok (out, wd') ->
     forall y x a,
       px alphaChannel y x = Some a -> (alphaThreshold cfg <= a)%Q ->
       exists c, px out y x = Some c /\ c ∈ pal).
Proof.
  intros Hpoint Hne Hrgb Halpha Hh.
  destruct (dither_outcome cfg (Some pal) rgbChannels alphaChannel h w wd
              Hrgb Halpha Hh) as [Hret Hpost].
  split; [exact Hret|].
  intros out wd' Hrun y x a Ha Hge.
  destruct (Hpost out wd' Hrun) as (_ & Hs & Hpx).
  destruct (px_Some _ _ _ _ _ _ Halpha Ha) as [Hy Hx].
  specialize (Hpx y x Hy Hx).
  rewrite (passes_true _ _ _ _ _ Ha Hge) in Hpx.
  destruct Hpx as (old & q & new & Hnew & _ & Hc & _).
  exists new. split; [exact Hnew|].
  exact (chosen_in_palette _ _ _ _ Hne Hc).
Qed.

Lemma findClosest_empty pixel palette mode wd :
  paletteList palette = [] ->
  findClosestColorInPalette pixel palette mode wd = Ok ((0, 0, 0)%Q, wd).
Proof.
  destruct palette as [[|c0 pal]|]; cbn [paletteList]; intros H;
    try discriminate; reflexivity.
Qed.

(** C10 (empty palette). With an empty or missing palette,
    [findClosestColorInPalette] returns [[0,0,0]] in every mode without
    throwing; each of the twelve passes returns, a pixel at or above the
    alpha threshold holds [(0,0,0)] in the output, and a pixel below it
    holds its input triple. *)
Theorem empty_palette_black (cfg : DitherConfig)
    (palette : option (list Pixel)) (rgbChannels : Grid)
    (alphaChannel : Mask) (h w : Z) (wd : World) :
  paletteList palette = [] ->
  shape rgbChannels h w -> shape alphaChannel h w -> 0 < h ->
  (forall pixel mode wd0,
     findClosestColorInPalette pixel palette mode wd0
     = Ok ((0, 0, 0)%Q, wd0)) /\
  exists out wd',
    dither cfg rgbChannels alphaChannel palette wd = Ok (out, wd') /\
    shape out h w /\
    forall y x a, px alphaChannel y x = Some a ->
      px out y x = if Qltb a (alphaThreshold cfg)
                   then px rgbChannels y x
                   else Some (0, 0, 0)%Q.
Proof.
  intros Hempty Hrgb Halpha Hh.
  split; [intros pixel mode wd0; apply findClosest_empty; exact Hempty|].
  destruct (dither_outcome cfg palette rgbChannels alphaChannel h w wd
              Hrgb Halpha Hh) as [Hret Hpost].
  destruct Hret as (out & wd' & Hrun); [left; exact Hempty|].
  exists out, wd'. split; [exact Hrun|].
  destruct (Hpost out wd' Hrun) as (_ & Hs & Hpx).
  split; [exact Hs|].
  intros y x a Ha.
  destruct (px_Some _ _ _ _ _ _ Halpha Ha) as [Hy Hx].
  specialize (Hpx y x Hy Hx). unfold passes in Hpx. rewrite Ha in Hpx.
  destruct (Qltb a (alphaThreshold cfg)); cbn [negb] in Hpx; [exact Hpx|].
  destruct Hpx as (old & q & new & Hnew & _ & Hc & _).
  rewrite Hnew. f_equal. exact (chosen_empty _ _ _ _ Hempty Hc).
Qed.

Lemma flat_map_nil {A B} (l : list A) : flat_map (fun _ => @nil B) l = [].
Proof. induction l as [|a l IH]; [reflexivity|exact IH]. Qed.

(** C9 (progress cadence), on the code: [applyRandomDithering] with a
    progress callback hands it the value 1 once, after the last row, and
    nothing else; no call is made on the rows [y] with [y mod 25 = 0]. *)
Theorem random_reports_only_at_end (cfg : DitherConfig)
    (palette : option (list Pixel)) (rgbChannels : Grid)
    (alphaChannel : Mask) (h w : Z) (wd : World) :
  method cfg = Random -> progress cfg = true ->
  shape rgbChannels h w -> shape alphaChannel h w -> 0 < h ->
  (cacheFits (paletteList palette) (labCache wd) ->
   exists out wd', dither cfg rgbChannels alphaChannel palette wd
                   = Ok (out, wd')) /\
  (forall out wd',
     dither cfg rgbChannels alphaChannel palette wd = Ok (out, wd') ->
     progressCalls wd' = progressCalls wd ++ [1%Q]).
Proof.
  intros Hm Hcb Hrgb Halpha Hh.
  destruct (dither_outcome cfg palette rgbChannels alphaChannel h w wd
              Hrgb Halpha Hh) as [Hret Hpost].
  split; [exact Hret|].
  intros out wd' Hrun. destruct (Hpost out wd' Hrun) as ([_ Hlog] & _).
  rewrite Hlog. unfold reports, rowReports. rewrite Hm, Hcb.
  now rewrite flat_map_nil.
Qed.

(** The cadence of the other eleven methods: the error-diffusion and
    no-dither passes report [(y+1)/h] on the rows with
    [y mod max(1, floor(h/50)) = 0], the Bayer and halftone passes on the
    rows with [y mod 25 = 0], and all report 1 at the end. *)
Lemma progress_cadence (cfg : DitherConfig) (palette : option (list Pixel))
    (rgbChannels : Grid) (alphaChannel : Mask) (h w : Z) (wd : World)
    (out : Grid) (wd' : World) :
  progress cfg = true ->
  shape rgbChannels h w -> shape alphaChannel h w -> 0 < h ->
  dither cfg rgbChannels alphaChannel palette wd = Ok (out, wd') ->
  progressCalls wd' =
  progressCalls wd ++
  flat_map
    (fun y =>
       match method cfg with
       | Random => []
       | Bayer | Halftone =>
           if Z.rem y 25 =? 0 then [rowFraction y h] else []
       | _ =>
           if Z.rem y (Z.max 1 (h / 50)) =? 0 then [rowFraction y h] else []
       end) (upto h) ++ [1%Q].
Proof.
  intros Hcb Hrgb Halpha Hh Hrun.
  destruct (dither_outcome cfg palette rgbChannels alphaChannel h w wd
              Hrgb Halpha Hh) as [_ Hpost].
  destruct (Hpost out wd' Hrun) as ([_ Hlog] & _).
  rewrite Hlog. unfold reports, rowReports, reportEvery. rewrite Hcb.
  destruct (method cfg); reflexivity.
Qed.








(** ** The nearest-colour search *)















(** The amendment is needed whatever the runtime: after the palette
    [[[0,0,0],[10,10,10]]] has been searched once and then reversed in
    place, the search for black returns [[10,10,10]] although black is an
    entry.  (With channels up to 10 neither [Math.pow] nor [Math.cbrt] is
    called.) *)
Lemma stale_table_wrong_entry :
  exists wd1 wd2,
    findClosestColorInPalette (0, 0, 0)%Q
      (Some [ (0, 0, 0); (10, 10, 10) ]%Q) ModeLab freshWorld
    = Ok ((0, 0, 0)%Q, wd1) /\
    findClosestColorInPalette (0, 0, 0)%Q
      (Some [ (10, 10, 10); (0, 0, 0) ]%Q) ModeLab wd1
    = Ok ((10, 10, 10)%Q, wd2).
Proof.
  eexists. eexists. split.
  - vm_compute. reflexivity.
  - vm_compute. reflexivity.
Qed.

(** ** The compuphase distance *)








End Runtime.

(** * The theorems on the sample data *)

Ltac solve_pixels :=
  repeat (first [ apply List.Forall_nil | apply List.Forall_cons ]);
  unfold pixelOk, channelOk; cbn [chR chG chB fst snd];
  repeat split; discriminate.

Ltac solve_shape := split; [reflexivity | repeat constructor].

Lemma dither_channels_in_range_witness :
  exists out wd',
    dither samplePow sampleCbrt sampleRandom (sampleConfig FloydSteinberg)
      sampleImage sampleAlpha (Some blackWhite) freshWorld = Ok (out, wd') /\
    shape out 2 2 /\ Forall (Forall pixelOk) out.
Proof.
  destruct (dither_channels_in_range samplePow sampleCbrt sampleRandom
              (sampleConfig FloydSteinberg) (Some blackWhite) sampleImage
              sampleAlpha 2 2 freshWorld) as [Hret Hpost].
  - solve_shape.
  - solve_shape.
  - lia.
  - unfold sampleImage. solve_pixels.
  - unfold paletteList, blackWhite. solve_pixels.
  - destruct Hret as (out & wd' & Hrun); [right; exact (le_n 2)|].
    exists out, wd'. split; [exact Hrun|]. exact (Hpost out wd' Hrun).
Defined.

Lemma dither_alpha_pass_through_witness :
  exists out wd',
    dither samplePow sampleCbrt sampleRandom (sampleConfig Jarvis)
      sampleImage sampleAlpha (Some blackWhite) freshWorld = Ok (out, wd') /\
    px out 0 1 = Some (200, 100, 50)%Q.
Proof.
  destruct (dither_alpha_pass_through samplePow sampleCbrt sampleRandom
              (sampleConfig Jarvis) (Some blackWhite) sampleImage
              sampleAlpha 2 2 freshWorld) as (Hret & Hpost & _).
  - solve_shape.
  - solve_shape.
  - lia.
  - destruct Hret as (out & wd' & Hrun); [right; exact (le_n 2)|].
    exists out, wd'. split; [exact Hrun|].
    apply (Hpost out wd' Hrun 0 1 0%Q); reflexivity.
Defined.

Lemma point_methods_palette_membership_witness :
  exists out wd' c,
    dither samplePow sampleCbrt sampleRandom (sampleConfig Random)
      sampleImage sampleAlpha (Some blackWhite) freshWorld = Ok (out, wd') /\
    px out 1 0 = Some c /\ c ∈ blackWhite.
Proof.
  destruct (point_methods_palette_membership samplePow sampleCbrt
              sampleRandom (sampleConfig Random) blackWhite sampleImage
              sampleAlpha 2 2 freshWorld) as [Hret Hpost].
  - reflexivity.
  - discriminate.
  - solve_shape.
  - solve_shape.
  - lia.
  - destruct Hret as (out & wd' & Hrun); [right; exact (le_n 2)|].
    destruct (Hpost out wd' Hrun 1 0 200%Q) as (c & Hc & Hin).
    + reflexivity.
    + discriminate.
    + exists out, wd', c. split; [exact Hrun|]. split; [exact Hc|exact Hin].
Defined.






Lemma random_reports_only_at_end_witness :
  exists out wd',
    dither samplePow sampleCbrt sampleRandom (sampleConfig Random)
      sampleImage sampleAlpha (Some blackWhite) freshWorld = Ok (out, wd') /\
    progressCalls wd' = [1%Q].
Proof.
  destruct (random_reports_only_at_end samplePow sampleCbrt sampleRandom
              (sampleConfig Random) (Some blackWhite) sampleImage
              sampleAlpha 2 2 freshWorld) as [Hret Hpost].
  - reflexivity.
  - reflexivity.
  - solve_shape.
  - solve_shape.
  - lia.
  - destruct Hret as (out & wd' & Hrun); [right; exact (le_n 2)|].
    exists out, wd'. split; [exact Hrun|]. exact (Hpost out wd' Hrun).
Defined.

Lemma empty_palette_black_witness :
  exists out wd',
    dither samplePow sampleCbrt sampleRandom (sampleConfig Stucki)
      sampleImage sampleAlpha (Some []) freshWorld = Ok (out, wd') /\
    px out 0 0 = Some (0, 0, 0)%Q /\
    px out 0 1 = Some (200, 100, 50)%Q.
Proof.
  destruct (empty_palette_black samplePow sampleCbrt sampleRandom
              (sampleConfig Stucki) (Some []) sampleImage sampleAlpha 2 2
              freshWorld) as (_ & out & wd' & Hrun & _ & Hpx).
  - reflexivity.
  - solve_shape.
  - solve_shape.
  - lia.
  - exists out, wd'. split; [exact Hrun|]. split.
    + apply (Hpx 0 0 255%Q). reflexivity.
    + apply (Hpx 0 1 0%Q). reflexivity.
Defined.


(** On a one-pixel image with a progress callback, the random pass hands
    the callback the final value only, where the Bayer pass also reports
    row 0. *)
Lemma random_misses_row_report :
  (exists out wd',
     dither samplePow sampleCbrt sampleRandom
       (mkConfig Random 1 128 false 32 true)
       [ [ (10, 10, 10)%Q ] ] [ [ 255%Q ] ] (Some blackWhite) freshWorld
     = Ok (out, wd') /\
     progressCalls wd' = [ 1%Q ]) /\
  (exists out wd',
     dither samplePow sampleCbrt sampleRandom
       (mkConfig Bayer 1 128 false 32 true)
       [ [ (10, 10, 10)%Q ] ] [ [ 255%Q ] ] (Some blackWhite) freshWorld
     = Ok (out, wd') /\
     progressCalls wd' = [ rowFraction 0 1; 1%Q ]).
Proof.
  assert (Hs : shape [ [ (10, 10, 10)%Q ] ] 1 1) by solve_shape.
  assert (Ha : shape [ [ 255%Q ] ] 1 1) by solve_shape.
  assert (Hh : 0 < 1) by lia.
  split.
  - destruct (random_reports_only_at_end samplePow sampleCbrt sampleRandom
                (mkConfig Random 1 128 false 32 true) (Some blackWhite)
                _ _ 1 1 freshWorld eq_refl eq_refl Hs Ha Hh)
      as [Hret Hlog].
    destruct Hret as (out & wd' & Hrun); [right; exact (le_n 2)|].
    exists out, wd'. split; [exact Hrun|]. exact (Hlog out wd' Hrun).
  - destruct (dither_outcome samplePow sampleCbrt sampleRandom
                (mkConfig Bayer 1 128 false 32 true) (Some blackWhite)
                _ _ 1 1 freshWorld Hs Ha Hh) as [Hret _].
    destruct Hret as (out & wd' & Hrun); [right; exact (le_n 2)|].
    exists out, wd'. split; [exact Hrun|].
    exact (progress_cadence samplePow sampleCbrt sampleRandom
             (mkConfig Bayer 1 128 false 32 true) (Some blackWhite)
             _ _ 1 1 freshWorld out wd' eq_refl Hs Ha Hh Hrun).
Qed.

(** * Properties of the rest of the application *)

(** ** Comparisons of numbers *)

Lemma Qltb_iff (a b : Q) : Qltb a b = true <-> (a < b)%Q.
Proof.
  unfold Qltb. rewrite negb_true_iff. split.
  - intros H. apply Qnot_le_lt. intros Hle.
    apply Qle_bool_iff in Hle. congruence.
  - intros H. destruct (Qle_bool b a) eqn:E; [|reflexivity].
    apply Qle_bool_iff in E. exfalso. exact (Qlt_not_le _ _ H E).
Qed.

Lemma Qltb_false_iff (a b : Q) : Qltb a b = false <-> (b <= a)%Q.
Proof.
  unfold Qltb. rewrite negb_false_iff. apply Qle_bool_iff.
Qed.

(** ** [js/zip.js] *)

Lemma toUint32_range z : 0 <= toUint32 z < 4294967296.
Proof.
  unfold toUint32. change (2 ^ 32) with 4294967296.
  apply Z.mod_pos_bound. lia.
Qed.

Lemma toUint32_small z : 0 <= z < 4294967296 -> toUint32 z = z.
Proof.
  unfold toUint32. change (2 ^ 32) with 4294967296. intros H.
  apply Z.mod_small. lia.
Qed.

Lemma toUint32_toInt32 z : toUint32 (toInt32 z) = toUint32 z.
Proof.
  unfold toUint32, toInt32.
  change (2 ^ 32) with 4294967296. change (2 ^ 31) with 2147483648.
  Z.div_mod_to_equations. lia.
Qed.

Lemma toInt32_id z : -2147483648 <= z < 2147483648 -> toInt32 z = z.
Proof.
  unfold toInt32.
  change (2 ^ 32) with 4294967296. change (2 ^ 31) with 2147483648.
  intros H. Z.div_mod_to_equations. lia.
Qed.

Lemma toUint32_land z : toUint32 z = Z.land z (Z.ones 32).
Proof. unfold toUint32. rewrite Z.land_ones by lia. reflexivity. Qed.

Lemma toUint32_lxor a b :
  toUint32 (Z.lxor a b) = Z.lxor (toUint32 a) (toUint32 b).
Proof.
  rewrite !toUint32_land. apply Z.bits_inj'. intros n Hn.
  rewrite Z.lxor_spec, !Z.land_spec, Z.lxor_spec.
  destruct (Z.testbit a n), (Z.testbit b n), (Z.testbit (Z.ones 32) n);
    reflexivity.
Qed.

Lemma toUint32_bitxor a b :
  toUint32 (bitxor a b) = Z.lxor (toUint32 a) (toUint32 b).
Proof.
  unfold bitxor. rewrite toUint32_lxor, !toUint32_toInt32. reflexivity.
Qed.

Lemma ushr_div a n :
  0 <= n < 32 -> ushr a n = toUint32 a / 2 ^ n.
Proof.
  intros Hn. unfold ushr. rewrite Z.mod_small by lia.
  apply Z.shiftr_div_pow2. lia.
Qed.

Lemma mod_shifted_pow2 z d k :
  0 <= k <= 32 -> (z + d * 2 ^ 32) mod 2 ^ k = z mod 2 ^ k.
Proof.
  intros Hk.
  replace (d * 2 ^ 32) with (d * 2 ^ (32 - k) * 2 ^ k).
  - apply Z.mod_add. apply Z.pow_nonzero; lia.
  - rewrite <- Z.mul_assoc, <- Z.pow_add_r by lia.
    do 2 f_equal. lia.
Qed.

Lemma toInt32_mod_pow2 z k :
  0 <= k <= 32 -> toInt32 z mod 2 ^ k = z mod 2 ^ k.
Proof.
  intros Hk.
  replace (toInt32 z) with (z + - ((z + 2 ^ 31) / 2 ^ 32) * 2 ^ 32).
  - apply mod_shifted_pow2. exact Hk.
  - unfold toInt32.
    pose proof (Z.div_mod (z + 2 ^ 31) (2 ^ 32)) as H.
    change (2 ^ 32) with 4294967296 in *.
    change (2 ^ 31) with 2147483648 in *. lia.
Qed.

Lemma toUint32_mod_pow2 z k :
  0 <= k <= 32 -> toUint32 z mod 2 ^ k = z mod 2 ^ k.
Proof.
  intros Hk. unfold toUint32.
  replace (z mod 2 ^ 32) with (z + - (z / 2 ^ 32) * 2 ^ 32).
  - apply mod_shifted_pow2. exact Hk.
  - pose proof (Z.div_mod z (2 ^ 32)) as H.
    change (2 ^ 32) with 4294967296 in *. lia.
Qed.

Lemma bitand_ones a k :
  0 <= k < 32 -> bitand a (Z.ones k) = toUint32 a mod 2 ^ k.
Proof.
  intros Hk. unfold bitand.
  assert (Hones : 0 <= Z.ones k < 2147483648).
  { rewrite Z.ones_equiv. pose proof (Z.pow_pos_nonneg 2 k).
    assert (2 ^ k <= 2 ^ 31) by (apply Z.pow_le_mono_r; lia).
    change (2 ^ 31) with 2147483648 in *. lia. }
  rewrite (toInt32_id (Z.ones k)) by lia.
  rewrite Z.land_ones by lia.
  rewrite toInt32_mod_pow2, toUint32_mod_pow2 by lia. reflexivity.
Qed.

Lemma crcBit_range c : 0 <= c < 4294967296 -> 0 <= crcBit c < 4294967296.
Proof.
  intros Hc. unfold crcBit.
  assert (Hhalf : 0 <= c / 2 < 2147483648) by (Z.div_mod_to_equations; lia).
  destruct (Z.odd c); [|lia].
  rewrite <- (toUint32_small (c / 2)) by lia.
  change 0xedb88320 with (toUint32 0xedb88320).
  rewrite <- toUint32_lxor. apply toUint32_range.
Qed.

Lemma tableStep_crcBit c : toUint32 (Zip.tableStep c) = crcBit (toUint32 c).
Proof.
  unfold Zip.tableStep, crcBit.
  pose proof (toUint32_range c) as Hr.
  change 1 with (Z.ones 1) at 1. rewrite bitand_ones by lia.
  rewrite ushr_div by lia. change (2 ^ 1) with 2.
  rewrite Zodd_mod.
  assert (Hhalf : 0 <= toUint32 c / 2 < 2147483648)
    by (Z.div_mod_to_equations; lia).
  destruct (toUint32 c mod 2 =? 0) eqn:E.
  - apply Z.eqb_eq in E. rewrite E. cbn [negb Z.eqb].
    apply toUint32_small. lia.
  - apply Z.eqb_neq in E.
    assert (E1 : toUint32 c mod 2 = 1) by (Z.div_mod_to_equations; lia).
    rewrite E1. cbn [negb Z.eqb].
    rewrite toUint32_bitxor, Z.lxor_comm.
    rewrite (toUint32_small (toUint32 c / 2)) by lia. reflexivity.
Qed.

Lemma iter_tableStep k c :
  toUint32 (Nat.iter k Zip.tableStep c) = Nat.iter k crcBit (toUint32 c).
Proof.
  induction k as [|k IH]; [reflexivity|].
  rewrite !Nat.iter_succ, tableStep_crcBit, IH. reflexivity.
Qed.

Lemma iter_crcBit_range k c :
  0 <= c < 4294967296 -> 0 <= Nat.iter k crcBit c < 4294967296.
Proof.
  intros Hc. induction k as [|k IH]; [exact Hc|].
  rewrite Nat.iter_succ. apply crcBit_range. exact IH.
Qed.

Lemma tableAt_crcBit n :
  0 <= n < 256 -> Zip.tableAt n = Nat.iter 8 crcBit n.
Proof.
  intros Hn. unfold Zip.tableAt, Zip.CRC_TABLE, Zip.makeCRC32Table, getZ.
  destruct (n <? 0) eqn:E; [apply Z.ltb_lt in E; lia|].
  rewrite list_lookup_fmap.
  assert (Hl : seqZ 0 256 !! Z.to_nat n = Some n).
  { apply lookup_seqZ. lia. }
  rewrite Hl. cbn [fmap option_fmap option_map default].
  rewrite ushr_div by lia. change (2 ^ 0) with 1. rewrite Z.div_1_r.
  rewrite toUint32_small by apply toUint32_range.
  rewrite iter_tableStep. rewrite toUint32_small by lia. reflexivity.
Qed.

Lemma crcBit_lxor a b : crcBit (Z.lxor a b) = Z.lxor (crcBit a) (crcBit b).
Proof.
  unfold crcBit.
  rewrite <- !Z.bit0_odd, Z.lxor_spec, <- !Z.div2_div, !Z.div2_spec.
  rewrite Z.shiftr_lxor.
  destruct (Z.testbit a 0), (Z.testbit b 0); cbn [xorb];
    apply Z.bits_inj'; intros n Hn; rewrite ?Z.lxor_spec;
    destruct (Z.testbit (Z.shiftr a 1) n), (Z.testbit (Z.shiftr b 1) n),
      (Z.testbit 0xedb88320 n); reflexivity.
Qed.

Lemma iter_crcBit_lxor k a b :
  Nat.iter k crcBit (Z.lxor a b)
  = Z.lxor (Nat.iter k crcBit a) (Nat.iter k crcBit b).
Proof.
  induction k as [|k IH]; [reflexivity|].
  rewrite !Nat.iter_succ, IH. apply crcBit_lxor.
Qed.

Lemma iter_crcBit_shifted k h :
  Nat.iter k crcBit (2 ^ Z.of_nat k * h) = h.
Proof.
  revert h. induction k as [|k IH]; intros h.
  - change (Nat.iter 0 crcBit (2 ^ Z.of_nat 0 * h)) with (1 * h). lia.
  - rewrite Nat.iter_succ_r.
    replace (2 ^ Z.of_nat (S k) * h) with (2 * (2 ^ Z.of_nat k * h)).
    + unfold crcBit at 2. rewrite Z.odd_mul. cbn [Z.odd andb].
      rewrite Z.mul_comm, Z.div_mul by lia. apply IH.
    + rewrite Nat2Z.inj_succ, Z.pow_succ_r by lia. ring.
Qed.

Lemma split_low_bits x k :
  0 <= k -> x = Z.lxor (x mod 2 ^ k) (2 ^ k * (x / 2 ^ k)).
Proof.
  intros Hk.
  rewrite <- Z.add_nocarry_lxor.
  - rewrite Z.add_comm. apply Z.div_mod. apply Z.pow_nonzero; lia.
  - apply Z.bits_inj'. intros n Hn. rewrite Z.land_spec, Z.bits_0.
    destruct (Z.lt_ge_cases n k) as [Hlt|Hge].
    + rewrite (Z.mul_comm (2 ^ k)), Z.mul_pow2_bits_low by lia.
      apply andb_false_r.
    + rewrite Z.mod_pow2_bits_high by lia. reflexivity.
Qed.

Lemma crcByte_table c byte :
  0 <= c < 4294967296 -> 0 <= byte < 256 ->
  crcByte c byte
  = Z.lxor (Zip.tableAt (Z.lxor c byte mod 256)) (c / 256).
Proof.
  intros Hc Hb. unfold crcByte.
  rewrite tableAt_crcBit by (apply Z.mod_pos_bound; lia).
  rewrite (split_low_bits (Z.lxor c byte) 8) at 1 by lia.
  rewrite iter_crcBit_lxor. change (2 ^ 8) with 256.
  change 256 with (2 ^ Z.of_nat 8) at 2.
  rewrite iter_crcBit_shifted. f_equal.
  change 256 with (2 ^ 8).
  rewrite <- !Z.shiftr_div_pow2 by lia.
  rewrite Z.shiftr_lxor.
  rewrite (Z.shiftr_div_pow2 byte 8) by lia.
  change (2 ^ 8) with 256. rewrite (Z.div_small byte 256) by lia.
  apply Z.lxor_0_r.
Qed.

Lemma crc32_step c byte :
  0 <= byte < 256 ->
  toUint32 (bitxor (Zip.tableAt (bitand (bitxor c byte) 0xff)) (ushr c 8))
  = crcByte (toUint32 c) byte.
Proof.
  intros Hb. pose proof (toUint32_range c) as Hc.
  rewrite crcByte_table by assumption.
  rewrite toUint32_bitxor.
  change 0xff with (Z.ones 8). rewrite bitand_ones by lia.
  rewrite toUint32_bitxor, (toUint32_small byte) by lia.
  change (2 ^ 8) with 256.
  rewrite ushr_div by lia. change (2 ^ 8) with 256.
  assert (Hx : 0 <= Z.lxor (toUint32 c) byte mod 256 < 256)
    by (apply Z.mod_pos_bound; lia).
  rewrite (toUint32_small (Zip.tableAt _)).
  - rewrite (toUint32_small (toUint32 c / 256))
      by (Z.div_mod_to_equations; lia).
    reflexivity.
  - rewrite tableAt_crcBit by assumption.
    apply iter_crcBit_range. lia.
Qed.

(** X1 ([crc32] and [makeCRC32Table]). On bytes, the table-driven [crc32]
    computes the reflected CRC-32 with polynomial [0xedb88320] obtained by
    processing the input bit by bit, and the result is an unsigned 32-bit
    integer. *)
Theorem crc32_bitwise (u8 : list Z) :
  Forall isByte u8 ->
  Zip.crc32 u8 = crcBitwise u8 /\ 0 <= Zip.crc32 u8 < 2 ^ 32.
Proof.
  intros Hbytes. unfold Zip.crc32, crcBitwise.
  assert (Hfold : forall c c',
            toUint32 c = c' ->
            toUint32
              (fold_left
                 (fun c byte =>
                    bitxor (Zip.tableAt (bitand (bitxor c byte) 0xff))
                      (ushr c 8)) u8 c)
            = fold_left crcByte u8 c').
  { induction Hbytes as [|b u8 Hb _ IH]; intros c c' Hc; [exact Hc|].
    cbn [fold_left]. apply IH. rewrite <- Hc. apply crc32_step. exact Hb. }
  specialize (Hfold 0xffffffff 0xffffffff eq_refl).
  rewrite ushr_div by lia. change (2 ^ 0) with 1. rewrite Z.div_1_r.
  rewrite toUint32_bitxor, Hfold.
  split; [reflexivity|].
  rewrite <- Hfold, <- toUint32_lxor. apply toUint32_range.
Qed.

Lemma lor_shifted a b k :
  0 <= k -> 0 <= b < 2 ^ k -> Z.lor (a * 2 ^ k) b = a * 2 ^ k + b.
Proof.
  intros Hk Hb.
  rewrite <- Z.add_lor_land.
  assert (Hl : Z.land (a * 2 ^ k) b = 0).
  { apply Z.bits_inj'. intros n Hn. rewrite Z.land_spec, Z.bits_0.
    destruct (Z.lt_ge_cases n k) as [Hlt|Hge].
    - rewrite Z.mul_pow2_bits_low by lia. reflexivity.
    - rewrite <- (Z.mod_small b (2 ^ k)) by lia.
      rewrite Z.mod_pow2_bits_high by lia. apply andb_false_r. }
  rewrite Hl. lia.
Qed.

Lemma shl_small a n :
  0 <= n < 32 -> -2147483648 <= a * 2 ^ n < 2147483648 ->
  -2147483648 <= a < 2147483648 ->
  shl a n = a * 2 ^ n.
Proof.
  intros Hn Hr Ha. unfold shl.
  rewrite Z.mod_small, (toInt32_id a) by lia.
  rewrite Z.shiftl_mul_pow2 by lia. apply toInt32_id. exact Hr.
Qed.

Lemma bitor_small a b :
  -2147483648 <= a < 2147483648 -> -2147483648 <= b < 2147483648 ->
  bitor a b = Z.lor a b.
Proof. intros Ha Hb. unfold bitor. rewrite !toInt32_id by lia. reflexivity. Qed.

Lemma Math_floor_half z : Math_floor (inject_Z z / 2) = z / 2.
Proof. unfold Math_floor. symmetry. apply (Zdiv_Qdiv z 2). Qed.

(** X2 ([dateToDos]). For a date from 1980 to 2107 the two words fit in
    16 bits and hold the fields of the date: decoding them gives back the
    year, the month counted from 1, the day, the hours, the minutes, and
    the seconds rounded down to an even number. *)
Theorem dateToDos_decode (dt : Zip.Date) :
  dateInRange dt -> 1980 <= Zip.getFullYear dt <= 2107 ->
  let '(dosTime, dosDate) := Zip.dateToDos dt in
  0 <= dosTime < 2 ^ 16 /\ 0 <= dosDate < 2 ^ 16 /\
  dosYear dosDate = Zip.getFullYear dt /\
  dosMonth dosDate = Zip.getMonth dt + 1 /\
  dosDay dosDate = Zip.getDate dt /\
  dosHours dosTime = Zip.getHours dt /\
  dosMinutes dosTime = Zip.getMinutes dt /\
  dosSeconds dosTime = 2 * (Zip.getSeconds dt / 2).
Proof.
  intros (Hmon & Hday & Hhrs & Hmin & Hsec) Hyear.
  unfold Zip.dateToDos. rewrite Math_floor_half.
  set (year := Zip.getFullYear dt) in *. set (mon := Zip.getMonth dt) in *.
  set (day := Zip.getDate dt) in *. set (hrs := Zip.getHours dt) in *.
  set (min := Zip.getMinutes dt) in *. set (sec := Zip.getSeconds dt) in *.
  assert (Hs2 : 0 <= sec / 2 <= 29) by (Z.div_mod_to_equations; lia).
  rewrite (shl_small hrs 11), (shl_small min 5), (shl_small (year - 1980) 9),
    (shl_small (mon + 1) 5) by lia.
  change (2 ^ 11) with 2048. change (2 ^ 5) with 32. change (2 ^ 9) with 512.
  assert (Ht1 : Z.lor (hrs * 2048) (min * 32) = hrs * 2048 + min * 32)
    by (apply (lor_shifted hrs (min * 32) 11); lia).
  assert (Ht2 : Z.lor (hrs * 2048 + min * 32) (sec / 2)
                = hrs * 2048 + min * 32 + sec / 2).
  { replace (hrs * 2048 + min * 32) with ((hrs * 64 + min) * 2 ^ 5) by lia.
    apply lor_shifted; lia. }
  assert (Hd1 : Z.lor ((year - 1980) * 512) ((mon + 1) * 32)
                = (year - 1980) * 512 + (mon + 1) * 32)
    by (apply (lor_shifted (year - 1980) ((mon + 1) * 32) 9); lia).
  assert (Hd2 : Z.lor ((year - 1980) * 512 + (mon + 1) * 32) day
                = (year - 1980) * 512 + (mon + 1) * 32 + day).
  { replace ((year - 1980) * 512 + (mon + 1) * 32)
      with (((year - 1980) * 16 + (mon + 1)) * 2 ^ 5) by lia.
    apply lor_shifted; lia. }
  rewrite (bitor_small (hrs * 2048)), Ht1 by lia.
  rewrite bitor_small, Ht2 by lia.
  rewrite (bitor_small ((year - 1980) * 512)), Hd1 by lia.
  rewrite bitor_small, Hd2 by lia.
  unfold dosYear, dosMonth, dosDay, dosHours, dosMinutes, dosSeconds.
  change (Z.land ?x 63) with (Z.land x (Z.ones 6)).
  change (Z.land ?x 15) with (Z.land x (Z.ones 4)).
  change (Z.land ?x 31) with (Z.land x (Z.ones 5)).
  rewrite !Z.land_ones, !Z.shiftr_div_pow2 by lia.
  change (2 ^ 16) with 65536. change (2 ^ 11) with 2048.
  change (2 ^ 9) with 512. change (2 ^ 6) with 64. change (2 ^ 5) with 32.
  change (2 ^ 4) with 16.
  repeat split; Z.div_mod_to_equations; lia.
Qed.

Lemma getZ_app_r (a b : list Z) (k : Z) :
  0 <= k -> getZ (a ++ b) (Z.of_nat (length a) + k) = getZ b k.
Proof.
  intros Hk. unfold getZ.
  destruct (Z.of_nat (length a) + k <? 0) eqn:E1;
    [apply Z.ltb_lt in E1; lia|].
  destruct (k <? 0) eqn:E2; [apply Z.ltb_lt in E2; lia|].
  rewrite lookup_app_r by lia. f_equal. lia.
Qed.

Lemma getUint32_app_r (a b : list Z) (k : Z) :
  0 <= k ->
  Zip.getUint32 (a ++ b) (Z.of_nat (length a) + k) = Zip.getUint32 b k.
Proof.
  intros Hk. unfold Zip.getUint32.
  rewrite <- !Z.add_assoc, !getZ_app_r by lia. reflexivity.
Qed.

Lemma getUint16_app_r (a b : list Z) (k : Z) :
  0 <= k ->
  Zip.getUint16 (a ++ b) (Z.of_nat (length a) + k) = Zip.getUint16 b k.
Proof.
  intros Hk. unfold Zip.getUint16.
  rewrite <- !Z.add_assoc, !getZ_app_r by lia. reflexivity.
Qed.

Lemma le32_recompose v :
  0 <= v < 4294967296 ->
  v mod 256 + 256 * (v / 256 mod 256) + 65536 * (v / 65536 mod 256)
  + 16777216 * (v / 16777216 mod 256) = v.
Proof. intros H. Z.div_mod_to_equations. lia. Qed.

Lemma le16_recompose v :
  0 <= v < 65536 -> v mod 256 + 256 * (v / 256 mod 256) = v.
Proof. intros H. Z.div_mod_to_equations. lia. Qed.

Lemma toUint16_range z : 0 <= toUint16 z < 65536.
Proof.
  unfold toUint16. change (2 ^ 16) with 65536. apply Z.mod_pos_bound. lia.
Qed.

Lemma ushr_0 z : ushr z 0 = toUint32 z.
Proof.
  rewrite ushr_div by lia. change (2 ^ 0) with 1. apply Z.div_1_r.
Qed.

Lemma localHeader_bytes n c s t d :
  Zip.localHeader n c s t d
  = le32 0x04034b50 ++ le16 20 ++ le16 0 ++ le16 0 ++ le16 t ++ le16 d
    ++ le32 c ++ le32 s ++ le32 s ++ le16 n ++ le16 0.
Proof. reflexivity. Qed.

Lemma centralHeader_bytes r :
  Zip.centralHeader r
  = le32 0x02014b50 ++ le16 20 ++ le16 20 ++ le16 0 ++ le16 0
    ++ le16 (Zip.dosTime r) ++ le16 (Zip.dosDate r) ++ le32 (Zip.crc r)
    ++ le32 (Zip.size r) ++ le32 (Zip.size r)
    ++ le16 (Z.of_nat (length (Zip.nameBytes r)))
    ++ le16 0 ++ le16 0 ++ le16 0 ++ le16 0 ++ le32 0
    ++ le32 (Zip.offset r).
Proof. reflexivity. Qed.

Lemma endOfCentralDirectory_bytes count csize cstart :
  Zip.endOfCentralDirectory count csize cstart
  = le32 0x06054b50 ++ le16 0 ++ le16 0 ++ le16 count ++ le16 count
    ++ le32 csize ++ le32 cstart ++ le16 0.
Proof. reflexivity. Qed.

Lemma getZ_drop (a : list Z) (k : nat) (i : Z) :
  0 <= i -> getZ a (Z.of_nat k + i) = getZ (drop k a) i.
Proof.
  intros Hi. unfold getZ.
  destruct (Z.of_nat k + i <? 0) eqn:E1; [apply Z.ltb_lt in E1; lia|].
  destruct (i <? 0) eqn:E2; [apply Z.ltb_lt in E2; lia|].
  rewrite lookup_drop. f_equal. lia.
Qed.

Lemma getUint32_drop (a : list Z) (k : nat) :
  Zip.getUint32 a (Z.of_nat k) = Zip.getUint32 (drop k a) 0.
Proof.
  unfold Zip.getUint32.
  rewrite <- !getZ_drop by lia. rewrite Z.add_0_r. reflexivity.
Qed.

Lemma getUint16_drop (a : list Z) (k : nat) :
  Zip.getUint16 a (Z.of_nat k) = Zip.getUint16 (drop k a) 0.
Proof.
  unfold Zip.getUint16.
  rewrite <- !getZ_drop by lia. rewrite Z.add_0_r. reflexivity.
Qed.

Lemma getUint32_cons4 b0 b1 b2 b3 rest :
  Zip.getUint32 (b0 :: b1 :: b2 :: b3 :: rest) 0
  = Some (b0 + 256 * b1 + 65536 * b2 + 16777216 * b3).
Proof. reflexivity. Qed.

Lemma getUint16_cons2 b0 b1 rest :
  Zip.getUint16 (b0 :: b1 :: rest) 0 = Some (b0 + 256 * b1).
Proof. reflexivity. Qed.

Lemma getUint32_le32 v rest :
  Zip.getUint32 (le32 v ++ rest) 0 = Some (toUint32 v).
Proof.
  unfold Zip.getUint32, le32, getZ. cbn [app Z.ltb Z.compare Z.add Z.to_nat
    Pos.to_nat Pos.iter_op Nat.add lookup list_lookup].
  f_equal. apply le32_recompose. apply toUint32_range.
Qed.

Lemma getUint16_le16 v rest :
  Zip.getUint16 (le16 v ++ rest) 0 = Some (toUint16 v).
Proof.
  unfold Zip.getUint16, le16, getZ. cbn [app Z.ltb Z.compare Z.add Z.to_nat
    Pos.to_nat Pos.iter_op Nat.add lookup list_lookup].
  f_equal. apply le16_recompose. apply toUint16_range.
Qed.

Lemma storeFile_fold now files lp recs off :
  fold_left (Zip.storeFile now) files (lp, recs, off)
  = (lp ++ flat_map (localPart now) files,
     recs ++ entriesFrom now off files,
     off + fold_right
             (fun f n => 30 + Z.of_nat (length (Zip.name f))
                         + ushr (Z.of_nat (length (Zip.data f))) 0 + n)
             0 files).
Proof.
  revert lp recs off. induction files as [|f files IH]; intros lp recs off.
  - cbn. rewrite !app_nil_r, Z.add_0_r. reflexivity.
  - cbn [fold_left flat_map entriesFrom fold_right].
    unfold Zip.storeFile at 2.
    destruct (Zip.dateToDos (default now (Zip.date f))) as [t d] eqn:E.
    rewrite IH. f_equal; [f_equal|].
    + unfold localPart, entryOf. rewrite E. cbn [fst snd Zip.crc Zip.size
        Zip.dosTime Zip.dosDate]. rewrite <- !app_assoc. reflexivity.
    + unfold entryOf. rewrite E. cbn [fst snd].
      rewrite <- app_assoc. reflexivity.
    + lia.
Qed.

Lemma listFile_fold recs cp off :
  fold_left Zip.listFile recs (cp, off)
  = (cp ++ flat_map centralPart recs,
     off + fold_right
             (fun r n => 46 + Z.of_nat (length (Zip.nameBytes r)) + n)
             0 recs).
Proof.
  revert cp off. induction recs as [|r recs IH]; intros cp off.
  - cbn. rewrite app_nil_r, Z.add_0_r. reflexivity.
  - cbn [fold_left flat_map fold_right]. unfold Zip.listFile at 2.
    rewrite IH. f_equal.
    + unfold centralPart. rewrite <- !app_assoc. reflexivity.
    + lia.
Qed.

Lemma jsLocalSize_total files :
  smallFiles files ->
  fold_right
    (fun f n => 30 + Z.of_nat (length (Zip.name f))
                + ushr (Z.of_nat (length (Zip.data f))) 0 + n) 0 files
  = total localSize files.
Proof.
  induction 1 as [|f files Hf _ IH]; [reflexivity|].
  cbn [fold_right total]. unfold total in IH. rewrite IH.
  unfold localSize. rewrite ushr_0, toUint32_small; [reflexivity|].
  change (2 ^ 32) with 4294967296 in Hf. lia.
Qed.

Lemma entriesFrom_names now off files :
  fold_right (fun r n => 46 + Z.of_nat (length (Zip.nameBytes r)) + n) 0
    (entriesFrom now off files)
  = total centralSize files.
Proof.
  revert off. induction files as [|f files IH]; intros off; [reflexivity|].
  cbn [entriesFrom fold_right total]. rewrite IH. reflexivity.
Qed.

Lemma entriesFrom_length now off files :
  length (entriesFrom now off files) = length files.
Proof.
  revert off. induction files as [|f files IH]; intros off; [reflexivity|].
  cbn [entriesFrom length]. rewrite IH. reflexivity.
Qed.

Lemma entriesFrom_app now off pre post :
  smallFiles pre ->
  entriesFrom now off (pre ++ post)
  = entriesFrom now off pre
    ++ entriesFrom now (off + total localSize pre) post.
Proof.
  intros Hs. revert off. induction Hs as [|f pre Hf _ IH]; intros off.
  - cbn. rewrite Z.add_0_r. reflexivity.
  - cbn [app entriesFrom total fold_right]. rewrite IH. do 3 f_equal.
    unfold localSize. rewrite ushr_0, toUint32_small.
    + unfold total, localSize. lia.
    + change (2 ^ 32) with 4294967296 in Hf. lia.
Qed.

Lemma localHeader_length n c s t d : length (Zip.localHeader n c s t d) = 30%nat.
Proof. reflexivity. Qed.

Lemma centralHeader_length r : length (Zip.centralHeader r) = 46%nat.
Proof. reflexivity. Qed.

Lemma localPart_length now f :
  Z.of_nat (length (localPart now f)) = localSize f.
Proof.
  unfold localPart, localSize.
  rewrite !length_app, localHeader_length. lia.
Qed.

Lemma localParts_length now files :
  Z.of_nat (length (flat_map (localPart now) files)) = total localSize files.
Proof.
  induction files as [|f files IH]; [reflexivity|].
  cbn [flat_map total fold_right]. rewrite length_app, Nat2Z.inj_add.
  rewrite localPart_length. unfold total in IH. rewrite IH. reflexivity.
Qed.

Lemma centralParts_length now off files :
  Z.of_nat (length (flat_map centralPart (entriesFrom now off files)))
  = total centralSize files.
Proof.
  revert off. induction files as [|f files IH]; intros off; [reflexivity|].
  cbn [entriesFrom flat_map total fold_right].
  rewrite length_app, Nat2Z.inj_add, IH.
  unfold centralPart, centralSize.
  rewrite length_app, centralHeader_length. unfold entryOf, total.
  cbn [Zip.nameBytes]. lia.
Qed.

Lemma zipFiles_unfold now files :
  smallFiles files ->
  Zip.zipFiles now files
  = flat_map (localPart now) files
    ++ flat_map centralPart (entriesFrom now 0 files)
    ++ Zip.endOfCentralDirectory (Z.of_nat (length files))
         (total centralSize files) (total localSize files).
Proof.
  intros Hs. unfold Zip.zipFiles.
  rewrite storeFile_fold. cbn [app]. rewrite listFile_fold. cbn [app].
  rewrite jsLocalSize_total, entriesFrom_names, entriesFrom_length by assumption.
  do 3 f_equal. lia.
Qed.

Lemma total_app size pre post :
  total size (pre ++ post) = total size pre + total size post.
Proof.
  unfold total. induction pre as [|f pre IH]; [reflexivity|].
  cbn [app fold_right]. rewrite IH. lia.
Qed.

Lemma total_cons size f files :
  total size (f :: files) = size f + total size files.
Proof. reflexivity. Qed.

Lemma total_nonneg size files :
  (forall f, 0 <= size f) -> 0 <= total size files.
Proof.
  intros H. unfold total. induction files as [|f files IH]; [reflexivity|].
  cbn [fold_right]. specialize (H f). lia.
Qed.

Lemma crc32_range u8 : 0 <= Zip.crc32 u8 < 4294967296.
Proof. unfold Zip.crc32. rewrite ushr_0. apply toUint32_range. Qed.

(** X3 ([zipFiles]: a stored file). In the archive of files of less than
    4 GiB each, a file is stored after the files that precede it: at its
    offset stands a local header (signature, CRC-32 and length of the data)
    followed by the name and the data unchanged; and its entry of the
    central directory, which comes after all the local parts, records that
    offset, as long as the offset fits in 32 bits. *)
Theorem zipFiles_entry (now : Zip.Date) (pre : list Zip.File) (f : Zip.File)
    (post : list Zip.File) :
  smallFiles (pre ++ f :: post) ->
  total localSize pre < 2 ^ 32 ->
  let blob := Zip.zipFiles now (pre ++ f :: post) in
  let offset := total localSize pre in
  let central := total localSize (pre ++ f :: post) + total centralSize pre in
  Zip.getUint32 blob offset = Some 0x04034b50 /\
  Zip.getUint32 blob (offset + 14) = Some (Zip.crc32 (Zip.data f)) /\
  Zip.getUint32 blob (offset + 18)
  = Some (Z.of_nat (length (Zip.data f))) /\
  take (length (Zip.name f)) (drop (Z.to_nat (offset + 30)) blob)
  = Zip.name f /\
  take (length (Zip.data f))
    (drop (Z.to_nat (offset + 30) + length (Zip.name f)) blob)
  = Zip.data f /\
  Zip.getUint32 blob central = Some 0x02014b50 /\
  Zip.getUint32 blob (central + 42) = Some offset.
Proof.
  intros Hs Hoff blob offset central. subst blob.
  assert (Hpre : smallFiles pre) by (apply Forall_app in Hs; tauto).
  assert (Hf : Z.of_nat (length (Zip.data f)) < 4294967296).
  { apply Forall_app in Hs. destruct Hs as [_ Hs].
    apply Forall_cons in Hs. destruct Hs as [Hf _].
    change (2 ^ 32) with 4294967296 in Hf. exact Hf. }
  assert (Hoff0 : 0 <= offset).
  { apply total_nonneg. intros g. unfold localSize. lia. }
  change (2 ^ 32) with 4294967296 in Hoff.
  rewrite zipFiles_unfold by assumption.
  rewrite flat_map_app. cbn [flat_map].
  rewrite entriesFrom_app by assumption. cbn [entriesFrom].
  rewrite flat_map_app. cbn [flat_map]. rewrite Z.add_0_l.
  fold offset.
  set (lpre := flat_map (localPart now) pre).
  assert (Hlpre : Z.of_nat (length lpre) = offset) by apply localParts_length.
  set (lpost := flat_map (localPart now) post).
  set (cpre := flat_map centralPart (entriesFrom now 0 pre)).
  assert (Hcpre : Z.of_nat (length cpre) = total centralSize pre)
    by apply centralParts_length.
  set (cpost := flat_map centralPart _).
  set (eocd := Zip.endOfCentralDirectory _ _ _).
  assert (Hcentral :
            central = Z.of_nat (length (lpre ++ localPart now f ++ lpost)
                                + length cpre)).
  { subst central. rewrite Nat2Z.inj_add, Hcpre. f_equal.
    rewrite !length_app, !Nat2Z.inj_add, Hlpre, localPart_length.
    unfold lpost. rewrite localParts_length, total_app, total_cons.
    fold offset. lia. }
  rewrite <- !app_assoc.
  assert (Hgroup : forall rest,
            lpre ++ localPart now f ++ lpost ++ cpre ++ rest
            = ((lpre ++ localPart now f ++ lpost) ++ cpre) ++ rest)
    by (intros rest; rewrite <- !app_assoc; reflexivity).
  rewrite <- length_app in Hcentral.
  repeat split.
  - rewrite <- Hlpre, <- (Z.add_0_r (Z.of_nat (length lpre))).
    rewrite getUint32_app_r by lia. reflexivity.
  - rewrite <- Hlpre. rewrite getUint32_app_r by lia.
    unfold localPart. rewrite localHeader_bytes.
    rewrite (getUint32_drop _ 14). cbn [le32 le16 app skipn].
    rewrite getUint32_cons4, le32_recompose by apply toUint32_range.
    cbn [entryOf Zip.crc].
    rewrite toUint32_small by apply crc32_range. reflexivity.
  - rewrite <- Hlpre. rewrite getUint32_app_r by lia.
    unfold localPart. rewrite localHeader_bytes.
    rewrite (getUint32_drop _ 18). cbn [le32 le16 app skipn].
    rewrite getUint32_cons4, le32_recompose by apply toUint32_range.
    cbn [entryOf Zip.size].
    rewrite ushr_0, !toUint32_small by (rewrite ?toUint32_small; lia).
    reflexivity.
  - replace (Z.to_nat (offset + 30)) with (length lpre + 30)%nat by lia.
    rewrite <- drop_drop, drop_app_length.
    unfold localPart at 1. rewrite <- !app_assoc.
    rewrite drop_app_length' by reflexivity.
    apply take_app_length.
  - replace (Z.to_nat (offset + 30) + length (Zip.name f))%nat
      with (length lpre + (30 + length (Zip.name f)))%nat by lia.
    rewrite <- drop_drop, drop_app_length.
    unfold localPart at 1. rewrite <- !app_assoc.
    rewrite <- drop_drop.
    rewrite drop_app_length' by reflexivity.
    rewrite drop_app_length. apply take_app_length.
  - rewrite Hgroup, Hcentral.
    rewrite <- (Z.add_0_r (Z.of_nat _)).
    rewrite getUint32_app_r by lia. reflexivity.
  - rewrite Hgroup, Hcentral.
    rewrite getUint32_app_r by lia.
    unfold centralPart. rewrite centralHeader_bytes.
    rewrite (getUint32_drop _ 42). cbn [le32 le16 app skipn].
    rewrite getUint32_cons4, le32_recompose by apply toUint32_range.
    cbn [entryOf Zip.offset].
    rewrite toUint32_small by lia. reflexivity.
Qed.

(** X4 ([zipFiles]: the end record). The archive of files of less than
    4 GiB each consists of the local parts, the central directory and the
    22 bytes of the end record, which holds the number of files modulo
    [2 ^ 16] twice, and the size and the start of the central directory
    modulo [2 ^ 32]. *)
Theorem zipFiles_end (now : Zip.Date) (files : list Zip.File) :
  smallFiles files ->
  let blob := Zip.zipFiles now files in
  let centralStart := total localSize files in
  let eocd := centralStart + total centralSize files in
  Z.of_nat (length blob) = eocd + 22 /\
  Zip.getUint32 blob eocd = Some 0x06054b50 /\
  Zip.getUint16 blob (eocd + 8) = Some (toUint16 (Z.of_nat (length files))) /\
  Zip.getUint16 blob (eocd + 10) = Some (toUint16 (Z.of_nat (length files))) /\
  Zip.getUint32 blob (eocd + 12) = Some (toUint32 (total centralSize files)) /\
  Zip.getUint32 blob (eocd + 16) = Some (toUint32 centralStart).
Proof.
  intros Hs blob centralStart eocd. subst blob.
  rewrite zipFiles_unfold by assumption.
  set (lp := flat_map (localPart now) files).
  set (cp := flat_map centralPart (entriesFrom now 0 files)).
  assert (Hlp : Z.of_nat (length lp) = centralStart)
    by apply localParts_length.
  assert (Hcp : Z.of_nat (length cp) = total centralSize files)
    by apply centralParts_length.
  assert (Heocd : eocd = Z.of_nat (length (lp ++ cp))).
  { rewrite length_app, Nat2Z.inj_add, Hlp, Hcp. reflexivity. }
  rewrite app_assoc, Heocd. fold centralStart.
  rewrite endOfCentralDirectory_bytes.
  repeat split.
  - rewrite length_app. cbn [le32 le16 app length]. lia.
  - rewrite <- (Z.add_0_r (Z.of_nat (length (lp ++ cp)))).
    rewrite getUint32_app_r by lia. apply getUint32_le32.
  - rewrite getUint16_app_r by lia.
    rewrite (getUint16_drop _ 8). cbn [le32 le16 app skipn].
    rewrite getUint16_cons2, le16_recompose by apply toUint16_range.
    reflexivity.
  - rewrite getUint16_app_r by lia.
    rewrite (getUint16_drop _ 10). cbn [le32 le16 app skipn].
    rewrite getUint16_cons2, le16_recompose by apply toUint16_range.
    reflexivity.
  - rewrite getUint32_app_r by lia.
    rewrite (getUint32_drop _ 12). cbn [le32 le16 app skipn].
    rewrite getUint32_cons4, le32_recompose by apply toUint32_range.
    reflexivity.
  - rewrite getUint32_app_r by lia.
    rewrite (getUint32_drop _ 16). cbn [le32 le16 app skipn].
    rewrite getUint32_cons4, le32_recompose by apply toUint32_range.
    reflexivity.
Qed.

(** ** [js/imageProcessing.js] *)

Lemma toUint8Clamp_range q : 0 <= toUint8Clamp q <= 255.
Proof.
  unfold toUint8Clamp.
  destruct (Qle_bool q 0) eqn:E0; [lia|].
  destruct (Qle_bool 255 q) eqn:E1; [lia|].
  assert (H0 : (0 < q)%Q).
  { apply Qnot_le_lt. intros H. apply Qle_bool_iff in H. congruence. }
  assert (H1 : (q < 255)%Q).
  { apply Qnot_le_lt. intros H. apply Qle_bool_iff in H. congruence. }
  pose proof (Qfloor_le q) as Hf. pose proof (Qlt_floor q) as Hc.
  assert (Hlo : 0 <= Qfloor q).
  { assert (H : (inject_Z 0 < inject_Z (Qfloor q + 1))%Q)
      by (eapply Qlt_trans; [exact H0|exact Hc]).
    rewrite <- Zlt_Qlt in H. lia. }
  assert (Hhi : Qfloor q < 255).
  { assert (H : (inject_Z (Qfloor q) < inject_Z 255)%Q)
      by (eapply Qle_lt_trans; [exact Hf|exact H1]).
    rewrite <- Zlt_Qlt in H. exact H. }
  cbv zeta.
  destruct (q - inject_Z (Qfloor q) ?= 1 # 2)%Q; [destruct (Z.even _)|..];
    lia.
Qed.

Lemma toUint8Clamp_comp q q' : (q == q')%Q -> toUint8Clamp q = toUint8Clamp q'.
Proof.
  intros H. unfold toUint8Clamp.
  rewrite (Qleb_comp q q' H 0%Q 0%Q (Qeq_refl 0)).
  rewrite (Qleb_comp 255%Q 255%Q (Qeq_refl 255) q q' H).
  rewrite (Qfloor_comp q q' H).
  assert (Hc : (q - inject_Z (Qfloor q') ?= 1 # 2)%Q
               = (q' - inject_Z (Qfloor q') ?= 1 # 2)%Q).
  { apply Qcompare_comp; [|reflexivity]. rewrite H. reflexivity. }
  cbv zeta. rewrite Hc. reflexivity.
Qed.

Lemma toUint8Clamp_int q b :
  (q == inject_Z b)%Q -> isByte b -> toUint8Clamp q = b.
Proof.
  intros H Hb. red in Hb. rewrite (toUint8Clamp_comp _ _ H).
  unfold toUint8Clamp.
  destruct (Qle_bool (inject_Z b) 0) eqn:E0.
  { apply Qle_bool_iff in E0. change 0%Q with (inject_Z 0) in E0.
    rewrite <- Zle_Qle in E0. lia. }
  destruct (Qle_bool 255 (inject_Z b)) eqn:E1.
  { apply Qle_bool_iff in E1. change 255%Q with (inject_Z 255) in E1.
    rewrite <- Zle_Qle in E1. lia. }
  rewrite Qfloor_Z. cbv zeta.
  assert (Hlt : (inject_Z b - inject_Z b ?= 1 # 2)%Q = Lt).
  { rewrite <- Qlt_alt. lra. }
  rewrite Hlt. reflexivity.
Qed.

Lemma clamp_in_range q : (0 <= q <= 255)%Q -> (clamp q 0 255 == q)%Q.
Proof.
  intros [H0 H1]. unfold clamp.
  rewrite (Q.max_l q 0 H0). apply Q.min_l. exact H1.
Qed.

Lemma clamp_comp q q' lo hi : (q == q')%Q -> (clamp q lo hi == clamp q' lo hi)%Q.
Proof. intros H. unfold clamp. rewrite H. reflexivity. Qed.

Lemma storeClamped_comp q q' :
  (q == q')%Q -> storeClamped (Some q) = storeClamped (Some q').
Proof.
  intros H. unfold storeClamped. cbn [option_map storeByte].
  apply toUint8Clamp_comp, clamp_comp, H.
Qed.

Lemma storeClamped_byte q b :
  (q == inject_Z b)%Q -> isByte b -> storeClamped (Some q) = b.
Proof.
  intros H Hb. rewrite (storeClamped_comp _ _ H).
  unfold storeClamped. cbn [option_map storeByte].
  apply toUint8Clamp_int; [|exact Hb].
  apply clamp_in_range. red in Hb.
  change 0%Q with (inject_Z 0). change 255%Q with (inject_Z 255).
  rewrite <- !Zle_Qle. lia.
Qed.

Lemma storeClamped_isByte v : isByte (storeClamped v).
Proof.
  unfold storeClamped, isByte. destruct v as [q|]; cbn [option_map storeByte].
  - pose proof (toUint8Clamp_range (clamp q 0 255)). lia.
  - lia.
Qed.

(** Induction on a typed array four elements at a time. *)
Lemma pixels_ind (P : list Z -> Prop) :
  P [] -> (forall r, P [r]) -> (forall r g, P [r; g]) ->
  (forall r g b, P [r; g; b]) ->
  (forall r g b a rest, P rest -> P (r :: g :: b :: a :: rest)) ->
  forall data, P data.
Proof.
  intros H0 H1 H2 H3 H4.
  fix IH 1. intros [|r [|g [|b [|a rest]]]].
  - exact H0.
  - apply H1.
  - apply H2.
  - apply H3.
  - apply H4, IH.
Qed.

Lemma adjustments_frame (imageData : ImageData) (factor : Q) :
  Forall
    (fun out =>
       width out = width imageData /\ height out = height imageData /\
       length (data out) = length (data imageData) /\
       forall i : nat, (i mod 4 = 3)%nat ->
         data out !! i = data imageData !! i)
    [ImageProcessing.adjustBrightness imageData factor;
     ImageProcessing.adjustContrast imageData factor;
     ImageProcessing.adjustSaturation imageData factor].
Proof.
  assert (Hshort : forall (l l' : list Z) (i : nat),
            length l' = length l -> (length l < 4)%nat -> (i mod 4 = 3)%nat ->
            l' !! i = l !! i).
  { intros l l' i Hlen Hl Hi.
    assert (3 <= i)%nat.
    { pose proof (Nat.Div0.mod_le i 4). lia. }
    rewrite !lookup_ge_None_2 by lia. reflexivity. }
  assert (Hstep : forall (r g b a r' g' b' : Z) (rest rest' : list Z) (i : nat),
            (forall i, (i mod 4 = 3)%nat -> rest' !! i = rest !! i) ->
            (i mod 4 = 3)%nat ->
            (r' :: g' :: b' :: a :: rest') !! i
            = (r :: g :: b :: a :: rest) !! i).
  { intros r g b a r' g' b' rest rest' i IH Hi.
    destruct i as [|[|[|[|i]]]]; try discriminate; [reflexivity|].
    cbn [lookup list_lookup]. apply IH.
    replace (S (S (S (S i)))) with (i + 1 * 4)%nat in Hi by lia.
    rewrite Nat.Div0.mod_add in Hi. exact Hi. }
  destruct imageData as [w h d].
  unfold ImageProcessing.adjustBrightness, ImageProcessing.adjustContrast,
    ImageProcessing.adjustSaturation.
  repeat constructor; cbn [width height data].
  - induction d as [| | | |r g b a rest IH] using pixels_ind; reflexivity || idtac.
    cbn [ImageProcessing.brightnessLoop length]. rewrite IH. reflexivity.
  - induction d as [| | | |r g b a rest IH] using pixels_ind; intros i Hi;
      try (apply Hshort; [reflexivity|cbn; lia|exact Hi]).
    cbn [ImageProcessing.brightnessLoop]. apply Hstep; assumption.
  - induction d as [| | | |r g b a rest IH] using pixels_ind; reflexivity || idtac.
    cbn [ImageProcessing.contrastLoop length]. rewrite IH. reflexivity.
  - induction d as [| | | |r g b a rest IH] using pixels_ind; intros i Hi;
      try (apply Hshort; [reflexivity|cbn; lia|exact Hi]).
    cbn [ImageProcessing.contrastLoop]. apply Hstep; assumption.
  - induction d as [| | | |r g b a rest IH] using pixels_ind; reflexivity || idtac.
    cbn [ImageProcessing.saturationLoop length]. rewrite IH. reflexivity.
  - induction d as [| | | |r g b a rest IH] using pixels_ind; intros i Hi;
      try (apply Hshort; [reflexivity|cbn; lia|exact Hi]).
    cbn [ImageProcessing.saturationLoop]. apply Hstep; assumption.
Qed.

(** X5 ([adjustBrightness], [adjustContrast], [adjustSaturation]). Each
    adjustment keeps the sides of the image, the number of bytes and every
    alpha byte (the bytes at the indices 3, 7, 11, ...), whatever the
    factor and whatever the length of the data. *)
Theorem adjustments_keep_alpha (imageData : ImageData) (factor : Q) :
  Forall
    (fun out =>
       width out = width imageData /\ height out = height imageData /\
       length (data out) = length (data imageData) /\
       forall i : nat, (i mod 4 = 3)%nat ->
         data out !! i = data imageData !! i)
    [ImageProcessing.adjustBrightness imageData factor;
     ImageProcessing.adjustContrast imageData factor;
     ImageProcessing.adjustSaturation imageData factor].
Proof. exact (adjustments_frame imageData factor). Qed.


Lemma brightnessLoop_bytes f d :
  Forall isByte d -> Forall isByte (ImageProcessing.brightnessLoop f d).
Proof.
  induction d as [| | | |r g b a rest IH] using pixels_ind; intros H;
    try solve [cbn [ImageProcessing.brightnessLoop
                    ImageProcessing.contrastLoop map];
               repeat (constructor; try apply storeClamped_isByte)].
  cbn [ImageProcessing.brightnessLoop].
  repeat (apply List.Forall_cons; [apply storeClamped_isByte|]).
  do 3 apply List.Forall_inv_tail in H. inversion H; subst.
  apply List.Forall_cons; auto.
Qed.

Lemma contrastLoop_bytes f d :
  Forall isByte d -> Forall isByte (ImageProcessing.contrastLoop f d).
Proof.
  induction d as [| | | |r g b a rest IH] using pixels_ind; intros H;
    try solve [cbn [ImageProcessing.brightnessLoop
                    ImageProcessing.contrastLoop map];
               repeat (constructor; try apply storeClamped_isByte)].
  cbn [ImageProcessing.contrastLoop].
  repeat (apply List.Forall_cons; [apply storeClamped_isByte|]).
  do 3 apply List.Forall_inv_tail in H. inversion H; subst.
  apply List.Forall_cons; auto.
Qed.

Lemma brightnessLoop_one f d :
  (f == 1)%Q -> Forall isByte d -> ImageProcessing.brightnessLoop f d = d.
Proof.
  intros Hf.
  assert (Hs : forall c, isByte c ->
            storeClamped (Some (inject_Z c * f)%Q) = c).
  { intros c Hc. apply storeClamped_byte; [|exact Hc]. rewrite Hf. ring. }
  induction d as [| | | |r g b a rest IH] using pixels_ind; intros H;
    try (cbn [ImageProcessing.brightnessLoop map];
         repeat match goal with
                | H : Forall _ (_ :: _) |- _ => inversion H; clear H; subst
                end;
         rewrite ?Hs by assumption; reflexivity).
  cbn [ImageProcessing.brightnessLoop].
  inversion H as [|? ? Hr H1]; subst. inversion H1 as [|? ? Hg H2]; subst.
  inversion H2 as [|? ? Hb H3]; subst. inversion H3 as [|? ? Ha H4]; subst.
  rewrite !Hs, IH by assumption. reflexivity.
Qed.

Lemma contrastLoop_one f d :
  (f == 1)%Q -> Forall isByte d -> ImageProcessing.contrastLoop f d = d.
Proof.
  intros Hf.
  assert (Hs : forall c, isByte c ->
            storeClamped (Some ((inject_Z c - 128) * f + 128)%Q) = c).
  { intros c Hc. apply storeClamped_byte; [|exact Hc]. rewrite Hf. ring. }
  induction d as [| | | |r g b a rest IH] using pixels_ind; intros H;
    try (cbn [ImageProcessing.contrastLoop map];
         repeat match goal with
                | H : Forall _ (_ :: _) |- _ => inversion H; clear H; subst
                end;
         rewrite ?Hs by assumption; reflexivity).
  cbn [ImageProcessing.contrastLoop].
  inversion H as [|? ? Hr H1]; subst. inversion H1 as [|? ? Hg H2]; subst.
  inversion H2 as [|? ? Hb H3]; subst. inversion H3 as [|? ? Ha H4]; subst.
  rewrite !Hs, IH by assumption. reflexivity.
Qed.

Lemma saturationLoop_one f d :
  (f == 1)%Q -> Forall isByte d -> (length d mod 4 = 0)%nat ->
  ImageProcessing.saturationLoop f d = d.
Proof.
  intros Hf.
  induction d as [| | | |r g b a rest IH] using pixels_ind; intros H Hlen;
    try discriminate; [reflexivity|].
  cbn [ImageProcessing.saturationLoop].
  inversion H as [|? ? Hr H1]; subst. inversion H1 as [|? ? Hg H2]; subst.
  inversion H2 as [|? ? Hb H3]; subst. inversion H3 as [|? ? Ha H4]; subst.
  cbv zeta.
  rewrite (storeClamped_byte _ r), (storeClamped_byte _ g),
    (storeClamped_byte _ b); try assumption; try (rewrite Hf; ring).
  rewrite IH; [reflexivity|assumption|].
  cbn [length] in Hlen.
  replace (S (S (S (S (length rest))))) with (length rest + 1 * 4)%nat
    in Hlen by lia.
  rewrite Nat.Div0.mod_add in Hlen. exact Hlen.
Qed.

Lemma loops_length f d :
  length (ImageProcessing.brightnessLoop f d) = length d /\
  length (ImageProcessing.contrastLoop f d) = length d.
Proof.
  pose proof (adjustments_frame (mkImageData 0 0 d) f) as H.
  inversion H as [|? ? (_ & _ & H1 & _) H']; subst.
  inversion H' as [|? ? (_ & _ & H2 & _) _]; subst.
  split; assumption.
Qed.

(** X6 ([processImage]). On an image of whole pixels the three tests
    [!== 1.0] only save work: the result is that of the three adjustments
    applied in turn, followed by the sharpening when it is asked for.  An
    adjustment with factor 1 leaves every byte as it is. *)
Theorem processImage_unguarded (imageData : ImageData) (sw sh : Z)
    (config : ImageProcessing.Config) :
  Forall isByte (data imageData) ->
  (length (data imageData) mod 4 = 0)%nat ->
  ImageProcessing.processImage imageData sw sh config
  = let adjusted :=
      ImageProcessing.adjustSaturation
        (ImageProcessing.adjustContrast
           (ImageProcessing.adjustBrightness imageData
              (ImageProcessing.brightness config))
           (ImageProcessing.contrast config))
        (ImageProcessing.saturation config) in
    if ImageProcessing.useSharpening config
    then ImageProcessing.applySharpen adjusted sw sh
    else Some adjusted.
Proof.
  intros Hbytes Hlen. destruct imageData as [w h d]. cbn [data] in *.
  destruct config as [br co sa sharpen].
  unfold ImageProcessing.processImage.
  cbn [ImageProcessing.brightness ImageProcessing.contrast
       ImageProcessing.saturation ImageProcessing.useSharpening].
  assert (E1 : (if negb (Qeq_bool br 1)
                then ImageProcessing.adjustBrightness (mkImageData w h d) br
                else mkImageData w h d)
               = ImageProcessing.adjustBrightness (mkImageData w h d) br).
  { destruct (Qeq_bool br 1) eqn:E; [|reflexivity]. cbn [negb].
    apply Qeq_bool_eq in E. unfold ImageProcessing.adjustBrightness.
    cbn [width height data]. rewrite brightnessLoop_one by assumption.
    reflexivity. }
  rewrite E1. clear E1.
  unfold ImageProcessing.adjustBrightness. cbn [width height data].
  set (d1 := ImageProcessing.brightnessLoop br d).
  assert (Hb1 : Forall isByte d1) by (apply brightnessLoop_bytes; assumption).
  assert (Hl1 : length d1 = length d) by apply loops_length.
  assert (E2 : (if negb (Qeq_bool co 1)
                then ImageProcessing.adjustContrast (mkImageData w h d1) co
                else mkImageData w h d1)
               = ImageProcessing.adjustContrast (mkImageData w h d1) co).
  { destruct (Qeq_bool co 1) eqn:E; [|reflexivity]. cbn [negb].
    apply Qeq_bool_eq in E. unfold ImageProcessing.adjustContrast.
    cbn [width height data]. rewrite contrastLoop_one by assumption.
    reflexivity. }
  rewrite E2. clear E2.
  unfold ImageProcessing.adjustContrast. cbn [width height data].
  set (d2 := ImageProcessing.contrastLoop co d1).
  assert (Hb2 : Forall isByte d2) by (apply contrastLoop_bytes; assumption).
  assert (Hl2 : length d2 = length d1) by apply loops_length.
  assert (E3 : (if negb (Qeq_bool sa 1)
                then ImageProcessing.adjustSaturation (mkImageData w h d2) sa
                else mkImageData w h d2)
               = ImageProcessing.adjustSaturation (mkImageData w h d2) sa).
  { destruct (Qeq_bool sa 1) eqn:E; [|reflexivity]. cbn [negb].
    apply Qeq_bool_eq in E. unfold ImageProcessing.adjustSaturation.
    cbn [width height data]. rewrite saturationLoop_one; try assumption.
    - reflexivity.
    - rewrite Hl2, Hl1. exact Hlen. }
  rewrite E3. reflexivity.
Qed.

(** *** Stores into a typed array *)

Lemma setZ_length i v a : length (setZ i v a) = length a.
Proof. unfold setZ. destruct (i <? 0); [reflexivity|apply length_insert]. Qed.

Lemma getZ_setZ_eq i v a :
  0 <= i < Z.of_nat (length a) -> getZ (setZ i v a) i = Some v.
Proof.
  intros Hi. unfold getZ, setZ.
  destruct (i <? 0) eqn:E; [apply Z.ltb_lt in E; lia|].
  apply list_lookup_insert_eq. lia.
Qed.

Lemma getZ_setZ_ne i j v a : i <> j -> getZ (setZ i v a) j = getZ a j.
Proof.
  intros Hne. unfold getZ, setZ.
  destruct (j <? 0) eqn:Ej; [reflexivity|].
  destruct (i <? 0) eqn:Ei; [reflexivity|].
  apply Z.ltb_ge in Ej, Ei.
  apply list_lookup_insert_ne. lia.
Qed.

Lemma storePixel_length i r g b al a :
  length (storePixel i r g b al a) = length a.
Proof. unfold storePixel. rewrite !setZ_length. reflexivity. Qed.

Lemma getZ_storePixel_out i j r g b al a :
  j < i \/ i + 3 < j -> getZ (storePixel i r g b al a) j = getZ a j.
Proof.
  intros Hj. unfold storePixel. rewrite !getZ_setZ_ne by lia. reflexivity.
Qed.

Lemma getZ_storePixel_in i r g b al a :
  0 <= i -> i + 3 < Z.of_nat (length a) ->
  getZ (storePixel i r g b al a) i = Some r /\
  getZ (storePixel i r g b al a) (i + 1) = Some g /\
  getZ (storePixel i r g b al a) (i + 2) = Some b /\
  getZ (storePixel i r g b al a) (i + 3) = Some al.
Proof.
  intros H0 H3. unfold storePixel. repeat split.
  - rewrite !getZ_setZ_ne by lia. apply getZ_setZ_eq. lia.
  - rewrite !getZ_setZ_ne by lia. apply getZ_setZ_eq.
    rewrite setZ_length. lia.
  - rewrite getZ_setZ_ne by lia. apply getZ_setZ_eq.
    rewrite !setZ_length. lia.
  - apply getZ_setZ_eq. rewrite !setZ_length. lia.
Qed.

Section Writes.

Context {C : Type} (pos v0 v1 v2 v3 : C -> Z).

Local Notation "'write'" :=
  (fun (out : list Z) (c : C) =>
     storePixel (pos c) (v0 c) (v1 c) (v2 c) (v3 c) out).

Lemma fold_write_length cs out :
  length (fold_left write cs out) = length out.
Proof.
  revert out. induction cs as [|c cs IH]; intros out; [reflexivity|].
  cbn [fold_left]. rewrite IH. apply storePixel_length.
Qed.

Lemma fold_write_frame cs out j :
  (forall c, c ∈ cs -> j < pos c \/ pos c + 3 < j) ->
  getZ (fold_left write cs out) j = getZ out j.
Proof.
  revert out. induction cs as [|c cs IH]; intros out H; [reflexivity|].
  cbn [fold_left]. rewrite IH.
  - apply getZ_storePixel_out. apply H. left.
  - intros c' Hc'. apply H. right. exact Hc'.
Qed.

Lemma fold_write_keep cs out c :
  (forall c', c' ∈ cs -> c' = c \/ pos c' + 3 < pos c \/ pos c + 3 < pos c') ->
  0 <= pos c -> pos c + 3 < Z.of_nat (length out) ->
  (getZ out (pos c) = Some (v0 c) /\ getZ out (pos c + 1) = Some (v1 c) /\
   getZ out (pos c + 2) = Some (v2 c) /\ getZ out (pos c + 3) = Some (v3 c)) ->
  let out' := fold_left write cs out in
  getZ out' (pos c) = Some (v0 c) /\ getZ out' (pos c + 1) = Some (v1 c) /\
  getZ out' (pos c + 2) = Some (v2 c) /\ getZ out' (pos c + 3) = Some (v3 c).
Proof.
  revert out. induction cs as [|c' cs IH]; intros out H H0 H3 Hout;
    [exact Hout|].
  cbn [fold_left]. apply IH.
  - intros c'' Hc''. apply H. right. exact Hc''.
  - exact H0.
  - rewrite storePixel_length. exact H3.
  - destruct (H c') as [->|Hd]; [left|..].
    + apply getZ_storePixel_in; assumption.
    + rewrite !getZ_storePixel_out by lia. exact Hout.
Qed.

Lemma fold_write_hit cs out c :
  c ∈ cs ->
  (forall c', c' ∈ cs -> c' = c \/ pos c' + 3 < pos c \/ pos c + 3 < pos c') ->
  0 <= pos c -> pos c + 3 < Z.of_nat (length out) ->
  let out' := fold_left write cs out in
  getZ out' (pos c) = Some (v0 c) /\ getZ out' (pos c + 1) = Some (v1 c) /\
  getZ out' (pos c + 2) = Some (v2 c) /\ getZ out' (pos c + 3) = Some (v3 c).
Proof.
  revert out. induction cs as [|c' cs IH]; intros out Hin H H0 H3.
  - apply elem_of_nil in Hin. contradiction.
  - cbn [fold_left].
    destruct (H c') as [->|Hd]; [left|..].
    + apply fold_write_keep.
      * intros c'' Hc''. apply H. right. exact Hc''.
      * exact H0.
      * rewrite storePixel_length. exact H3.
      * apply getZ_storePixel_in; assumption.
    + apply elem_of_cons in Hin. destruct Hin as [->|Hin]; [lia|].
      apply IH.
      * exact Hin.
      * intros c'' Hc''. apply H. right. exact Hc''.
      * exact H0.
      * rewrite storePixel_length. exact H3.
Qed.

End Writes.

Lemma fold_left_row {A X Y} (F : A -> Y -> X -> A) (y : Y) (xs : list X)
    (a : A) :
  fold_left (fun a x => F a y x) xs a
  = fold_left (fun a c => F a (fst c) (snd c)) (map (fun x => (y, x)) xs) a.
Proof.
  revert a. induction xs as [|x xs IH]; intros a; [reflexivity|].
  cbn [map fold_left fst snd]. apply IH.
Qed.

Lemma fold_left_nested {A X Y} (F : A -> Y -> X -> A) (ys : list Y)
    (xs : list X) (a : A) :
  fold_left (fun a y => fold_left (fun a x => F a y x) xs a) ys a
  = fold_left (fun a c => F a (fst c) (snd c)) (list_prod ys xs) a.
Proof.
  revert a. induction ys as [|y ys IH]; intros a; [reflexivity|].
  cbn [fold_left list_prod]. rewrite fold_left_app, <- IH, <- fold_left_row.
  reflexivity.
Qed.

Lemma elem_of_list_prod {X Y} (ys : list Y) (xs : list X) y x :
  (y, x) ∈ list_prod ys xs <-> y ∈ ys /\ x ∈ xs.
Proof. rewrite !list_elem_of_In. apply in_prod_iff. Qed.

Lemma pixel_index_inj w y x y' x' :
  0 <= x < w -> 0 <= x' < w -> y * w + x = y' * w + x' -> y = y' /\ x = x'.
Proof.
  intros Hx Hx' H.
  assert (y = y') by nia. subst y'. split; [reflexivity|lia].
Qed.

Lemma pixel_index_apart w y x y' x' :
  0 <= x < w -> 0 <= x' < w -> (y, x) <> (y', x') ->
  (y' * w + x') * 4 + 3 < (y * w + x) * 4 \/
  (y * w + x) * 4 + 3 < (y' * w + x') * 4.
Proof.
  intros Hx Hx' Hne.
  destruct (Z.eq_dec (y * w + x) (y' * w + x')) as [E|E].
  - apply pixel_index_inj in E; [|assumption..]. destruct E as [-> ->].
    contradiction.
  - lia.
Qed.

Lemma fold_left_ext_all {A X} (f g : A -> X -> A) (l : list X) (a : A) :
  (forall a x, f a x = g a x) -> fold_left f l a = fold_left g l a.
Proof.
  intros H. revert a. induction l as [|x l IH]; intros a; [reflexivity|].
  cbn [fold_left]. rewrite H. apply IH.
Qed.

Lemma pixel_index_bound w h y x c :
  0 <= y < h -> 0 <= x < w -> 0 <= c < 4 ->
  0 <= (y * w + x) * 4 + c < 4 * w * h.
Proof. intros Hy Hx Hc. nia. Qed.

Lemma getZ_channel img y x c :
  Z.of_nat (length (data img)) = 4 * width img * height img ->
  0 <= y < height img -> 0 <= x < width img -> 0 <= c < 4 ->
  getZ (data img) ((y * width img + x) * 4 + c) = Some (channel img y x c).
Proof.
  intros Hlen Hy Hx Hc. unfold channel.
  pose proof (pixel_index_bound (width img) (height img) y x c Hy Hx Hc) as Hb.
  unfold getZ at 1.
  destruct (_ <? 0) eqn:E; [apply Z.ltb_lt in E; lia|].
  destruct (data img !! _) as [v|] eqn:El.
  - unfold getZ. rewrite E, El. reflexivity.
  - apply lookup_ge_None_1 in El. lia.
Qed.

Lemma accumulate_interior img y x ky kx wt r g b :
  Z.of_nat (length (data img)) = 4 * width img * height img ->
  0 <= y + ky < height img -> 0 <= x + kx < width img ->
  match getZ ImageProcessing.kernel (ky + 1) with
  | Some row => getZ row (kx + 1)
  | None => None
  end = Some wt ->
  ImageProcessing.accumulate (data img) (width img) y x ky kx
    (Some r, Some g, Some b)
  = (Some (r + inject_Z (channel img (y + ky) (x + kx) 0) * wt)%Q,
     Some (g + inject_Z (channel img (y + ky) (x + kx) 1) * wt)%Q,
     Some (b + inject_Z (channel img (y + ky) (x + kx) 2) * wt)%Q).
Proof.
  intros Hlen Hy Hx Hw. unfold ImageProcessing.accumulate. rewrite Hw.
  rewrite <- (Z.add_0_r (((y + ky) * width img + (x + kx)) * 4)) at 1.
  rewrite !getZ_channel by (assumption || lia). reflexivity.
Qed.

Lemma sharpen_sums img y x :
  Z.of_nat (length (data img)) = 4 * width img * height img ->
  1 <= y < height img - 1 -> 1 <= x < width img - 1 ->
  exists r g b,
    fold_left
      (fun sums ky =>
         fold_left
           (fun sums kx =>
              ImageProcessing.accumulate (data img) (width img) y x ky kx sums)
           (seqZ (-1) 3) sums)
      (seqZ (-1) 3) (Some 0%Q, Some 0%Q, Some 0%Q)
    = (Some r, Some g, Some b) /\
    (r == sharpened img y x 0)%Q /\ (g == sharpened img y x 1)%Q /\
    (b == sharpened img y x 2)%Q.
Proof.
  intros Hlen Hy Hx.
  change (seqZ (-1) 3) with [-1; 0; 1]. cbn [fold_left].
  rewrite !(accumulate_interior img y x _ _ _ _ _ _ Hlen)
    by (lia || reflexivity).
  do 3 eexists. split; [reflexivity|].
  unfold sharpened.
  change (y + 0) with (y + 0). rewrite !Z.add_0_r.
  change (y + -1) with (y - 1). change (x + -1) with (x - 1).
  repeat split; ring.
Qed.

(** X7 ([applySharpen]). On a well-formed image, called with the sides of
    the image, the sharpening returns an image with the same sides in which
    every alpha byte and every pixel of the border is unchanged, and each
    colour byte of a pixel inside is five times the byte minus its four
    neighbours in the input, as a [Uint8ClampedArray] stores it. *)
Theorem applySharpen_spec (img : ImageData) :
  wellFormed img ->
  exists out,
    ImageProcessing.applySharpen img (width img) (height img) = Some out /\
    width out = width img /\ height out = height img /\
    length (data out) = length (data img) /\
    forall y x, 0 <= y < height img -> 0 <= x < width img ->
      channel out y x 3 = channel img y x 3 /\
      forall c, 0 <= c < 3 ->
        channel out y x c
        = if interior img y x
          then toUint8Clamp (clamp (sharpened img y x c) 0 255)
          else channel img y x c.
Proof.
  intros (Hw & Hh & Hlen & Hbytes).
  destruct img as [w h d]. cbn [width height data] in *.
  unfold ImageProcessing.applySharpen. cbn [data].
  rewrite (fold_left_nested
             (fun output y x => ImageProcessing.sharpenPixel d w y x output)).
  set (sums := fun c : Z * Z =>
         fold_left
           (fun sums ky =>
              fold_left
                (fun sums kx =>
                   ImageProcessing.accumulate d w (fst c) (snd c) ky kx sums)
                (seqZ (-1) 3) sums)
           (seqZ (-1) 3) (Some 0%Q, Some 0%Q, Some 0%Q)).
  set (pos := fun c : Z * Z => (fst c * w + snd c) * 4).
  set (v0 := fun c => storeClamped (fst (fst (sums c)))).
  set (v1 := fun c => storeClamped (snd (fst (sums c)))).
  set (v2 := fun c => storeClamped (snd (sums c))).
  set (v3 := fun c =>
         storeByte (option_map inject_Z (getZ d (pos c + 3)))).
  rewrite (fold_left_ext_all _
             (fun out c => storePixel (pos c) (v0 c) (v1 c) (v2 c) (v3 c) out)).
  2: { intros a [y x]. unfold ImageProcessing.sharpenPixel. cbn [fst snd].
       unfold v0, v1, v2, v3, sums, pos. cbn [fst snd].
       destruct (fold_left _ _ _) as [[r g] b]. reflexivity. }
  set (cs := list_prod (seqZ 1 (h - 2)) (seqZ 1 (w - 2))).
  set (output := fold_left _ cs d).
  assert (Hlen' : length output = length d) by apply fold_write_length.
  assert (Hcs : forall y x, (y, x) ∈ cs <-> 1 <= y < h - 1 /\ 1 <= x < w - 1).
  { intros y x. unfold cs. rewrite elem_of_list_prod, !elem_of_seqZ. lia. }
  assert (Hnew : newImageData output w h = Some (mkImageData w h output)).
  { unfold newImageData. rewrite Hlen', Hlen.
    change (2 ^ 32) with 4294967296 in *.
    rewrite !toUint32_small by lia.
    replace (4 * w * h) with (w * h * 4) by lia.
    rewrite Z.mod_mul, Z.div_mul by lia.
    rewrite (Z.mul_comm w h), Z.mod_mul, Z.div_mul by lia.
    destruct (h * w * 4 =? 0) eqn:E; [apply Z.eqb_eq in E; nia|].
    destruct (w =? 0) eqn:E2; [apply Z.eqb_eq in E2; lia|].
    rewrite !Z.eqb_refl. reflexivity. }
  exists (mkImageData w h output). cbn [width height data].
  split; [exact Hnew|]. split; [reflexivity|]. split; [reflexivity|].
  split; [exact Hlen'|].
  intros y x Hy Hx.
  set (img := mkImageData w h d).
  assert (Hin : forall c, 0 <= c < 4 ->
            getZ d ((y * w + x) * 4 + c) = Some (channel img y x c)).
  { intros c Hc. apply (getZ_channel img); assumption. }
  assert (Hbyte : forall c, 0 <= c < 4 -> isByte (channel img y x c)).
  { intros c Hc. specialize (Hin c Hc). unfold getZ in Hin.
    destruct (_ <? 0); [discriminate|].
    eapply Forall_lookup_1; eassumption. }
  destruct (interior img y x) eqn:Eint;
    unfold interior, img in Eint; cbn [width height] in Eint.
  - assert (Hyx : 1 <= y < h - 1 /\ 1 <= x < w - 1).
    { rewrite !andb_true_iff in Eint. lia. }
    destruct (fold_write_hit pos v0 v1 v2 v3 cs d (y, x)) as (H0 & H1 & H2 & H3).
    + apply Hcs. exact Hyx.
    + intros [y' x'] Hc'. apply Hcs in Hc'.
      destruct (decide ((y', x') = (y, x))) as [E|E]; [left; exact E|right].
      unfold pos. cbn [fst snd]. apply pixel_index_apart; try lia.
      congruence.
    + unfold pos. cbn [fst snd]. nia.
    + unfold pos. cbn [fst snd].
      pose proof (pixel_index_bound w h y x 3 Hy Hx ltac:(lia)). lia.
    + fold output in H0, H1, H2, H3. unfold pos in H0, H1, H2, H3.
      cbn [fst snd] in H0, H1, H2, H3.
      destruct (sharpen_sums img y x Hlen (proj1 Hyx) (proj2 Hyx))
        as (r & g & b & Hsums & Er & Eg & Eb).
      assert (Es : sums (y, x) = (Some r, Some g, Some b)) by exact Hsums.
      unfold v0 in H0. unfold v1 in H1. unfold v2 in H2. unfold v3 in H3.
      rewrite Es in H0, H1, H2. cbn [fst snd] in H0, H1, H2.
      unfold pos in H3. cbn [fst snd] in H3.
      rewrite (Hin 3) in H3 by lia. cbn [option_map storeByte] in H3.
      rewrite (toUint8Clamp_int _ (channel img y x 3)) in H3
        by (reflexivity || apply Hbyte; lia).
      split.
      * unfold channel at 1. cbn [data width]. rewrite H3. reflexivity.
      * intros c Hc. unfold channel at 1. cbn [data width].
        assert (Hc' : c = 0 \/ c = 1 \/ c = 2) by lia.
        destruct Hc' as [->|[->| ->]].
        -- rewrite Z.add_0_r, H0. cbn [default].
           rewrite (storeClamped_comp _ _ Er). reflexivity.
        -- rewrite H1. cbn [default].
           rewrite (storeClamped_comp _ _ Eg). reflexivity.
        -- rewrite H2. cbn [default].
           rewrite (storeClamped_comp _ _ Eb). reflexivity.
  - assert (Hframe : forall c, 0 <= c < 4 ->
              getZ output ((y * w + x) * 4 + c) = getZ d ((y * w + x) * 4 + c)).
    { intros c Hc. apply (fold_write_frame pos v0 v1 v2 v3).
      intros [y' x'] Hc'. apply Hcs in Hc'. unfold pos. cbn [fst snd].
      assert (Hne : (y, x) <> (y', x')).
      { intros E. injection E as -> ->.
        rewrite !andb_false_iff in Eint.
        rewrite !Z.leb_gt, !Z.ltb_ge in Eint. lia. }
      destruct (pixel_index_apart w y x y' x') as [H|H]; try lia;
        [exact Hne|..]; lia. }
    split.
    + unfold channel. cbn [data width]. rewrite Hframe by lia. reflexivity.
    + intros c Hc. unfold channel. cbn [data width].
      rewrite Hframe by lia. reflexivity.
Qed.

(** ** [js/processor.js] *)

Lemma allDefined_map {X A} (f : X -> option A) (g : X -> A) (l : list X) :
  (forall x, x ∈ l -> f x = Some (g x)) ->
  allDefined (map f l) = Some (map g l).
Proof.
  induction l as [|x l IH]; intros H; [reflexivity|].
  cbn [map allDefined]. rewrite (H x) by left.
  rewrite IH by (intros x' Hx'; apply H; right; exact Hx').
  reflexivity.
Qed.

Lemma filled_spec {A} (f : Z -> Z -> option A) (v : Z -> Z -> A) (w h : Z) :
  (forall y x, 0 <= y < h -> 0 <= x < w -> f y x = Some (v y x)) ->
  Processor.filled f w h
  = Some (map (fun y => map (v y) (seqZ 0 w)) (seqZ 0 h)).
Proof.
  intros H. unfold Processor.filled.
  apply allDefined_map. intros y Hy. apply elem_of_seqZ in Hy.
  apply allDefined_map. intros x Hx. apply elem_of_seqZ in Hx.
  apply H; lia.
Qed.

Lemma table_shape {A} (v : Z -> Z -> A) (w h : Z) :
  0 <= w -> 0 <= h ->
  shape (map (fun y => map (v y) (seqZ 0 w)) (seqZ 0 h)) h w.
Proof.
  intros Hw Hh. split.
  - rewrite length_map, length_seqZ. lia.
  - apply Forall_forall. intros row Hrow.
    apply list_elem_of_fmap in Hrow. destruct Hrow as (y & -> & _).
    rewrite length_map, length_seqZ. lia.
Qed.

Lemma table_px {A} (v : Z -> Z -> A) (w h y x : Z) :
  0 <= y < h -> 0 <= x < w ->
  px (map (fun y => map (v y) (seqZ 0 w)) (seqZ 0 h)) y x = Some (v y x).
Proof.
  intros Hy Hx. unfold px, idx.
  destruct (y <? 0) eqn:Ey; [apply Z.ltb_lt in Ey; lia|].
  rewrite list_lookup_fmap.
  assert (Hl : seqZ 0 h !! Z.to_nat y = Some y) by (apply lookup_seqZ; lia).
  rewrite Hl. cbn [fmap option_fmap option_map].
  destruct (x <? 0) eqn:Ex; [apply Z.ltb_lt in Ex; lia|].
  rewrite list_lookup_fmap.
  assert (Hl' : seqZ 0 w !! Z.to_nat x = Some x) by (apply lookup_seqZ; lia).
  rewrite Hl'. reflexivity.
Qed.

Lemma byte_channelOk b : isByte b -> channelOk (inject_Z b).
Proof.
  intros Hb. red in Hb. unfold channelOk.
  change 0%Q with (inject_Z 0). change 255%Q with (inject_Z 255).
  rewrite <- !Zle_Qle. lia.
Qed.

Lemma channel_isByte img y x c :
  wellFormed img -> 0 <= y < height img -> 0 <= x < width img ->
  0 <= c < 4 -> isByte (channel img y x c).
Proof.
  intros (_ & _ & Hlen & Hbytes) Hy Hx Hc.
  pose proof (getZ_channel img y x c Hlen Hy Hx Hc) as H.
  unfold getZ in H. destruct (_ <? 0); [discriminate|].
  eapply Forall_lookup_1; eassumption.
Qed.

Lemma imageDataToArrays_channels (img : ImageData) :
  wellFormed img ->
  exists rgbChannels alphaChannel,
    Processor.imageDataToArrays img = Some (rgbChannels, alphaChannel) /\
    shape rgbChannels (height img) (width img) /\
    shape alphaChannel (height img) (width img) /\
    Forall (Forall pixelOk) rgbChannels /\
    forall y x, 0 <= y < height img -> 0 <= x < width img ->
      px rgbChannels y x
      = Some (inject_Z (channel img y x 0), inject_Z (channel img y x 1),
              inject_Z (channel img y x 2)) /\
      px alphaChannel y x = Some (inject_Z (channel img y x 3)).
Proof.
  intros Hwf. pose proof Hwf as (Hw & Hh & Hlen & Hbytes).
  unfold Processor.imageDataToArrays.
  rewrite (filled_spec (Processor.pixelAt img)
             (fun y x => (inject_Z (channel img y x 0),
                          inject_Z (channel img y x 1),
                          inject_Z (channel img y x 2)))).
  2: { intros y x Hy Hx. unfold Processor.pixelAt.
       rewrite <- (Z.add_0_r ((y * width img + x) * 4)) at 1.
       rewrite !getZ_channel by (assumption || lia). reflexivity. }
  rewrite (filled_spec (Processor.alphaAt img)
             (fun y x => inject_Z (channel img y x 3))).
  2: { intros y x Hy Hx. unfold Processor.alphaAt.
       rewrite !getZ_channel by (assumption || lia). reflexivity. }
  do 2 eexists. split; [reflexivity|].
  split; [apply table_shape; lia|]. split; [apply table_shape; lia|].
  split.
  - apply Forall_forall. intros row Hrow.
    apply list_elem_of_fmap in Hrow. destruct Hrow as (y & -> & Hy).
    apply elem_of_seqZ in Hy.
    apply Forall_forall. intros p Hp.
    apply list_elem_of_fmap in Hp. destruct Hp as (x & -> & Hx).
    apply elem_of_seqZ in Hx.
    repeat split; apply byte_channelOk, channel_isByte;
      (assumption || lia).
  - intros y x Hy Hx. split.
    + apply (table_px
               (fun y x => (inject_Z (channel img y x 0),
                            inject_Z (channel img y x 1),
                            inject_Z (channel img y x 2)))); assumption.
    + apply (table_px (fun y x => inject_Z (channel img y x 3)));
        assumption.
Qed.

(** X8 ([imageDataToArrays]). A well-formed image is turned into a grid
    of pixels and a grid of alpha values with the sides of the image, which
    hold the bytes of the image at each position; every channel of the grid
    lies in [0, 255], as the dithering passes expect. *)
Theorem imageDataToArrays_spec (img : ImageData) :
  wellFormed img ->
  exists rgbChannels alphaChannel,
    Processor.imageDataToArrays img = Some (rgbChannels, alphaChannel) /\
    shape rgbChannels (height img) (width img) /\
    shape alphaChannel (height img) (width img) /\
    Forall (Forall pixelOk) rgbChannels /\
    forall y x, 0 <= y < height img -> 0 <= x < width img ->
      px rgbChannels y x
      = Some (inject_Z (channel img y x 0), inject_Z (channel img y x 1),
              inject_Z (channel img y x 2)) /\
      px alphaChannel y x = Some (inject_Z (channel img y x 3)).
Proof. exact (imageDataToArrays_channels img). Qed.

Lemma forEachOpt_pure {X S} (vs : list X) (body : X -> S -> option S)
    (pure : S -> X -> S) (s : S) :
  (forall v s, v ∈ vs -> body v s = Some (pure s v)) ->
  Processor.forEachOpt vs body s = Some (fold_left pure vs s).
Proof.
  revert s. induction vs as [|v vs IH]; intros s H; [reflexivity|].
  cbn [Processor.forEachOpt fold_left]. rewrite (H v s) by left.
  apply IH. intros v' s' Hv'. apply H. right. exact Hv'.
Qed.

Lemma setZ_bytes i v a : isByte v -> Forall isByte a -> Forall isByte (setZ i v a).
Proof.
  intros Hv Ha. unfold setZ. destruct (i <? 0); [exact Ha|].
  apply Forall_insert; assumption.
Qed.

Lemma storePixel_bytes i r g b al a :
  isByte r -> isByte g -> isByte b -> isByte al -> Forall isByte a ->
  Forall isByte (storePixel i r g b al a).
Proof.
  intros Hr Hg Hb Hal Ha. unfold storePixel.
  repeat apply setZ_bytes; assumption.
Qed.

Lemma fold_write_bytes {C} (pos v0 v1 v2 v3 : C -> Z) cs out :
  (forall c, isByte (v0 c) /\ isByte (v1 c) /\ isByte (v2 c) /\ isByte (v3 c)) ->
  Forall isByte out ->
  Forall isByte
    (fold_left
       (fun out c => storePixel (pos c) (v0 c) (v1 c) (v2 c) (v3 c) out)
       cs out).
Proof.
  intros Hv. revert out. induction cs as [|c cs IH]; intros out Hout;
    [exact Hout|].
  cbn [fold_left]. apply IH.
  destruct (Hv c) as (H0 & H1 & H2 & H3).
  apply storePixel_bytes; assumption.
Qed.

Lemma newImageData_ok d w h :
  0 < w < 2 ^ 32 -> 0 < h < 2 ^ 32 ->
  Z.of_nat (length d) = 4 * w * h ->
  newImageData d w h = Some (mkImageData w h d).
Proof.
  intros Hw Hh Hlen. unfold newImageData. rewrite Hlen.
  change (2 ^ 32) with 4294967296 in *.
  rewrite !toUint32_small by lia.
  replace (4 * w * h) with (h * w * 4) by lia.
  rewrite Z.mod_mul, Z.div_mul by lia.
  rewrite Z.mod_mul, Z.div_mul by lia.
  destruct (h * w * 4 =? 0) eqn:E; [apply Z.eqb_eq in E; nia|].
  destruct (w =? 0) eqn:E2; [apply Z.eqb_eq in E2; lia|].
  rewrite !Z.eqb_refl. reflexivity.
Qed.

Lemma index_split w h (i : nat) :
  0 < w -> Z.of_nat i < 4 * w * h ->
  exists y x c,
    0 <= y < h /\ 0 <= x < w /\ 0 <= c < 4 /\
    Z.of_nat i = (y * w + x) * 4 + c.
Proof.
  intros Hw Hi.
  exists (Z.of_nat i / 4 / w), ((Z.of_nat i / 4) mod w), (Z.of_nat i mod 4).
  pose proof (Z.div_mod (Z.of_nat i) 4 ltac:(lia)) as H4.
  pose proof (Z.mod_pos_bound (Z.of_nat i) 4 ltac:(lia)) as Hc.
  pose proof (Z.div_mod (Z.of_nat i / 4) w ltac:(lia)) as Hq.
  pose proof (Z.mod_pos_bound (Z.of_nat i / 4) w ltac:(lia)) as Hx.
  assert (Hq0 : 0 <= Z.of_nat i / 4) by (apply Z.div_pos; lia).
  assert (Hy0 : 0 <= Z.of_nat i / 4 / w) by (apply Z.div_pos; lia).
  set (q := Z.of_nat i / 4) in *. set (y := q / w) in *.
  set (x := q mod w) in *. set (c := Z.of_nat i mod 4) in *.
  assert (Hyh : y < h).
  { assert (q < w * h) by lia.
    destruct (Z.lt_ge_cases y h) as [Hlt|Hge]; [exact Hlt|]. nia. }
  repeat split; try lia; nia.
Qed.

(** Two images with the same sides and the same bytes at every position
    are equal. *)
Lemma image_ext (w h : Z) (d d' : list Z) :
  0 < w ->
  Z.of_nat (length d) = 4 * w * h -> Z.of_nat (length d') = 4 * w * h ->
  (forall y x c, 0 <= y < h -> 0 <= x < w -> 0 <= c < 4 ->
     channel (mkImageData w h d') y x c = channel (mkImageData w h d) y x c) ->
  d' = d.
Proof.
  intros Hw Hlen Hlen' H. apply list_eq. intros i.
  destruct (Z.lt_ge_cases (Z.of_nat i) (4 * w * h)) as [Hi|Hi].
  - destruct (index_split w h i Hw Hi) as (y & x & c & Hy & Hx & Hc & Ei).
    pose proof (getZ_channel (mkImageData w h d) y x c Hlen Hy Hx Hc) as G.
    pose proof (getZ_channel (mkImageData w h d') y x c Hlen' Hy Hx Hc) as G'.
    cbn [data width] in G, G'. rewrite <- Ei in G, G'.
    unfold getZ in G, G'.
    destruct (Z.of_nat i <? 0) eqn:E; [apply Z.ltb_lt in E; lia|].
    rewrite Nat2Z.id in G, G'. rewrite G, G'. f_equal. apply H; assumption.
  - rewrite !lookup_ge_None_2 by lia. reflexivity.
Qed.

Lemma arraysToImageData_channels (rgbChannels : Grid) (alphaChannel : Mask)
    (w h : Z) :
  shape rgbChannels h w -> shape alphaChannel h w ->
  0 < w < 2 ^ 32 -> 0 < h < 2 ^ 32 ->
  exists d,
    Processor.arraysToImageData rgbChannels alphaChannel w h
    = Some (mkImageData w h d) /\
    wellFormed (mkImageData w h d) /\
    forall y x p a, px rgbChannels y x = Some p ->
      px alphaChannel y x = Some a ->
      channel (mkImageData w h d) y x 0 = storeClamped (Some (chR p)) /\
      channel (mkImageData w h d) y x 1 = storeClamped (Some (chG p)) /\
      channel (mkImageData w h d) y x 2 = storeClamped (Some (chB p)) /\
      channel (mkImageData w h d) y x 3 = storeClamped (Some a).
Proof.
  intros Hrgb Halpha Hw Hh.
  unfold Processor.arraysToImageData, newUint8ClampedArray.
  destruct (w * h * 4 <? 0) eqn:E; [apply Z.ltb_lt in E; nia|].
  set (zeros := repeat 0 (Z.to_nat (w * h * 4))).
  set (P := fun c : Z * Z =>
         default (0, 0, 0)%Q (px rgbChannels (fst c) (snd c))).
  set (pos := fun c : Z * Z => (fst c * w + snd c) * 4).
  set (v0 := fun c => storeClamped (Some (chR (P c)))).
  set (v1 := fun c => storeClamped (Some (chG (P c)))).
  set (v2 := fun c => storeClamped (Some (chB (P c)))).
  set (v3 := fun c => storeClamped (px alphaChannel (fst c) (snd c))).
  assert (Hwrite : forall y x data, 0 <= y < h -> 0 <= x < w ->
            Processor.writePixel rgbChannels alphaChannel w y x data
            = Some (storePixel (pos (y, x)) (v0 (y, x)) (v1 (y, x))
                      (v2 (y, x)) (v3 (y, x)) data)).
  { intros y x data Hy Hx.
    destruct (px_in_range rgbChannels h w y x Hrgb Hy Hx) as [p Hp].
    destruct (px_in_range alphaChannel h w y x Halpha Hy Hx) as [a Ha].
    unfold Processor.writePixel, v0, v1, v2, v3, P, pos. cbn [fst snd].
    rewrite Hp. cbn [default].
    unfold px in Hp, Ha |- *. change (@idx) with (@getZ) in *.
    destruct (getZ rgbChannels y) as [row|]; [|discriminate].
    destruct (getZ alphaChannel y) as [arow|]; [|discriminate].
    rewrite Hp. reflexivity. }
  rewrite (forEachOpt_pure _ _
             (fun data y =>
                fold_left
                  (fun data x =>
                     storePixel (pos (y, x)) (v0 (y, x)) (v1 (y, x))
                       (v2 (y, x)) (v3 (y, x)) data)
                  (seqZ 0 w) data)).
  2: { intros y data Hy. apply elem_of_seqZ in Hy.
       apply forEachOpt_pure. intros x data' Hx. apply elem_of_seqZ in Hx.
       apply Hwrite; lia. }
  rewrite (fold_left_nested
             (fun data y x =>
                storePixel (pos (y, x)) (v0 (y, x)) (v1 (y, x))
                  (v2 (y, x)) (v3 (y, x)) data)).
  rewrite (fold_left_ext_all _
             (fun out c => storePixel (pos c) (v0 c) (v1 c) (v2 c) (v3 c) out)).
  2: { intros a [y x]. reflexivity. }
  set (cs := list_prod (seqZ 0 h) (seqZ 0 w)).
  set (d := fold_left _ cs zeros).
  assert (Hzl : Z.of_nat (length zeros) = 4 * w * h).
  { unfold zeros. rewrite repeat_length. nia. }
  assert (Hlen : Z.of_nat (length d) = 4 * w * h).
  { unfold d. rewrite fold_write_length. exact Hzl. }
  assert (Hcs : forall y x, (y, x) ∈ cs <-> 0 <= y < h /\ 0 <= x < w).
  { intros y x. unfold cs. rewrite elem_of_list_prod, !elem_of_seqZ. lia. }
  exists d. split; [apply newImageData_ok; assumption|].
  split.
  { split; [exact Hw|]. split; [exact Hh|]. split; [exact Hlen|].
    cbn [data]. apply fold_write_bytes.
    - intros c. unfold v0, v1, v2, v3.
      repeat split; apply storeClamped_isByte.
    - unfold zeros. apply Forall_forall. intros b Hb.
      apply list_elem_of_In, repeat_spec in Hb. subst b. red. lia. }
  intros y x p a Hp Ha.
  destruct (px_Some _ _ _ _ _ _ Hrgb Hp) as [Hy Hx].
  destruct (fold_write_hit pos v0 v1 v2 v3 cs zeros (y, x)) as (H0 & H1 & H2 & H3).
  - apply Hcs. split; assumption.
  - intros [y' x'] Hc'. apply Hcs in Hc'.
    destruct (decide ((y', x') = (y, x))) as [E'|E']; [left; exact E'|right].
    unfold pos. cbn [fst snd]. apply pixel_index_apart; try lia. congruence.
  - unfold pos. cbn [fst snd]. nia.
  - unfold pos. cbn [fst snd].
    pose proof (pixel_index_bound w h y x 3 Hy Hx ltac:(lia)). lia.
  - fold d in H0, H1, H2, H3.
    unfold pos, v0, v1, v2, v3, P in H0, H1, H2, H3.
    cbn [fst snd] in H0, H1, H2, H3. rewrite Hp in H0, H1, H2.
    rewrite Ha in H3. cbn [default] in H0, H1, H2.
    unfold channel. cbn [data width].
    rewrite Z.add_0_r, H0, H1, H2, H3. repeat split.
Qed.

(** X9 ([arraysToImageData]). From a grid of pixels and a grid of alpha
    values with [height] rows of [width] elements, both positive and below
    [2 ^ 32], a well-formed image with these sides is made, which holds at
    each position the channels of the pixel and the alpha value clamped to
    [0, 255] and rounded as a [Uint8ClampedArray] does. *)
Theorem arraysToImageData_spec (rgbChannels : Grid) (alphaChannel : Mask)
    (w h : Z) :
  shape rgbChannels h w -> shape alphaChannel h w ->
  0 < w < 2 ^ 32 -> 0 < h < 2 ^ 32 ->
  exists out,
    Processor.arraysToImageData rgbChannels alphaChannel w h = Some out /\
    wellFormed out /\ width out = w /\ height out = h /\
    forall y x p a, px rgbChannels y x = Some p ->
      px alphaChannel y x = Some a ->
      channel out y x 0 = toUint8Clamp (clamp (chR p) 0 255) /\
      channel out y x 1 = toUint8Clamp (clamp (chG p) 0 255) /\
      channel out y x 2 = toUint8Clamp (clamp (chB p) 0 255) /\
      channel out y x 3 = toUint8Clamp (clamp a 0 255).
Proof.
  intros Hrgb Halpha Hw Hh.
  destruct (arraysToImageData_channels rgbChannels alphaChannel w h
              Hrgb Halpha Hw Hh) as (d & Hrun & Hwf & Hch).
  exists (mkImageData w h d).
  split; [exact Hrun|]. split; [exact Hwf|].
  split; [reflexivity|]. split; [reflexivity|].
  exact Hch.
Qed.

(** X10 ([imageDataToArrays] then [arraysToImageData]). Turning a
    well-formed image into grids and the grids back into an image gives the
    image again. *)
Theorem imageData_round_trip (img : ImageData) (rgbChannels : Grid)
    (alphaChannel : Mask) :
  wellFormed img ->
  Processor.imageDataToArrays img = Some (rgbChannels, alphaChannel) ->
  Processor.arraysToImageData rgbChannels alphaChannel (width img)
    (height img) = Some img.
Proof.
  intros Hwf Hrun.
  destruct (imageDataToArrays_channels img Hwf)
    as (rgb & alpha & Hrun' & Hrgb & Halpha & _ & Hpx).
  rewrite Hrun in Hrun'. injection Hrun' as <- <-.
  pose proof Hwf as (Hw & Hh & Hlen & Hbytes).
  destruct (arraysToImageData_channels rgbChannels alphaChannel
              (width img) (height img) Hrgb Halpha Hw Hh)
    as (d & Hrun2 & Hwf2 & Hch).
  rewrite Hrun2. f_equal.
  destruct img as [w h d0]. cbn [width height data] in *.
  f_equal. destruct Hwf2 as (_ & _ & Hlen2 & _). cbn [data width height] in Hlen2.
  apply (image_ext w h); try assumption; [lia|].
  intros y x c Hy Hx Hc.
  destruct (Hpx y x Hy Hx) as [Hp Ha].
  destruct (Hch y x _ _ Hp Ha) as (H0 & H1 & H2 & H3).
  assert (Hb : forall c, 0 <= c < 4 ->
            isByte (channel (mkImageData w h d0) y x c)).
  { intros c' Hc'. apply channel_isByte; assumption. }
  assert (Hc' : c = 0 \/ c = 1 \/ c = 2 \/ c = 3) by lia.
  destruct Hc' as [->|[->|[->| ->]]].
  - rewrite H0. apply storeClamped_byte; [reflexivity|apply Hb; lia].
  - rewrite H1. apply storeClamped_byte; [reflexivity|apply Hb; lia].
  - rewrite H2. apply storeClamped_byte; [reflexivity|apply Hb; lia].
  - rewrite H3. apply storeClamped_byte; [reflexivity|apply Hb; lia].
Qed.

Lemma keyEq_eq k k' : Processor.keyEq k k' = true <-> k = k'.
Proof.
  destruct k as [[r g] b], k' as [[r' g'] b']. unfold Processor.keyEq.
  rewrite !andb_true_iff, !Z.eqb_eq. split.
  - intros [[-> ->] ->]. reflexivity.
  - intros E. injection E as -> -> ->. auto.
Qed.

Lemma keyEq_refl k : Processor.keyEq k k = true.
Proof. apply keyEq_eq. reflexivity. Qed.

Lemma keyEq_neq k k' : k <> k' -> Processor.keyEq k k' = false.
Proof.
  intros H. destruct (Processor.keyEq k k') eqn:E; [|reflexivity].
  apply keyEq_eq in E. contradiction.
Qed.

Lemma mapGet_mapSet_eq key value m :
  Processor.mapGet (Processor.mapSet key value m) key = Some value.
Proof.
  induction m as [|[k v] m IH]; cbn [Processor.mapSet Processor.mapGet].
  - rewrite keyEq_refl. reflexivity.
  - destruct (Processor.keyEq k key) eqn:E; cbn [Processor.mapGet]; rewrite E;
      [reflexivity|exact IH].
Qed.

Lemma mapGet_mapSet_ne key key' value m :
  key <> key' ->
  Processor.mapGet (Processor.mapSet key value m) key' = Processor.mapGet m key'.
Proof.
  intros Hne.
  induction m as [|[k v] m IH]; cbn [Processor.mapSet Processor.mapGet].
  - rewrite keyEq_neq by exact Hne. reflexivity.
  - destruct (Processor.keyEq k key) eqn:E; cbn [Processor.mapGet].
    + apply keyEq_eq in E. subst k. rewrite keyEq_neq by exact Hne.
      reflexivity.
    + rewrite IH. reflexivity.
Qed.

Lemma mapGet_None_keys m key :
  Processor.mapGet m key = None <-> key ∉ map fst m.
Proof.
  induction m as [|[k v] m IH]; cbn [Processor.mapGet map fst].
  - split; [intros _; apply not_elem_of_nil|reflexivity].
  - destruct (Processor.keyEq k key) eqn:E.
    + apply keyEq_eq in E. subst k. split; [discriminate|].
      intros H. exfalso. apply H. left.
    + rewrite IH. rewrite not_elem_of_cons. split; [|tauto].
      intros H. split; [|exact H]. intros ->.
      rewrite keyEq_refl in E. discriminate.
Qed.

Lemma mapSet_keys key value m :
  map fst (Processor.mapSet key value m)
  = match Processor.mapGet m key with
    | Some _ => map fst m
    | None => map fst m ++ [key]
    end.
Proof.
  induction m as [|[k v] m IH]; cbn [Processor.mapSet Processor.mapGet map fst];
    [reflexivity|].
  destruct (Processor.keyEq k key) eqn:E; cbn [map fst]; [reflexivity|].
  rewrite IH. destruct (Processor.mapGet m key); reflexivity.
Qed.

Lemma mapSet_total key value m :
  totalCount (Processor.mapSet key value m)
  = totalCount m - default 0 (Processor.mapGet m key) + value.
Proof.
  unfold totalCount.
  induction m as [|[k v] m IH]; cbn [Processor.mapSet Processor.mapGet].
  - cbn [fold_right snd default]. lia.
  - destruct (Processor.keyEq k key) eqn:E.
    + cbn [fold_right snd default]. unfold id. lia.
    + cbn [fold_right snd]. rewrite IH. lia.
Qed.

Lemma occurrences_app key l l' :
  occurrences key (l ++ l') = occurrences key l + occurrences key l'.
Proof. unfold occurrences. rewrite filter_app, length_app. lia. Qed.

Lemma occurrences_singleton key k :
  occurrences key [k] = if decide (k = key) then 1 else 0.
Proof.
  unfold occurrences. rewrite filter_cons, filter_nil.
  destruct (decide (k = key)) as [->|Hne].
  - destruct (decide _) as [E|E]; [reflexivity|].
    exfalso. apply E, Is_true_true, keyEq_refl.
  - destruct (decide _) as [E|E]; [|reflexivity].
    apply Is_true_true, keyEq_eq in E. contradiction.
Qed.

Lemma occurrences_nonneg key l : 0 <= occurrences key l.
Proof. unfold occurrences. lia. Qed.

Lemma occurrences_elem key l : key ∈ l <-> 0 < occurrences key l.
Proof.
  unfold occurrences. induction l as [|k l IH].
  - cbn. split; [intros H; apply elem_of_nil in H; contradiction|lia].
  - rewrite filter_cons. destruct (decide _) as [E|E].
    + apply Is_true_true, keyEq_eq in E. subst k. cbn [length].
      split; [lia|]. intros _. left.
    + rewrite elem_of_cons, IH. split; [|tauto].
      intros [->|H]; [|exact H]. exfalso. apply E, Is_true_true, keyEq_refl.
Qed.

(** The map after the loop of [countImageColors] has counted the pixels
    [seen] and goes on with [data]. *)
Lemma countLoop_spec alphaThreshold data m seen :
  NoDup (map fst m) ->
  (forall key, default 0 (Processor.mapGet m key) = occurrences key seen) ->
  (forall key, key ∈ map fst m -> key ∈ seen) ->
  totalCount m = Z.of_nat (length seen) ->
  let m' := Processor.countLoop alphaThreshold data m in
  let all := seen ++ countedPixels alphaThreshold data in
  NoDup (map fst m') /\
  (forall key, default 0 (Processor.mapGet m' key) = occurrences key all) /\
  (forall key, key ∈ map fst m' -> key ∈ all) /\
  totalCount m' = Z.of_nat (length all).
Proof.
  revert m seen.
  induction data as [| | | |r g b a rest IH] using pixels_ind;
    intros m seen Hnd Hget Hkeys Htot;
    try (cbn [Processor.countLoop countedPixels]; rewrite app_nil_r;
         repeat split; assumption).
  cbn [Processor.countLoop countedPixels]. cbv zeta.
  destruct (Qle_bool alphaThreshold (inject_Z a)) eqn:E.
  - rewrite app_assoc. apply IH.
    + rewrite mapSet_keys.
      destruct (Processor.mapGet m (r, g, b)) eqn:Eg; [exact Hnd|].
      apply NoDup_app. split; [exact Hnd|]. split.
      * intros k Hk Hk'. apply list_elem_of_singleton in Hk'. subst k.
        apply mapGet_None_keys in Eg. contradiction.
      * apply NoDup_singleton.
    + intros key. rewrite occurrences_app, occurrences_singleton.
      destruct (decide ((r, g, b) = key)) as [<-|Hne].
      * rewrite mapGet_mapSet_eq. cbn [default]. unfold id.
        rewrite Hget. reflexivity.
      * rewrite mapGet_mapSet_ne by exact Hne. rewrite Hget. lia.
    + intros key Hk. rewrite mapSet_keys in Hk. apply elem_of_app.
      destruct (Processor.mapGet m (r, g, b)).
      * left. apply Hkeys. exact Hk.
      * apply elem_of_app in Hk. destruct Hk as [Hk|Hk].
        -- left. apply Hkeys. exact Hk.
        -- right. exact Hk.
    + rewrite mapSet_total, length_app. cbn [length]. lia.
  - cbn [app]. apply IH; assumption.
Qed.

(** X11 ([countImageColors]). The map holds one entry for each colour that
    occurs among the whole pixels with alpha at or above the threshold, with
    the number of these pixels; the counts add up to the number of such
    pixels, and a colour that does not occur has no entry. *)
Theorem countImageColors_counts (imageData : ImageData) (alphaThreshold : Q) :
  let colorCounts := Processor.countImageColors imageData alphaThreshold in
  let counted := countedPixels alphaThreshold (data imageData) in
  NoDup (map fst colorCounts) /\
  (forall key,
     Processor.mapGet colorCounts key
     = if decide (key ∈ counted) then Some (occurrences key counted)
       else None) /\
  totalCount colorCounts = Z.of_nat (length counted).
Proof.
  intros colorCounts counted.
  destruct (countLoop_spec alphaThreshold (data imageData) [] [])
    as (Hnd & Hget & Hkeys & Htot).
  - apply NoDup_nil_2.
  - intros key. reflexivity.
  - intros key Hk. exact Hk.
  - reflexivity.
  - cbn [app] in Hget, Hkeys, Htot.
    fold (Processor.countImageColors imageData alphaThreshold) in *.
    fold colorCounts in Hnd, Hget, Hkeys, Htot. fold counted in Hget, Hkeys, Htot.
    split; [exact Hnd|]. split; [|exact Htot].
    intros key. specialize (Hget key).
    destruct (decide (key ∈ counted)) as [Hin|Hout].
    + destruct (Processor.mapGet colorCounts key) as [v|] eqn:E.
      * cbn [default] in Hget; unfold id in Hget. rewrite Hget. reflexivity.
      * cbn [default] in Hget; unfold id in Hget. apply occurrences_elem in Hin. lia.
    + destruct (Processor.mapGet colorCounts key) as [v|] eqn:E;
        [|reflexivity].
      exfalso. apply Hout, Hkeys.
      destruct (decide (key ∈ map fst colorCounts)) as [H|H]; [exact H|].
      apply mapGet_None_keys in H. congruence.
Qed.

Lemma Math_floor_div a b : Math_floor (inject_Z a / inject_Z b) = a / b.
Proof. unfold Math_floor. symmetry. apply Zdiv_Qdiv. Qed.

Lemma storeByte_isByte v : isByte (storeByte v).
Proof.
  unfold isByte. destruct v as [q|]; cbn [storeByte].
  - pose proof (toUint8Clamp_range q). lia.
  - lia.
Qed.

Lemma makeSegment_spec img s y x :
  wellFormed img -> 1 <= s -> 0 <= y < height img -> 0 <= x < width img ->
  exists seg, Preview.makeSegment img s y x = Some seg /\ tileOf img s seg (y, x).
Proof.
  intros Hwf Hs Hy Hx. pose proof Hwf as (Hw & Hh & Hlen & Hbytes).
  unfold Preview.makeSegment. cbv zeta.
  set (sw := Z.min s (width img - x)). set (sh := Z.min s (height img - y)).
  assert (Hsw : 1 <= sw <= width img - x) by (unfold sw; lia).
  assert (Hsh : 1 <= sh <= height img - y) by (unfold sh; lia).
  unfold newUint8ClampedArray.
  destruct (sw * sh * 4 <? 0) eqn:E; [apply Z.ltb_lt in E; nia|].
  set (zeros := repeat 0 (Z.to_nat (sw * sh * 4))).
  set (pos := fun c : Z * Z => (fst c * sw + snd c) * 4).
  set (src := fun (c : Z * Z) (k : Z) =>
         storeByte
           (option_map inject_Z
              (getZ (data img)
                 (((y + fst c) * width img + (x + snd c)) * 4 + k)))).
  rewrite (fold_left_nested
             (fun acc sy sx =>
                storePixel (pos (sy, sx)) (src (sy, sx) 0) (src (sy, sx) 1)
                  (src (sy, sx) 2) (src (sy, sx) 3) acc)).
  rewrite (fold_left_ext_all _
             (fun out c =>
                storePixel (pos c) (src c 0) (src c 1) (src c 2) (src c 3) out)).
  2: { intros a [sy sx]. reflexivity. }
  set (cs := list_prod (seqZ 0 sh) (seqZ 0 sw)).
  set (d := fold_left _ cs zeros).
  assert (Hzl : Z.of_nat (length zeros) = 4 * sw * sh).
  { unfold zeros. rewrite repeat_length. nia. }
  assert (Hlen' : Z.of_nat (length d) = 4 * sw * sh).
  { unfold d.
    rewrite (fold_write_length pos (fun c => src c 0) (fun c => src c 1)
               (fun c => src c 2) (fun c => src c 3)).
    exact Hzl. }
  assert (Hcs : forall sy sx, (sy, sx) ∈ cs <-> 0 <= sy < sh /\ 0 <= sx < sw).
  { intros sy sx. unfold cs. rewrite elem_of_list_prod, !elem_of_seqZ. lia. }
  change (2 ^ 32) with 4294967296 in *.
  rewrite newImageData_ok
    by (change (2 ^ 32) with 4294967296; assumption || lia).
  eexists. split; [reflexivity|].
  unfold tileOf. cbn [Preview.imageData Preview.segX Preview.segY
                      Preview.filename width height].
  rewrite !Math_floor_div.
  split; [reflexivity|]. split; [reflexivity|]. split; [reflexivity|].
  assert (Hsrc : forall sy sx k, 0 <= sy < sh -> 0 <= sx < sw -> 0 <= k < 4 ->
            src (sy, sx) k = channel img (y + sy) (x + sx) k /\
            isByte (channel img (y + sy) (x + sx) k)).
  { intros sy sx k Hsy Hsx Hk. unfold src. cbn [fst snd].
    rewrite getZ_channel by (assumption || lia).
    cbn [option_map storeByte].
    assert (Hb : isByte (channel img (y + sy) (x + sx) k))
      by (apply channel_isByte; assumption || lia).
    split; [|exact Hb]. apply toUint8Clamp_int; [reflexivity|exact Hb]. }
  split.
  { split; [cbn [width]; change (2 ^ 32) with 4294967296; lia|].
    split; [cbn [height]; change (2 ^ 32) with 4294967296; lia|].
    split; [exact Hlen'|]. cbn [data].
    apply (fold_write_bytes pos (fun c => src c 0) (fun c => src c 1)
             (fun c => src c 2) (fun c => src c 3)).
    - intros c. unfold src.
      split; [|split; [|split]]; apply storeByte_isByte.
    - unfold zeros. apply Forall_forall. intros b Hb.
      apply list_elem_of_In, repeat_spec in Hb. subst b. red. lia. }
  split; [reflexivity|]. split; [reflexivity|].
  intros sy sx c Hsy Hsx Hc.
  destruct (fold_write_hit pos (fun c => src c 0) (fun c => src c 1)
              (fun c => src c 2) (fun c => src c 3) cs zeros (sy, sx))
    as (H0 & H1 & H2 & H3).
  - apply Hcs. split; assumption.
  - intros [sy' sx'] Hc'. apply Hcs in Hc'.
    destruct (decide ((sy', sx') = (sy, sx))) as [E'|E']; [left; exact E'|right].
    unfold pos. cbn [fst snd]. apply pixel_index_apart; try lia. congruence.
  - unfold pos. cbn [fst snd]. nia.
  - unfold pos. cbn [fst snd].
    pose proof (pixel_index_bound sw sh sy sx 3 Hsy Hsx ltac:(lia)). lia.
  - fold d in H0, H1, H2, H3. unfold pos in H0, H1, H2, H3.
    cbn [fst snd] in H0, H1, H2, H3.
    unfold channel at 1. cbn [data width].
    assert (Hc' : c = 0 \/ c = 1 \/ c = 2 \/ c = 3) by lia.
    destruct Hc' as [->|[->|[->| ->]]].
    + rewrite Z.add_0_r, H0. cbn [default]. apply Hsrc; lia.
    + rewrite H1. cbn [default]. apply Hsrc; lia.
    + rewrite H2. cbn [default]. apply Hsrc; lia.
    + rewrite H3. cbn [default]. apply Hsrc; lia.
Qed.

Lemma ceil_div_lt w s k : 1 <= s -> 0 <= k -> (s * k < w <-> k < (w + s - 1) / s).
Proof.
  intros Hs Hk.
  pose proof (Z.div_mod (w + s - 1) s ltac:(lia)) as Hd.
  pose proof (Z.mod_pos_bound (w + s - 1) s ltac:(lia)) as Hm.
  split; intros H; nia.
Qed.

Lemma segmentRow_spec img s y (n : nat) :
  wellFormed img -> 1 <= s -> 0 <= y < height img ->
  forall (fuel : nat) (k : Z),
    0 <= k -> n = Z.to_nat ((width img + s - 1) / s - k) ->
    (n <= fuel)%nat ->
    exists segs,
      Preview.segmentRow fuel img s y (s * k) = Preview.Returns segs /\
      Forall2 (tileOf img s) segs
        (map (fun x => (y, x))
           (map (Z.mul s) (seqZ k ((width img + s - 1) / s - k)))).
Proof.
  intros Hwf Hs Hy. induction n as [|n IH]; intros fuel k Hk Hn Hfuel.
  - assert (Hge : ~ s * k < width img) by (rewrite ceil_div_lt by lia; lia).
    exists []. split.
    + destruct fuel; cbn [Preview.segmentRow];
        destruct (s * k <? width img) eqn:E; try reflexivity;
        apply Z.ltb_lt in E; contradiction.
    + replace ((width img + s - 1) / s - k) with
        (Z.of_nat 0 + ((width img + s - 1) / s - k)) by lia.
      rewrite seqZ_nil by lia. constructor.
  - assert (Hlt : s * k < width img) by (rewrite ceil_div_lt by lia; lia).
    destruct fuel as [|fuel]; [lia|].
    cbn [Preview.segmentRow].
    destruct (s * k <? width img) eqn:E; [|apply Z.ltb_ge in E; lia].
    destruct (makeSegment_spec img s y (s * k) Hwf Hs Hy ltac:(nia))
      as (seg & Hseg & Htile).
    rewrite Hseg.
    destruct (IH fuel (k + 1) ltac:(lia) ltac:(lia) ltac:(lia))
      as (segs & Hrun & Hall).
    replace (s * k + s) with (s * (k + 1)) by lia. rewrite Hrun.
    exists (seg :: segs). split; [reflexivity|].
    rewrite (seqZ_cons k) by lia. cbn [map].
    constructor; [exact Htile|].
    replace (Z.succ k) with (k + 1) by lia.
    replace (Z.pred ((width img + s - 1) / s - k))
      with ((width img + s - 1) / s - (k + 1)) by lia.
    exact Hall.
Qed.

Lemma segmentRows_spec img s (n : nat) :
  wellFormed img -> 1 <= s ->
  forall (fuel rowFuel : nat) (k : Z),
    0 <= k -> n = Z.to_nat ((height img + s - 1) / s - k) ->
    (n <= fuel)%nat ->
    (Z.to_nat ((width img + s - 1) / s) <= rowFuel)%nat ->
    exists segs,
      Preview.segmentRows fuel rowFuel img s (s * k) = Preview.Returns segs /\
      Forall2 (tileOf img s) segs
        (list_prod
           (map (Z.mul s) (seqZ k ((height img + s - 1) / s - k)))
           (map (Z.mul s) (seqZ 0 ((width img + s - 1) / s)))).
Proof.
  intros Hwf Hs. induction n as [|n IH]; intros fuel rowFuel k Hk Hn Hfuel Hfw.
  - assert (Hge : ~ s * k < height img) by (rewrite ceil_div_lt by lia; lia).
    exists []. split.
    + destruct fuel; cbn [Preview.segmentRows];
        destruct (s * k <? height img) eqn:E; try reflexivity;
        apply Z.ltb_lt in E; contradiction.
    + rewrite seqZ_nil by lia. constructor.
  - assert (Hlt : s * k < height img) by (rewrite ceil_div_lt by lia; lia).
    destruct fuel as [|fuel]; [lia|].
    cbn [Preview.segmentRows].
    destruct (s * k <? height img) eqn:E; [|apply Z.ltb_ge in E; lia].
    destruct (segmentRow_spec img s (s * k)
                (Z.to_nat ((width img + s - 1) / s - 0)) Hwf Hs ltac:(nia)
                rowFuel 0 ltac:(lia) eq_refl ltac:(lia))
      as (row & Hrow & Hrowall).
    rewrite Z.mul_0_r in Hrow. rewrite Hrow.
    destruct (IH fuel rowFuel (k + 1) ltac:(lia) ltac:(lia) ltac:(lia)
                ltac:(lia))
      as (segs & Hrun & Hall).
    replace (s * k + s) with (s * (k + 1)) by lia. rewrite Hrun.
    exists (row ++ segs). split; [reflexivity|].
    rewrite (seqZ_cons k) by lia. cbn [map list_prod].
    apply Forall2_app.
    + rewrite Z.sub_0_r in Hrowall. exact Hrowall.
    + replace (Z.succ k) with (k + 1) by lia.
      replace (Z.pred ((height img + s - 1) / s - k))
        with ((height img + s - 1) / s - (k + 1)) by lia.
      exact Hall.
Qed.

(** X12 ([createImageSegments]). For a well-formed image and a segment
    size of at least 1, with fuel for the iterations of both loops, the
    function returns the tiles of that side that cover the image, row by
    row: each is a well-formed image cut at the border of the source, named
    after its row and column, holding the bytes of the source from its
    corner on; and every pixel of the source lies in the tile whose corner
    is the pixel's coordinates rounded down to multiples of the size. *)
Theorem createImageSegments_tiles (img : ImageData) (segmentSize : Z)
    (fuel : nat) :
  wellFormed img -> 1 <= segmentSize ->
  (Z.to_nat (height img) <= fuel)%nat -> (Z.to_nat (width img) <= fuel)%nat ->
  exists segments,
    Preview.createImageSegments fuel img segmentSize
    = Preview.Returns segments /\
    Forall2 (tileOf img segmentSize) segments (tileCorners img segmentSize) /\
    forall y x, 0 <= y < height img -> 0 <= x < width img ->
      (segmentSize * (y / segmentSize), segmentSize * (x / segmentSize))
      ∈ tileCorners img segmentSize.
Proof.
  intros Hwf Hs Hfh Hfw. pose proof Hwf as (Hw & Hh & _).
  set (s := segmentSize) in *.
  assert (Hceil : forall n, 0 < n -> 0 <= (n + s - 1) / s <= n).
  { intros n Hn.
    pose proof (Z.div_mod (n + s - 1) s ltac:(lia)) as Hd.
    pose proof (Z.mod_pos_bound (n + s - 1) s ltac:(lia)) as Hm.
    split; nia. }
  destruct (segmentRows_spec img s
              (Z.to_nat ((height img + s - 1) / s - 0)) Hwf Hs fuel fuel 0
              ltac:(lia) eq_refl)
    as (segs & Hrun & Hall).
  - pose proof (Hceil (height img) ltac:(lia)). lia.
  - pose proof (Hceil (width img) ltac:(lia)). lia.
  - exists segs. unfold Preview.createImageSegments.
    rewrite Z.mul_0_r in Hrun. split; [exact Hrun|].
    rewrite Z.sub_0_r in Hall. split; [exact Hall|].
    intros y x Hy Hx. unfold tileCorners.
    apply elem_of_list_prod. split; apply list_elem_of_fmap.
    + exists (y / s). split; [reflexivity|]. apply elem_of_seqZ.
      assert (0 <= y / s) by (apply Z.div_pos; lia).
      split; [lia|]. rewrite Z.add_0_l. apply ceil_div_lt; [lia..|].
      pose proof (Z.mul_div_le y s ltac:(lia)). lia.
    + exists (x / s). split; [reflexivity|]. apply elem_of_seqZ.
      assert (0 <= x / s) by (apply Z.div_pos; lia).
      split; [lia|]. rewrite Z.add_0_l. apply ceil_div_lt; [lia..|].
      pose proof (Z.mul_div_le x s ltac:(lia)). lia.
Qed.

(** X13 ([createImageSegments] with size 0). On a well-formed image a
    segment size of 0 does not make the loops run for ever: the first
    [new ImageData] throws. *)
Theorem createImageSegments_zero (img : ImageData) (fuel : nat) :
  wellFormed img ->
  Preview.createImageSegments (S fuel) img 0 = Preview.Throws.
Proof.
  intros (Hw & Hh & _). unfold Preview.createImageSegments.
  cbn [Preview.segmentRows Preview.segmentRow].
  destruct (0 <? height img) eqn:E1; [|apply Z.ltb_ge in E1; lia].
  destruct (0 <? width img) eqn:E2; [|apply Z.ltb_ge in E2; lia].
  assert (Hseg : Preview.makeSegment img 0 0 0 = None).
  { unfold Preview.makeSegment. cbv zeta.
    rewrite !Z.sub_0_r, !Z.min_l by lia. reflexivity. }
  rewrite Hseg. reflexivity.
Qed.

(** ** The string helpers of [js/utils.js], [js/colors.js] *)

Lemma hexByte_check :
  forallb
    (fun n =>
       String.eqb (Utils.padStart2 (Utils.toString16 n)) (hexByte n)
       && match Utils.parseInt16 (hexByte n) with
          | Some m => m =? n
          | None => false
          end)
    (seqZ 0 256) = true.
Proof. vm_compute. reflexivity. Qed.

Lemma hexByte_spec n :
  isByte n ->
  Utils.padStart2 (Utils.toString16 n) = hexByte n /\
  Utils.parseInt16 (hexByte n) = Some n.
Proof.
  intros Hn. red in Hn.
  pose proof hexByte_check as H. rewrite forallb_forall in H.
  specialize (H n). rewrite <- list_elem_of_In, elem_of_seqZ in H.
  specialize (H ltac:(lia)). apply andb_true_iff in H. destruct H as [H1 H2].
  apply String.eqb_eq in H1. split; [exact H1|].
  destruct (Utils.parseInt16 (hexByte n)) as [m|]; [|discriminate].
  apply Z.eqb_eq in H2. subst m. reflexivity.
Qed.

(** X14 ([rgbToHex] then [hexToRgb]). For three numbers that round to
    bytes, the colour string written by [rgbToHex] is read back by
    [hexToRgb] as the three rounded numbers. *)
Theorem rgbToHex_round_trip (r g b : Q) :
  isByte (Math_round r) -> isByte (Math_round g) -> isByte (Math_round b) ->
  Utils.hexToRgb (Utils.rgbToHex [r; g; b])
  = [Some (Math_round r); Some (Math_round g); Some (Math_round b)].
Proof.
  intros Hr Hg Hb.
  destruct (hexByte_spec _ Hr) as [Er Pr].
  destruct (hexByte_spec _ Hg) as [Eg Pg].
  destruct (hexByte_spec _ Hb) as [Eb Pb].
  unfold Utils.rgbToHex. cbn [map String.concat]. rewrite Er, Eg, Eb.
  unfold Utils.hexToRgb.
  change (Utils.removeFirst "#"
            (String "#"
               (hexByte (Math_round r) ++ "" ++ hexByte (Math_round g) ++ ""
                ++ hexByte (Math_round b))))%string
    with (hexByte (Math_round r) ++ hexByte (Math_round g)
          ++ hexByte (Math_round b))%string.
  change (substring 0 2
            (hexByte (Math_round r) ++ hexByte (Math_round g)
             ++ hexByte (Math_round b))%string)
    with (hexByte (Math_round r)).
  change (substring 2 2
            (hexByte (Math_round r) ++ hexByte (Math_round g)
             ++ hexByte (Math_round b))%string)
    with (hexByte (Math_round g)).
  change (substring 4 2
            (hexByte (Math_round r) ++ hexByte (Math_round g)
             ++ hexByte (Math_round b))%string)
    with (hexByte (Math_round b)).
  rewrite Pr, Pg, Pb. reflexivity.
Qed.

Lemma isColourb_spec rgb : isColourb rgb = true -> isColour rgb.
Proof.
  destruct rgb as [|[r|] [|[g|] [|[b|] [|? ?]]]]; try discriminate.
  cbn [isColourb]. rewrite !andb_true_iff, !Z.leb_le, !Z.ltb_lt.
  intros H. exists r, g, b. unfold isByte. repeat split; lia.
Qed.

Lemma builtin_colours :
  forallb (fun hex => isColourb (Utils.hexToRgb hex))
    (Colors.FULL_PALETTE_COLORS ++ ["#000000"; "#ffffff"]%string) = true.
Proof. vm_compute. reflexivity. Qed.

(** X15 ([getActivePaletteHex] and [getPaletteAsRgb]). The palette that
    [process] hands to the dithering passes is never empty; and unless it
    is a non-empty custom palette, each of its entries is a colour of three
    bytes. *)
Theorem active_palette_never_empty (type : string)
    (customPalette : list string) :
  let palette :=
    Colors.getPaletteAsRgb (App.getActivePaletteHex type customPalette) in
  palette <> [] /\
  (type <> "custom"%string \/ customPalette = [] -> Forall isColour palette).
Proof.
  cbv zeta.
  assert (Hall : forall hex,
            hex ∈ (Colors.FULL_PALETTE_COLORS ++ ["#000000"; "#ffffff"]%string) ->
            isColour (Utils.hexToRgb hex)).
  { intros hex Hin. apply isColourb_spec.
    pose proof builtin_colours as H. rewrite forallb_forall in H.
    apply H. apply list_elem_of_In. exact Hin. }
  assert (Hfree : Forall isColour
                    (Colors.getPaletteAsRgb Colors.FREE_PALETTE_COLORS)).
  { apply Forall_fmap, Forall_forall. intros hex Hin. apply Hall.
    apply elem_of_app. left. apply elem_of_app. left. exact Hin. }
  assert (Hfull : Forall isColour
                    (Colors.getPaletteAsRgb Colors.FULL_PALETTE_COLORS)).
  { apply Forall_fmap, Forall_forall. intros hex Hin. apply Hall.
    apply elem_of_app. left. exact Hin. }
  assert (Hbw : Forall isColour
                  (Colors.getPaletteAsRgb ["#000000"; "#ffffff"]%string)).
  { apply Forall_fmap, Forall_forall. intros hex Hin. apply Hall.
    apply elem_of_app. right. exact Hin. }
  unfold App.getActivePaletteHex.
  destruct (String.eqb type "free") eqn:E1; [split; [discriminate|auto]|].
  destruct (String.eqb type "full") eqn:E2; [split; [discriminate|auto]|].
  destruct (String.eqb type "custom") eqn:E3; [|split; [discriminate|auto]].
  apply String.eqb_eq in E3.
  destruct customPalette as [|c cs]; cbn [length Nat.ltb Nat.leb].
  - split; [discriminate|auto].
  - split; [discriminate|]. intros [H|H]; [contradiction|discriminate].
Qed.

Lemma insertStat_perm a l : Permutation (Processor.insertStat a l) (a :: l).
Proof.
  induction l as [|b l IH]; cbn [Processor.insertStat]; [reflexivity|].
  destruct (Processor.count b - Processor.count a <=? 0); [reflexivity|].
  rewrite IH. apply perm_swap.
Qed.

Lemma sortStats_perm l : Permutation (Processor.sortStats l) l.
Proof.
  induction l as [|a l IH]; [reflexivity|].
  cbn [Processor.sortStats fold_right].
  fold (Processor.sortStats l). rewrite insertStat_perm, IH. reflexivity.
Qed.

Lemma insertStat_sorted a l :
  StronglySorted (fun x y => Processor.count y <= Processor.count x) l ->
  StronglySorted (fun x y => Processor.count y <= Processor.count x)
    (Processor.insertStat a l).
Proof.
  induction 1 as [|b l Hs IH Hb]; cbn [Processor.insertStat].
  - repeat constructor.
  - destruct (Processor.count b - Processor.count a <=? 0) eqn:E.
    + apply Z.leb_le in E. constructor; [constructor; assumption|].
      constructor; [lia|].
      eapply Forall_impl; [exact Hb|]. intros c Hc. cbn beta in *. lia.
    + apply Z.leb_gt in E. constructor; [exact IH|].
      rewrite (insertStat_perm a l). constructor; [lia|exact Hb].
Qed.

Lemma sortStats_sorted l :
  StronglySorted (fun x y => Processor.count y <= Processor.count x)
    (Processor.sortStats l).
Proof.
  induction l as [|a l IH]; [constructor|].
  cbn [Processor.sortStats fold_right]. apply insertStat_sorted. exact IH.
Qed.

(** X16 ([getColorStatistics]). The statistics are sorted by decreasing
    count and hold, for each colour counted by [countImageColors], one row
    with the number of its pixels; when the bytes of the image are bytes,
    the colour string of a row is read back by [hexToRgb] as that colour. *)
Theorem getColorStatistics_spec (imageData : ImageData)
    (colorNameMap : string -> option string) (alphaThreshold : Q) :
  let stats :=
    Processor.getColorStatistics imageData colorNameMap alphaThreshold in
  let counted := countedPixels alphaThreshold (data imageData) in
  StronglySorted (fun a b => Processor.count b <= Processor.count a) stats /\
  Permutation stats
    (map (Processor.statOf colorNameMap)
       (Processor.countImageColors imageData alphaThreshold)) /\
  (Forall isByte (data imageData) ->
   forall row, row ∈ stats ->
     exists r g b,
       (r, g, b) ∈ counted /\
       Processor.count row = occurrences (r, g, b) counted /\
       Utils.hexToRgb (Processor.hex row) = [Some r; Some g; Some b]).
Proof.
  intros stats counted. subst stats. unfold Processor.getColorStatistics.
  split; [apply sortStats_sorted|]. split; [apply sortStats_perm|].
  intros Hbytes row Hrow.
  rewrite sortStats_perm in Hrow.
  apply list_elem_of_fmap in Hrow. destruct Hrow as ([[[r g] b] n] & -> & Hin).
  destruct (countLoop_spec alphaThreshold (data imageData) [] [])
    as (Hnd & Hget & Hkeys & _);
    [apply NoDup_nil_2|reflexivity|auto|reflexivity|].
  cbn [app] in Hget, Hkeys.
  fold (Processor.countImageColors imageData alphaThreshold) in *.
  fold counted in Hget, Hkeys.
  assert (Hkey : (r, g, b) ∈ counted).
  { apply Hkeys. apply list_elem_of_fmap. exists (r, g, b, n). auto. }
  assert (Hn : Processor.mapGet
                 (Processor.countImageColors imageData alphaThreshold)
                 (r, g, b) = Some n).
  { clear - Hnd Hin.
    induction (Processor.countImageColors imageData alphaThreshold)
      as [|[k v] m IH]; [apply elem_of_nil in Hin; contradiction|].
    cbn [map fst] in Hnd. apply NoDup_cons in Hnd. destruct Hnd as [Hk Hnd].
    cbn [Processor.mapGet].
    apply elem_of_cons in Hin. destruct Hin as [E|Hin].
    - injection E as <- <-. rewrite keyEq_refl. reflexivity.
    - destruct (Processor.keyEq k (r, g, b)) eqn:E.
      + apply keyEq_eq in E. subst k. exfalso. apply Hk.
        apply list_elem_of_fmap. exists (r, g, b, n). auto.
      + apply IH; assumption. }
  exists r, g, b. split; [exact Hkey|]. split.
  - specialize (Hget (r, g, b)). rewrite Hn in Hget. exact Hget.
  - assert (Hb : isByte r /\ isByte g /\ isByte b).
    { clear - Hbytes Hkey. unfold counted in Hkey.
      induction (data imageData) as [| | | |r0 g0 b0 a0 rest IH]
        using pixels_ind;
        try (apply elem_of_nil in Hkey; contradiction).
      cbn [countedPixels] in Hkey.
      inversion Hbytes as [|? ? Hr H1]; subst.
      inversion H1 as [|? ? Hg H2]; subst.
      inversion H2 as [|? ? Hb H3]; subst.
      inversion H3 as [|? ? Ha H4]; subst.
      apply elem_of_app in Hkey. destruct Hkey as [Hkey|Hkey].
      - destruct (Qle_bool alphaThreshold (inject_Z a0));
          [|apply elem_of_nil in Hkey; contradiction].
        apply list_elem_of_singleton in Hkey. injection Hkey as -> -> ->.
        auto.
      - apply IH; assumption. }
    destruct Hb as (Hr & Hg & Hb).
    cbn [Processor.statOf Processor.hex].
    destruct (hexByte_spec _ Hr) as [Er Pr].
    destruct (hexByte_spec _ Hg) as [Eg Pg].
    destruct (hexByte_spec _ Hb) as [Eb Pb].
    rewrite Er, Eg, Eb. unfold Utils.hexToRgb.
    change (Utils.removeFirst "#"
              (String "#" (hexByte r ++ hexByte g ++ hexByte b)))%string
      with (hexByte r ++ hexByte g ++ hexByte b)%string.
    change (substring 0 2 (hexByte r ++ hexByte g ++ hexByte b)%string)
      with (hexByte r).
    change (substring 2 2 (hexByte r ++ hexByte g ++ hexByte b)%string)
      with (hexByte g).
    change (substring 4 2 (hexByte r ++ hexByte g ++ hexByte b)%string)
      with (hexByte b).
    rewrite Pr, Pg, Pb. reflexivity.
Qed.

(** ** [js/dithering.js] and the two versions of [js/utils.js] *)

Section RuntimeExtras.

Variable Math_pow : Q -> Q -> Q.
Variable Math_cbrt : Q -> Q.
Variable randomSource : nat -> Q.

(** X17 (palette membership under error diffusion). For the eight
    error-diffusion methods and a non-empty palette: the pass returns, and a
    pixel whose alpha is at or above the threshold holds in the output one
    of the palette entries, whatever error was diffused into it. *)
Theorem diffusion_methods_palette_membership (cfg : DitherConfig)
    (pal : list Pixel) (rgbChannels : Grid) (alphaChannel : Mask)
    (h w : Z) (wd : World) :
  diffuses (method cfg) = true -> pal <> [] ->
  shape rgbChannels h w -> shape alphaChannel h w -> 0 < h ->
  (cacheFits Math_pow Math_cbrt pal (labCache wd) ->
   exists out wd',
     dither Math_pow Math_cbrt randomSource cfg rgbChannels alphaChannel
       (Some pal) wd = Ok (out, wd')) /\
  (forall out wd',
     dither Math_pow Math_cbrt randomSource cfg rgbChannels alphaChannel
       (Some pal) wd = Ok (out, wd') ->
     forall y x a,
       px alphaChannel y x = Some a -> (alphaThreshold cfg <= a)%Q ->
       exists c, px out y x = Some c /\ c ∈ pal).
Proof.
  intros _ Hne Hrgb Halpha Hh.
  destruct (dither_outcome Math_pow Math_cbrt randomSource cfg (Some pal)
              rgbChannels alphaChannel h w wd Hrgb Halpha Hh)
    as [Hret Hpost].
  split; [exact Hret|].
  intros out wd' Hrun y x a Ha Hge.
  destruct (Hpost out wd' Hrun) as (_ & Hs & Hpx).
  destruct (px_Some _ _ _ _ _ _ Halpha Ha) as [Hy Hx].
  specialize (Hpx y x Hy Hx).
  rewrite (passes_true _ _ _ _ _ Ha Hge) in Hpx.
  destruct Hpx as (old & q & new & Hnew & _ & Hc & _).
  exists new. split; [exact Hnew|].
  exact (chosen_in_palette _ _ _ _ _ _ Hne Hc).
Qed.

Lemma scanPalette_ext {C} (f g : C -> Q) (pal : list C) (m m' : option Q)
    (c0 : C) :
  (forall c, (f c == g c)%Q) ->
  match m, m' with
  | Some a, Some b => (a == b)%Q
  | None, None => True
  | _, _ => False
  end ->
  scanPalette f pal m c0 = scanPalette g pal m' c0.
Proof.
  intros Hfg. revert m m' c0.
  induction pal as [|c pal IH]; intros m m' c0 Hm; [reflexivity|].
  cbn [scanPalette].
  assert (E : ltInf (f c) m = ltInf (g c) m').
  { destruct m as [a|], m' as [b|]; try contradiction; [|reflexivity].
    unfold ltInf, Qltb. f_equal. apply Qleb_comp; [exact Hm|apply Hfg]. }
  rewrite E. destruct (ltInf (g c) m').
  - apply IH. apply Hfg.
  - apply IH. exact Hm.
Qed.

(** X18 (the two versions of [findClosestColorInPalette]). The earlier
    version throws a [TypeError] for an empty or missing palette, where the
    later one returns black; for a non-empty palette, and a [Math.pow] whose
    squares are those of the multiplication, it returns what the later
    version returns in mode ["rgb"], leaving the state alone. *)
Theorem findClosestColorInPalette_versions (pixel : Pixel)
    (palette : option (list Pixel)) (wd : World) :
  squaresExactly Math_pow ->
  match palette with
  | None | Some [] =>
      findClosestColorInPalette_v1 Math_pow pixel palette wd = Throw TypeError /\
      findClosestColorInPalette Math_pow Math_cbrt pixel palette ModeRgb wd
      = Ok ((0, 0, 0)%Q, wd)
  | Some _ =>
      findClosestColorInPalette_v1 Math_pow pixel palette wd
      = findClosestColorInPalette Math_pow Math_cbrt pixel palette ModeRgb wd
  end.
Proof.
  intros Hpow. destruct palette as [[|c0 pal]|]; [split; reflexivity| |split; reflexivity].
  unfold findClosestColorInPalette_v1, findClosestColorInPalette.
  cbn [closestEntry]. unfold bind, ret.
  rewrite (scanPalette_ext (powDistance Math_pow pixel)
             (rgbDistance id pixel) (c0 :: pal) None None c0); [reflexivity| |exact I].
  intros c. unfold powDistance, rgbDistance, id. cbv zeta.
  unfold squaresExactly in Hpow. rewrite !Hpow. reflexivity.
Qed.

End RuntimeExtras.

(** ** The curve builder of the curves editor *)

Lemma cubicInterp_at_0 p0 p1 p2 p3 :
  (Curves.cubicInterp p0 p1 p2 p3 0 == p1)%Q.
Proof. unfold Curves.cubicInterp. cbv zeta. ring. Qed.

Lemma cubicInterp_at_1 p0 p1 p2 p3 :
  (Curves.cubicInterp p0 p1 p2 p3 1 == p2)%Q.
Proof. unfold Curves.cubicInterp. cbv zeta. ring. Qed.


Lemma Math_round_int z : Math_round (inject_Z z) = z.
Proof.
  unfold Math_round.
  pose proof (Qfloor_le (inject_Z z + (1 # 2))) as Hlo.
  pose proof (Qlt_floor (inject_Z z + (1 # 2))) as Hhi.
  set (f := Qfloor (inject_Z z + (1 # 2))) in *.
  assert (H1 : (inject_Z f < inject_Z (z + 1))%Q).
  { rewrite inject_Z_plus. eapply Qle_lt_trans; [exact Hlo|].
    change (inject_Z 1) with 1%Q. lra. }
  assert (H2 : (inject_Z z < inject_Z (f + 1))%Q).
  { eapply Qlt_trans; [|exact Hhi]. lra. }
  rewrite <- Zlt_Qlt in H1, H2. lia.
Qed.

Lemma Math_round_comp q q' : (q == q')%Q -> Math_round q = Math_round q'.
Proof. intros H. unfold Math_round. apply Qfloor_comp. rewrite H. reflexivity. Qed.

Lemma lutValue_byte q b :
  (q == inject_Z b)%Q -> isByte b -> Curves.lutValue q = b.
Proof.
  intros H Hb. unfold Curves.lutValue.
  rewrite (Math_round_comp _ _ H), Math_round_int. red in Hb. lia.
Qed.

Lemma lutValue_isByte q : isByte (Curves.lutValue q).
Proof. unfold Curves.lutValue, isByte. lia. Qed.

Lemma clamp01_0 q : (q == 0)%Q -> (Curves.clamp01 q == 0)%Q.
Proof.
  intros H. unfold Curves.clamp01. rewrite H.
  rewrite (Q.max_l 0 0) by lra. apply Q.min_r. lra.
Qed.

Lemma clamp01_1 q : (q == 1)%Q -> (Curves.clamp01 q == 1)%Q.
Proof.
  intros H. unfold Curves.clamp01. rewrite H.
  rewrite (Q.max_r 0 1) by lra. apply Q.min_l. lra.
Qed.

Lemma cubicInterp_comp p0 p1 p2 p3 t t' :
  (t == t')%Q ->
  (Curves.cubicInterp p0 p1 p2 p3 t == Curves.cubicInterp p0 p1 p2 p3 t')%Q.
Proof. intros H. unfold Curves.cubicInterp. cbv zeta. rewrite H. reflexivity. Qed.

Lemma sortPoints_increasing points :
  increasing points -> Curves.sortPoints points = points.
Proof.
  induction 1 as [|a l Hs IH Ha]; [reflexivity|].
  cbn [Curves.sortPoints fold_right]. fold (Curves.sortPoints l). rewrite IH.
  destruct l as [|b rest]; [reflexivity|]. cbn [Curves.insertPoint].
  inversion Ha as [|? ? Hab _]; subst.
  assert (E : Qle_bool (Curves.x a - Curves.x b) 0 = true)
    by (apply Qle_bool_iff; lra).
  rewrite E. reflexivity.
Qed.

Lemma round_onGrid points :
  Forall onGrid points ->
  map (fun p => Curves.mkPoint (inject_Z (Math_round (Curves.x p)))
                  (inject_Z (Math_round (Curves.y p)))) points
  = points.
Proof.
  induction 1 as [|p l Hp _ IH]; [reflexivity|].
  cbn [map]. rewrite IH. f_equal.
  destruct Hp as (xi & yi & Hx & Hy & _). destruct p as [px py].
  cbn [Curves.x Curves.y] in *. subst px py.
  rewrite !Math_round_int. reflexivity.
Qed.

Lemma increasing_lookup pts (i j : nat) a b :
  increasing pts -> pts !! i = Some a -> pts !! j = Some b ->
  (i < j)%nat -> (Curves.x a < Curves.x b)%Q.
Proof.
  intros Hs. revert i j. induction Hs as [|c l Hs IH Hc]; intros i j Ha Hb Hij.
  - discriminate.
  - destruct j as [|j]; [lia|]. cbn [lookup list_lookup] in Hb.
    destruct i as [|i].
    + cbn in Ha. injection Ha as ->.
      rewrite Forall_forall in Hc. apply Hc.
      eapply list_elem_of_lookup_2. exact Hb.
    + cbn [lookup list_lookup] in Ha. apply (IH i j); [assumption..|lia].
Qed.

(** Where the search of the segment stops for the abscissa of the control
    point of index [j]: at [j - 1], or at 0 for the first point. *)
Lemma findSegment_at pts (j : nat) p :
  increasing pts -> pts !! j = Some p ->
  forall (fuel : nat) (i : nat),
    (i <= j - 1)%nat -> (j - 1 - i <= fuel)%nat ->
    Curves.findSegment fuel pts (Curves.x p) (Z.of_nat i)
    = Z.of_nat (j - 1).
Proof.
  intros Hs Hp. induction fuel as [|fuel IH]; intros i Hi Hfuel.
  - cbn [Curves.findSegment]. f_equal. lia.
  - cbn [Curves.findSegment]. unfold getZ.
    destruct (Z.of_nat i + 1 <? 0) eqn:E; [apply Z.ltb_lt in E; lia|].
    replace (Z.to_nat (Z.of_nat i + 1)) with (S i) by lia.
    destruct (pts !! S i) as [next|] eqn:En.
    2: { apply lookup_ge_None_1 in En. apply lookup_lt_Some in Hp.
         f_equal. lia. }
    pose proof (lookup_lt_Some _ _ _ En) as Hlen.
    assert (E1 : (Z.of_nat i <? Z.of_nat (length pts) - 1) = true)
      by (apply Z.ltb_lt; lia).
    rewrite E1. cbn [andb].
    destruct (Nat.lt_ge_cases (S i) j) as [Hlt|Hge].
    + assert (Hx : (Curves.x next < Curves.x p)%Q)
        by (eapply (increasing_lookup pts (S i) j); eassumption).
      apply Qltb_lt in Hx. rewrite Hx.
      replace (Z.of_nat i + 1) with (Z.of_nat (S i)) by lia.
      apply IH; lia.
    + assert (Hx : Qltb (Curves.x next) (Curves.x p) = false).
      { apply Qltb_false_iff.
        destruct (Nat.eq_dec (S i) j) as [<-|Hne].
        - rewrite En in Hp. injection Hp as ->. lra.
        - apply Qlt_le_weak.
          eapply (increasing_lookup pts j (S i)); try eassumption. lia. }
      rewrite Hx. f_equal. lia.
Qed.

Lemma getZ_nat {A} (l : list A) (i : nat) : getZ l (Z.of_nat i) = l !! i.
Proof.
  unfold getZ. destruct (Z.of_nat i <? 0) eqn:E; [apply Z.ltb_lt in E; lia|].
  rewrite Nat2Z.id. reflexivity.
Qed.

Lemma getZ_map_seqZ {A} (f : Z -> A) (n x : Z) :
  0 <= x < n -> getZ (map f (seqZ 0 n)) x = Some (f x).
Proof.
  intros Hx. unfold getZ.
  destruct (x <? 0) eqn:E; [apply Z.ltb_lt in E; lia|].
  rewrite list_lookup_fmap.
  assert (Hl : seqZ 0 n !! Z.to_nat x = Some x) by (apply lookup_seqZ; lia).
  rewrite Hl. reflexivity.
Qed.

Lemma findSegment_range fuel pts x (i : nat) :
  (i < length pts)%nat ->
  exists k : nat,
    Curves.findSegment fuel pts x (Z.of_nat i) = Z.of_nat k /\
    (i <= k < length pts)%nat.
Proof.
  revert i. induction fuel as [|fuel IH]; intros i Hi.
  - exists i. split; [reflexivity|lia].
  - cbn [Curves.findSegment].
    replace (Z.of_nat i + 1) with (Z.of_nat (S i)) by lia. rewrite getZ_nat.
    destruct (pts !! S i) as [next|] eqn:En; [|exists i; split; [reflexivity|lia]].
    destruct (_ && _); [|exists i; split; [reflexivity|lia]].
    destruct (IH (S i)) as (k & Hk & Hr);
      [apply lookup_lt_Some in En; exact En|].
    exists k. split; [exact Hk|lia].
Qed.

Lemma curveAt_defined pts linear x :
  pts <> [] -> exists v, Curves.curveAt pts linear x = Some v /\ isByte v.
Proof.
  intros Hne. unfold Curves.curveAt. cbv zeta.
  assert (Hlen : (0 < length pts)%nat) by (destruct pts; [contradiction|cbn; lia]).
  destruct (findSegment_range (length pts) pts (inject_Z x) 0 Hlen)
    as (k & Hk & Hr).
  change (Z.of_nat 0) with 0 in Hk. rewrite Hk.
  assert (Hd : forall m : Z, 0 <= m < Z.of_nat (length pts) ->
            exists q, getZ pts m = Some q).
  { intros m Hm. unfold getZ.
    destruct (m <? 0) eqn:E; [apply Z.ltb_lt in E; lia|].
    apply lookup_lt_is_Some_2. lia. }
  destruct (Hd (Z.max 0 (Z.of_nat k - 1)) ltac:(lia)) as [q1 H1].
  destruct (Hd (Z.of_nat k) ltac:(lia)) as [q2 H2].
  destruct (Hd (Z.min (Z.of_nat (length pts) - 1) (Z.of_nat k + 1)) ltac:(lia))
    as [q3 H3].
  destruct (Hd (Z.min (Z.of_nat (length pts) - 1) (Z.of_nat k + 2)) ltac:(lia))
    as [q4 H4].
  rewrite H1, H2, H3, H4. cbn [Curves.orElse].
  eexists. split; [reflexivity|apply lutValue_isByte].
Qed.

Lemma curveAt_point pts linear (j : nat) p xi yi :
  increasing pts -> pts !! j = Some p ->
  Curves.x p = inject_Z xi -> Curves.y p = inject_Z yi -> isByte yi ->
  Curves.curveAt pts linear xi = Some yi.
Proof.
  intros Hs Hp Hx Hy Hyb.
  pose proof (lookup_lt_Some _ _ _ Hp) as Hj.
  unfold Curves.curveAt. cbv zeta. rewrite <- Hx.
  pose proof (findSegment_at pts j p Hs Hp (length pts) 0
                ltac:(lia) ltac:(lia)) as Hseg.
  change (Z.of_nat 0) with 0 in Hseg. rewrite Hseg.
  assert (Hd : forall m : Z, 0 <= m < Z.of_nat (length pts) ->
            exists q, getZ pts m = Some q).
  { intros m Hm. unfold getZ.
    destruct (m <? 0) eqn:E; [apply Z.ltb_lt in E; lia|].
    apply lookup_lt_is_Some_2. lia. }
  destruct (Hd (Z.max 0 (Z.of_nat (j - 1) - 1)) ltac:(lia)) as [q1 H1].
  destruct (Hd (Z.min (Z.of_nat (length pts) - 1) (Z.of_nat (j - 1) + 2))
              ltac:(lia)) as [q4 H4].
  rewrite H1, H4. cbn [Curves.orElse]. rewrite getZ_nat.
  destruct j as [|j].
  - (* the first point: [t = 0] *)
    cbn [Nat.sub]. rewrite Hp.
    destruct (Hd (Z.min (Z.of_nat (length pts) - 1) (Z.of_nat 0 + 1))
                ltac:(lia)) as [q3 H3].
    rewrite H3. cbn [Curves.orElse]. f_equal.
    destruct (Qeq_bool (Curves.x q3) (Curves.x p)) eqn:E.
    + apply lutValue_byte; [rewrite Hy; reflexivity|exact Hyb].
    + apply Qeq_bool_neq in E.
      assert (Ht : (Curves.clamp01
                      ((Curves.x p - Curves.x p)
                       / (Curves.x q3 - Curves.x p)) == 0)%Q).
      { apply clamp01_0. field. intros H. apply E. lra. }
      destruct linear.
      * apply lutValue_byte; [|exact Hyb]. rewrite Ht, Hy. ring.
      * apply lutValue_byte; [|exact Hyb].
        rewrite (cubicInterp_comp _ _ _ _ _ 0 Ht).
        rewrite cubicInterp_at_0, Hy. reflexivity.
  - (* a later point: [t = 1] *)
    replace (S j - 1)%nat with j by lia.
    destruct (pts !! j) as [q2|] eqn:H2;
      [|apply lookup_ge_None_1 in H2; lia].
    replace (Z.min (Z.of_nat (length pts) - 1) (Z.of_nat j + 1))
      with (Z.of_nat (S j)) by lia.
    rewrite getZ_nat, Hp. cbn [Curves.orElse]. f_equal.
    assert (Hlt : (Curves.x q2 < Curves.x p)%Q)
      by (eapply (increasing_lookup pts j (S j)); try eassumption; lia).
    destruct (Qeq_bool (Curves.x p) (Curves.x q2)) eqn:E.
    { apply Qeq_bool_eq in E. lra. }
    assert (Ht : (Curves.clamp01
                    ((Curves.x p - Curves.x q2)
                     / (Curves.x p - Curves.x q2)) == 1)%Q).
    { apply clamp01_1. field. lra. }
    destruct linear.
    + apply lutValue_byte; [|exact Hyb]. rewrite Ht, Hy. ring.
    + apply lutValue_byte; [|exact Hyb].
      rewrite (cubicInterp_comp _ _ _ _ _ 1 Ht).
      rewrite cubicInterp_at_1, Hy. reflexivity.
Qed.

Lemma lineAt_points p0 p1 :
  (Curves.x p0 < Curves.x p1)%Q ->
  forall p xi yi, p = p0 \/ p = p1 ->
    Curves.x p = inject_Z xi -> Curves.y p = inject_Z yi -> isByte yi ->
    Curves.lineAt p0 p1 xi = yi.
Proof.
  intros Hlt p xi yi Hp Hx Hy Hyb. unfold Curves.lineAt. cbv zeta.
  destruct (Qeq_bool (Curves.x p1) (Curves.x p0)) eqn:E.
  { apply Qeq_bool_eq in E. lra. }
  rewrite <- Hx. apply lutValue_byte; [|exact Hyb].
  destruct Hp as [-> | ->].
  - rewrite (clamp01_0 ((Curves.x p0 - Curves.x p0)
                        / (Curves.x p1 - Curves.x p0))) by (field; lra).
    rewrite Hy. ring.
  - rewrite (clamp01_1 ((Curves.x p1 - Curves.x p0)
                        / (Curves.x p1 - Curves.x p0))) by (field; lra).
    rewrite Hy. ring.
Qed.

(** X19 ([buildCurve]). For at least one control point on the grid of
    integers from 0 to 255, with increasing abscissas, in either
    interpolation mode: the table has 256 bytes, and at the abscissa of
    each control point it holds the ordinate of that point. *)
Theorem buildCurve_through_points (points : list Curves.Point)
    (linear : bool) :
  points <> [] -> Forall onGrid points -> increasing points ->
  exists lut,
    Curves.buildCurve points linear = Some lut /\
    length lut = 256%nat /\ Forall isByte lut /\
    forall p, p ∈ points ->
      getZ lut (Math_round (Curves.x p)) = Some (Math_round (Curves.y p)).
Proof.
  intros Hne Hgrid Hinc. unfold Curves.buildCurve. cbv zeta.
  rewrite (sortPoints_increasing _ Hinc), (round_onGrid _ Hgrid).
  assert (Hpt : forall p, p ∈ points ->
            exists xi yi (j : nat),
              Curves.x p = inject_Z xi /\ Curves.y p = inject_Z yi /\
              isByte xi /\ isByte yi /\ points !! j = Some p /\
              Math_round (Curves.x p) = xi /\ Math_round (Curves.y p) = yi).
  { intros p Hp. rewrite Forall_forall in Hgrid.
    destruct (Hgrid p Hp) as (xi & yi & Hx & Hy & Hxb & Hyb).
    apply list_elem_of_lookup_1 in Hp. destruct Hp as [j Hj].
    exists xi, yi, j. rewrite Hx, Hy, !Math_round_int. auto 10. }
  assert (Hgen :
            exists lut,
              allDefined (map (Curves.curveAt points linear) (seqZ 0 256))
              = Some lut /\
              length lut = 256%nat /\ Forall isByte lut /\
              forall p, p ∈ points ->
                getZ lut (Math_round (Curves.x p))
                = Some (Math_round (Curves.y p))).
  { set (f := fun x => default 0 (Curves.curveAt points linear x)).
    exists (map f (seqZ 0 256)).
    assert (Hf : forall x, Curves.curveAt points linear x = Some (f x)).
    { intros x. unfold f.
      destruct (curveAt_defined points linear x Hne) as (v & -> & _).
      reflexivity. }
    split; [apply allDefined_map; intros x _; apply Hf|].
    split; [rewrite length_map, length_seqZ; reflexivity|].
    split.
    - apply Forall_fmap, Forall_forall. intros x _.
      destruct (curveAt_defined points linear x Hne) as (v & Hv & Hb).
      change (isByte (f x)). unfold f. rewrite Hv. exact Hb.
    - intros p Hp.
      destruct (Hpt p Hp) as (xi & yi & j & Hx & Hy & Hxb & Hyb & Hj & -> & ->).
      rewrite getZ_map_seqZ by (red in Hxb; lia). f_equal. unfold f.
      rewrite (curveAt_point points linear j p xi yi Hinc Hj Hx Hy Hyb).
      reflexivity. }
  destruct points as [|p0 [|p1 [|p2 rest]]]; try exact Hgen.
  exists (map (Curves.lineAt p0 p1) (seqZ 0 256)).
  split; [reflexivity|].
  split; [rewrite length_map, length_seqZ; reflexivity|].
  split.
  - apply Forall_fmap, Forall_forall. intros x _.
    change (isByte (Curves.lineAt p0 p1 x)). apply lutValue_isByte.
  - intros p Hp.
    destruct (Hpt p Hp) as (xi & yi & j & Hx & Hy & Hxb & Hyb & Hj & -> & ->).
    rewrite getZ_map_seqZ by (red in Hxb; lia). f_equal.
    apply (lineAt_points p0 p1) with (p := p); try assumption.
    + inversion Hinc as [|? ? _ H01]; subst.
      inversion H01; subst. assumption.
    + apply elem_of_cons in Hp. destruct Hp as [->|Hp]; [left; reflexivity|].
      apply list_elem_of_singleton in Hp. right. exact Hp.
Qed.

(** * The properties of the rest of the application on the sample data *)

Ltac solve_bytes :=
  repeat first
    [ apply List.Forall_nil
    | apply List.Forall_cons; [unfold isByte; lia|] ].

Lemma crc32_bitwise_witness :
  Zip.crc32 checkDigits = crcBitwise checkDigits /\
  crcBitwise checkDigits = 0xcbf43926.
Proof.
  split; [|vm_compute; reflexivity].
  apply (crc32_bitwise checkDigits). unfold checkDigits. solve_bytes.
Defined.

Lemma dateToDos_decode_witness :
  let '(dosTime, dosDate) := Zip.dateToDos sampleDate in
  dosYear dosDate = 2024 /\ dosMonth dosDate = 2 /\ dosDay dosDate = 29 /\
  dosHours dosTime = 13 /\ dosMinutes dosTime = 45 /\
  dosSeconds dosTime = 30.
Proof.
  pose proof (dateToDos_decode sampleDate) as H.
  destruct (Zip.dateToDos sampleDate) as [dosTime dosDate].
  destruct H as (_ & _ & Hy & Hm & Hd & Hh & Hmin & Hs).
  - unfold dateInRange, sampleDate. cbn. lia.
  - unfold sampleDate. cbn. lia.
  - repeat split; assumption.
Defined.

Lemma zipFiles_entry_witness :
  let blob := Zip.zipFiles sampleDate sampleFiles in
  Zip.getUint32 blob 34 = Some 0x04034b50 /\
  Zip.getUint32 blob 48 = Some (Zip.crc32 [255]) /\
  take 2 (drop 64 blob) = [98; 99] /\
  take 1 (drop 66 blob) = [255] /\
  Zip.getUint32 blob 114 = Some 0x02014b50 /\
  Zip.getUint32 blob 156 = Some 34.
Proof.
  destruct (zipFiles_entry sampleDate [fileA] fileBC [])
    as (H1 & H2 & _ & H4 & H5 & H6 & H7).
  - unfold smallFiles. repeat constructor.
  - reflexivity.
  - repeat split; assumption.
Defined.

Lemma zipFiles_end_witness :
  let blob := Zip.zipFiles sampleDate sampleFiles in
  length blob = 184%nat /\
  Zip.getUint32 blob 162 = Some 0x06054b50 /\
  Zip.getUint16 blob 170 = Some 2 /\
  Zip.getUint32 blob 174 = Some 95 /\
  Zip.getUint32 blob 178 = Some 67.
Proof.
  destruct (zipFiles_end sampleDate sampleFiles)
    as (H1 & H2 & H3 & _ & H5 & H6).
  - unfold smallFiles, sampleFiles. repeat constructor.
  - cbv zeta. split; [|repeat split; assumption].
    apply Nat2Z.inj. rewrite H1. reflexivity.
Defined.

Ltac solve_wellFormed :=
  unfold wellFormed; cbn [width height data samplePicture length];
  repeat split; try lia; solve_bytes.

Lemma processImage_unguarded_witness :
  ImageProcessing.processImage samplePicture 3 3 sampleAdjust
  = ImageProcessing.applySharpen
      (ImageProcessing.adjustSaturation
         (ImageProcessing.adjustContrast
            (ImageProcessing.adjustBrightness samplePicture 1) (12 # 10))
         1)
      3 3.
Proof.
  apply (processImage_unguarded samplePicture 3 3 sampleAdjust).
  - unfold samplePicture. cbn [data]. solve_bytes.
  - reflexivity.
Defined.

Lemma applySharpen_spec_witness :
  exists out,
    ImageProcessing.applySharpen samplePicture 3 3 = Some out /\
    channel out 1 1 0 = 255 /\ channel out 1 1 1 = 30 /\
    channel out 1 1 3 = 255 /\ channel out 0 2 1 = 80.
Proof.
  destruct (applySharpen_spec samplePicture)
    as (out & Hrun & _ & _ & _ & Hpx); [solve_wellFormed|].
  exists out. split; [exact Hrun|].
  destruct (Hpx 1 1) as [Ha Hc]; [cbn; lia..|].
  destruct (Hpx 0 2) as [_ Hb]; [cbn; lia..|].
  rewrite (Hc 0), (Hc 1), Ha, (Hb 1) by lia.
  repeat split; vm_compute; reflexivity.
Defined.

Lemma imageDataToArrays_spec_witness :
  exists rgbChannels alphaChannel,
    Processor.imageDataToArrays samplePicture
    = Some (rgbChannels, alphaChannel) /\
    px rgbChannels 1 1 = Some (200, 100, 50)%Q /\
    px alphaChannel 1 2 = Some 128%Q.
Proof.
  destruct (imageDataToArrays_spec samplePicture)
    as (rgb & alpha & Hrun & _ & _ & _ & Hpx); [solve_wellFormed|].
  exists rgb, alpha. split; [exact Hrun|].
  destruct (Hpx 1 1) as [Hc _]; [cbn; lia..|].
  destruct (Hpx 1 2) as [_ Ha]; [cbn; lia..|].
  split; [exact Hc|exact Ha].
Defined.

Lemma arraysToImageData_spec_witness :
  exists out,
    Processor.arraysToImageData sampleImage sampleAlpha 2 2 = Some out /\
    wellFormed out /\ channel out 0 1 0 = 200 /\ channel out 1 0 3 = 200.
Proof.
  destruct (arraysToImageData_spec sampleImage sampleAlpha 2 2)
    as (out & Hrun & Hwf & _ & _ & Hpx).
  - split; [reflexivity|repeat constructor].
  - split; [reflexivity|repeat constructor].
  - lia.
  - lia.
  - exists out. split; [exact Hrun|]. split; [exact Hwf|].
    destruct (Hpx 0 1 (200, 100, 50)%Q 0%Q eq_refl eq_refl) as (Hr & _).
    destruct (Hpx 1 0 (128, 128, 128)%Q 200%Q eq_refl eq_refl)
      as (_ & _ & _ & Ha).
    split; [exact Hr|exact Ha].
Defined.

Lemma imageData_round_trip_witness :
  exists rgbChannels alphaChannel,
    Processor.imageDataToArrays samplePicture
    = Some (rgbChannels, alphaChannel) /\
    Processor.arraysToImageData rgbChannels alphaChannel 3 3
    = Some samplePicture.
Proof.
  destruct (Processor.imageDataToArrays samplePicture)
    as [[rgb alpha]|] eqn:E; [|vm_compute in E; discriminate E].
  exists rgb, alpha. split; [reflexivity|].
  apply (imageData_round_trip samplePicture rgb alpha); [solve_wellFormed|].
  exact E.
Defined.

Lemma createImageSegments_tiles_witness :
  exists segments,
    Preview.createImageSegments 3 samplePicture 2
    = Preview.Returns segments /\
    Forall2 (tileOf samplePicture 2) segments [(0, 0); (0, 2); (2, 0); (2, 2)].
Proof.
  destruct (createImageSegments_tiles samplePicture 2 3)
    as (segments & Hrun & Htiles & _).
  - solve_wellFormed.
  - lia.
  - cbn. lia.
  - cbn. lia.
  - exists segments. split; [exact Hrun|exact Htiles].
Defined.

Lemma createImageSegments_zero_witness :
  Preview.createImageSegments 1 samplePicture 0 = Preview.Throws.
Proof.
  apply (createImageSegments_zero samplePicture 0). solve_wellFormed.
Defined.

Lemma rgbToHex_round_trip_witness :
  Utils.hexToRgb (Utils.rgbToHex [255; 255 # 2; 2 # 10]%Q)
  = [Some 255; Some 128; Some 0].
Proof.
  apply (rgbToHex_round_trip 255 (255 # 2) (2 # 10));
    unfold isByte; vm_compute; split; first [discriminate|reflexivity].
Defined.

Lemma active_palette_never_empty_witness :
  let palette :=
    Colors.getPaletteAsRgb (App.getActivePaletteHex "custom" []) in
  palette <> [] /\ Forall isColour palette.
Proof.
  destruct (active_palette_never_empty "custom" []) as [Hne Hcol].
  split; [exact Hne|]. apply Hcol. right. reflexivity.
Defined.

Lemma getColorStatistics_spec_witness :
  let stats :=
    Processor.getColorStatistics samplePicture (fun _ => None) 128 in
  StronglySorted (fun a b => Processor.count b <= Processor.count a) stats /\
  forall row, row ∈ stats ->
    exists r g b,
      Processor.count row
      = occurrences (r, g, b) (countedPixels 128 (data samplePicture)) /\
      Utils.hexToRgb (Processor.hex row) = [Some r; Some g; Some b].
Proof.
  destruct (getColorStatistics_spec samplePicture (fun _ => None) 128)
    as (Hsorted & _ & Hrows).
  split; [exact Hsorted|].
  intros row Hrow.
  destruct (Hrows ltac:(unfold samplePicture; cbn [data]; solve_bytes)
              row Hrow) as (r & g & b & _ & Hcount & Hhex).
  exists r, g, b. split; [exact Hcount|exact Hhex].
Defined.

Lemma diffusion_methods_palette_membership_witness :
  exists out wd' c,
    dither samplePow sampleCbrt sampleRandom (sampleConfig Atkinson)
      sampleImage sampleAlpha (Some blackWhite) freshWorld = Ok (out, wd') /\
    px out 1 0 = Some c /\ c ∈ blackWhite.
Proof.
  destruct (diffusion_methods_palette_membership samplePow sampleCbrt
              sampleRandom (sampleConfig Atkinson) blackWhite sampleImage
              sampleAlpha 2 2 freshWorld) as [Hret Hpost].
  - reflexivity.
  - discriminate.
  - split; [reflexivity|repeat constructor].
  - split; [reflexivity|repeat constructor].
  - lia.
  - destruct Hret as (out & wd' & Hrun); [right; exact (le_n 2)|].
    destruct (Hpost out wd' Hrun 1 0 200%Q) as (c & Hc & Hin).
    + reflexivity.
    + discriminate.
    + exists out, wd', c. split; [exact Hrun|]. split; [exact Hc|exact Hin].
Defined.

Lemma findClosestColorInPalette_versions_witness :
  findClosestColorInPalette_v1 samplePowSquare (200, 100, 50)%Q
    (Some blackWhite) freshWorld
  = findClosestColorInPalette samplePowSquare sampleCbrt (200, 100, 50)%Q
      (Some blackWhite) ModeRgb freshWorld /\
  findClosestColorInPalette_v1 samplePowSquare (200, 100, 50)%Q (Some [])
    freshWorld
  = Throw TypeError.
Proof.
  split.
  - apply (findClosestColorInPalette_versions samplePowSquare sampleCbrt
             (200, 100, 50)%Q (Some blackWhite) freshWorld).
    intros x. reflexivity.
  - apply (findClosestColorInPalette_versions samplePowSquare sampleCbrt
             (200, 100, 50)%Q (Some []) freshWorld).
    intros x. reflexivity.
Defined.

Lemma buildCurve_through_points_witness :
  exists lut,
    Curves.buildCurve samplePoints false = Some lut /\
    length lut = 256%nat /\ getZ lut 128 = Some 200.
Proof.
  destruct (buildCurve_through_points samplePoints false)
    as (lut & Hrun & Hlen & _ & Hpts).
  - discriminate.
  - repeat constructor.
    + exists 0, 0. unfold isByte. repeat split; lia.
    + exists 128, 200. unfold isByte. repeat split; lia.
    + exists 255, 255. unfold isByte. repeat split; lia.
  - repeat constructor.
  - exists lut. split; [exact Hrun|]. split; [exact Hlen|].
    apply (Hpts (Curves.mkPoint 128 200)).
    unfold samplePoints. apply list_elem_of_In. right. left. reflexivity.
Defined.
